(** * thunder.dynamo.splitter: partitioning a traced graph between two backends

    A shallow embedding of [_splitter] (src/thunder/dynamo/splitter.py) and
    of the closure [callback] it hands to [split_module], followed by the
    properties of the partition assignment and of the assembly loop. *)

From Stdlib Require Import ZArith Lia List DecimalString DecimalN DecimalZ.
From Stdlib Require Import Strings.String Strings.Ascii.
From stdpp Require Import base decidable option list gmap sets strings.

Local Open Scope string_scope.
Local Open Scope Z_scope.

(** ** Data model *)

(** [node.op] of a [torch.fx.Node]. *)
Inductive Op : Type :=
  | placeholder
  | get_attr
  | call_function
  | call_method
  | call_module
  | output.

(** [node.target].  The source compares it by identity against
    [torch.ops.higher_order.tag_activation_checkpoint]; a [call_module] or
    [get_attr] node carries an attribute name instead of a callable. *)
Inductive Target : Type :=
  | tag_activation_checkpoint
  | thunder_symbol (qualname : string)
  | torch_callable (qualname : string)
  | attr_name (attr : string).

(** A graph node.  [nid] is the object identity Python hashes a node by when
    it tests [node in nodes_in_unsupported_ctx_regions]. *)
Record Node : Type := mkNode {
  nid : nat;
  name : string;
  op : Op;
  target : Target
}.

#[global] Instance Op_eq_dec : EqDecision Op.
Proof. solve_decision. Defined.
#[global] Instance Target_eq_dec : EqDecision Target.
Proof. solve_decision. Defined.
#[global] Instance Node_eq_dec : EqDecision Node.
Proof. solve_decision. Defined.

(** Modelled from the spec: [SplitReasonType] is declared in
    thunder/dynamo/utils.py, which is not part of the sources at hand; the
    splitter itself only ever builds [UNSUPPORTED_NODE], the other kinds come
    back from the support predicate. *)
Inductive SplitReasonType : Type :=
  | UNSUPPORTED_NODE
  | MISSING_OP_SUPPORT
  | EXCEPTION_PROXY_THUNDER_OP
  | EXCEPTION_META_THUNDER_OP.

(** Modelled from the spec: [SplitReason], an immutable record of a kind and a
    free-text explanation. *)
Record SplitReason : Type := mkSplitReason {
  reason_type : SplitReasonType;
  info : string
}.

(** Exceptions the pass can raise. *)
Inductive exn : Type :=
  | AssertionError (msg : string)
  | ValueError (literal : string)
  | AttributeError (attr : string).

(** [str(node.op)], as interpolated into the assertion message. *)
Definition op_str (o : Op) : string :=
  match o with
  | placeholder => "placeholder"
  | get_attr => "get_attr"
  | call_function => "call_function"
  | call_method => "call_method"
  | call_module => "call_module"
  | output => "output"
  end.

(** [str(node.target)], as interpolated into the split reason. *)
Definition target_str (t : Target) : string :=
  match t with
  | tag_activation_checkpoint => "tag_activation_checkpoint"
  | thunder_symbol q => q
  | torch_callable q => q
  | attr_name a => a
  end.

(** ** The closure state of [callback]

    The five [nonlocal] variables of lines 91-95. *)
Record cb_state : Type := mkCb {
  prev_value : option bool;
  partition_cnt : Z;
  supported_partitions : gset Z;
  split_reasons : list SplitReason;
  has_thunder_tracable_checkpoint : bool
}.

Definition cb_init : cb_state :=
  {| prev_value := None;
     partition_cnt := 0;
     supported_partitions := ∅;
     split_reasons := [];
     has_thunder_tracable_checkpoint := false |}.

Definition append_reason (r : SplitReason) (st : cb_state) : cb_state :=
  {| prev_value := prev_value st;
     partition_cnt := partition_cnt st;
     supported_partitions := supported_partitions st;
     split_reasons := split_reasons st ++ [r];
     has_thunder_tracable_checkpoint := has_thunder_tracable_checkpoint st |}.

Definition set_checkpoint_flag (st : cb_state) : cb_state :=
  {| prev_value := prev_value st;
     partition_cnt := partition_cnt st;
     supported_partitions := supported_partitions st;
     split_reasons := split_reasons st;
     has_thunder_tracable_checkpoint := true |}.

(** Lines 129-130: [prev_value = is_thunder_supported; partition_cnt += 1]. *)
Definition flip_region (b : bool) (st : cb_state) : cb_state :=
  {| prev_value := Some b;
     partition_cnt := partition_cnt st + 1;
     supported_partitions := supported_partitions st;
     split_reasons := split_reasons st;
     has_thunder_tracable_checkpoint := has_thunder_tracable_checkpoint st |}.

(** Line 133: [supported_partitions.add(partition_cnt)]. *)
Definition add_supported (st : cb_state) : cb_state :=
  {| prev_value := prev_value st;
     partition_cnt := partition_cnt st;
     supported_partitions := {[ partition_cnt st ]} ∪ supported_partitions st;
     split_reasons := split_reasons st;
     has_thunder_tracable_checkpoint := has_thunder_tracable_checkpoint st |}.

(** [node.op not in ("placeholder", "get_attr", "output")]. *)
Definition is_call_op (o : Op) : bool :=
  match o with
  | placeholder | get_attr | output => false
  | call_function | call_method | call_module => true
  end.

(** The f-string of line 115. *)
Definition unsupported_ctx_info (node : Node) : string :=
  "node with name: " ++ name node ++ " and target: " ++ target_str (target node)
  ++ " is not supported probably because it is in unsupported context.".

(** The f-string of line 106. *)
Definition assert_msg (node : Node) : string :=
  "fx.split_module should have only passed node.op=call_* but received "
  ++ op_str (op node).

Definition is_checkpoint_target (t : Target) : bool :=
  match t with tag_activation_checkpoint => true | _ => false end.

(** [prev_value == is_thunder_supported]: [None] equals neither boolean. *)
Definition prev_eq (p : option bool) (b : bool) : bool :=
  match p with
  | Some b' => Bool.eqb b' b
  | None => false
  end.

Section Callback.
(** The two collaborators [callback] closes over: the support predicate
    [is_node_supported_by_thunder] and the set computed once by
    [get_nodes_in_unsupported_ctx_regions(gm)], both from
    thunder/dynamo/utils.py. *)
Variable is_node_supported_by_thunder : Node -> bool * option SplitReason.
Variable nodes_in_unsupported_ctx_regions : gset nat.

(** Lines 108-123: the classification of one node, with its effects on
    [split_reasons] and [has_thunder_tracable_checkpoint]. *)
Definition classify (st : cb_state) (node : Node) : bool * cb_state :=
  if decide (nid node ∈ nodes_in_unsupported_ctx_regions) then
    (false,
     append_reason (mkSplitReason UNSUPPORTED_NODE (unsupported_ctx_info node)) st)
  else
    let '(is_thunder_supported, split_reason) := is_node_supported_by_thunder node in
    let st1 :=
      if is_checkpoint_target (target node) && is_thunder_supported
      then set_checkpoint_flag st else st in
    let st2 :=
      match split_reason with
      | Some r => append_reason r st1
      | None => st1
      end in
    (is_thunder_supported, st2).

(** Lines 99-134.  The state comes back unchanged when the assertion fails. *)
Definition callback (st : cb_state) (node : Node) : cb_state * (exn + Z) :=
  if negb (is_call_op (op node)) then (st, inl (AssertionError (assert_msg node)))
  else
    let '(is_thunder_supported, st1) := classify st node in
    if prev_eq (prev_value st1) is_thunder_supported then
      (st1, inr (partition_cnt st1))
    else
      let st2 := flip_region is_thunder_supported st1 in
      let st3 := if is_thunder_supported then add_supported st2 else st2 in
      (st3, inr (partition_cnt st3)).

(** The value of [is_thunder_supported] that [callback] computes for a node. *)
Definition is_thunder_supported (node : Node) : bool :=
  if decide (nid node ∈ nodes_in_unsupported_ctx_regions) then false
  else fst (is_node_supported_by_thunder node).

(** [callback] applied to a sequence of nodes, in order; the first exception
    ends the sequence. *)
Fixpoint run_callback (st : cb_state) (nodes : list Node)
  : cb_state * (exn + list Z) :=
  match nodes with
  | [] => (st, inr [])
  | node :: rest =>
      match callback st node with
      | (st', inl e) => (st', inl e)
      | (st', inr pid) =>
          match run_callback st' rest with
          | (st'', inl e) => (st'', inl e)
          | (st'', inr pids) => (st'', inr (pid :: pids))
          end
      end
  end.

(** Modelled from the spec: [split_module] (torch.fx, an external
    collaborator) skips placeholder, get_attr and output nodes and calls
    [split_callback] once on every other node, in graph order. *)
Definition call_nodes (gm_nodes : list Node) : list Node :=
  filter (λ n, is_call_op (op n) = true) gm_nodes.

Definition partition_pass (gm_nodes : list Node) : cb_state * (exn + list Z) :=
  run_callback cb_init (call_nodes gm_nodes).
End Callback.

(** ** Strings: the three [str] operations the assembly loop relies on *)

(** [s.replace(old, new)] scanning left to right; [skip] counts the characters
    of a match that are still to be dropped. *)
Fixpoint replace_from (old new : string) (skip : nat) (s : string) : string :=
  match s with
  | EmptyString => EmptyString
  | String c r =>
      match skip with
      | S k => replace_from old new k r
      | O =>
          if String.prefix old s
          then new ++ replace_from old new (String.length old - 1) r
          else String c (replace_from old new 0 r)
      end
  end.

(** With an empty [old], Python puts [new] before every character and at the
    end. *)
Fixpoint interleave (new s : string) : string :=
  match s with
  | EmptyString => new
  | String c r => new ++ String c (interleave new r)
  end.

Definition replace (old new s : string) : string :=
  match old with
  | EmptyString => interleave new s
  | String _ _ => replace_from old new 0 s
  end.

(** [str.isspace] on the ASCII range, which [int] strips on both sides. *)
Definition is_space (c : ascii) : bool :=
  let n := nat_of_ascii c in
  ((9 <=? n) && (n <=? 13) || (28 <=? n) && (n <=? 32))%nat.

Definition is_digit (c : ascii) : bool :=
  let n := nat_of_ascii c in ((48 <=? n) && (n <=? 57))%nat.

Fixpoint lstrip (s : string) : string :=
  match s with
  | EmptyString => EmptyString
  | String c r => if is_space c then lstrip r else s
  end.

Fixpoint rstrip (s : string) : string :=
  match s with
  | EmptyString => EmptyString
  | String c r =>
      match rstrip r with
      | EmptyString => if is_space c then EmptyString else String c EmptyString
      | r' => String c r'
      end
  end.

(** Digit groups of an integer literal: single underscores are allowed between
    digits only. *)
Fixpoint strip_underscores (after_digit : bool) (s : string) : option string :=
  match s with
  | EmptyString => if after_digit then Some EmptyString else None
  | String c r =>
      if is_digit c then String c <$> strip_underscores true r
      else if Ascii.eqb c "_" then
        if after_digit then strip_underscores false r else None
      else None
  end.

Definition digits_value (s : string) : option Z :=
  ds ← strip_underscores false s;
  u ← NilEmpty.uint_of_string ds;
  Some (Z.of_N (N.of_uint u)).

(** [int(s)] for an ASCII string in base ten; [None] stands for [ValueError]. *)
Definition py_int (s : string) : option Z :=
  match rstrip (lstrip s) with
  | EmptyString => None
  | String c r =>
      if Ascii.eqb c "-" then Z.opp <$> digits_value r
      else if Ascii.eqb c "+" then digits_value r
      else digits_value (String c r)
  end.

(** [str(z)] for an integer. *)
Definition py_str (z : Z) : string := NilZero.string_of_int (Z.to_int z).

(** ** The object store

    Graph modules are mutable objects that the pass aliases ([origin_split_gm
    = split_gm]), copies ([copy.deepcopy]) and uses as dictionary keys, so
    they live in a store indexed by location; a location is the object's
    identity. *)
Abbreviation loc := nat.

Inductive CompilerType : Type :=
  | THUNDER
  | TORCH_INDUCTOR.

#[global] Instance CompilerType_eq_dec : EqDecision CompilerType.
Proof. solve_decision. Defined.

(** A [torch.fx.GraphModule] holds its graph (the ordered nodes) and its named
    children; the callables that [thunder_jit] and [torch_inductor] return are
    opaque and only remember which compiler built them from which module. *)
Inductive obj : Type :=
  | GraphModule (nodes : list Node) (modules : list (string * loc))
  | CompiledCallable (compiler : CompilerType) (source : loc).

#[global] Instance obj_eq_dec : EqDecision obj.
Proof. solve_decision. Defined.

(** Modelled from the spec: [CompiledFunction] (thunder/dynamo/utils.py) pairs
    a compiled callable with the tag of the backend that produced it. *)
Record CompiledFunction : Type := mkCompiledFunction {
  compiled_fn : loc;
  compiler : CompilerType
}.

(** Modelled from the spec: [SubgraphInfo] (thunder/dynamo/utils.py), in the
    order [_splitter] passes its six arguments. *)
Record SubgraphInfo : Type := mkSubgraphInfo {
  original_graph_module : list Node;
  original_split_graph_module : loc;
  split_graph_module : loc;
  thunder_compiled_fns : list loc;
  submodule_to_compiled_functions : gmap loc CompiledFunction;
  split_reasons_info : list SplitReason
}.

(** Calls into collaborators, in the order they happen. *)
Inductive event : Type :=
  | EvDeepcopy (src dst : loc)
  | EvCheckpointConverter (gm sub : loc)
  | EvCompile (by_compiler : CompilerType) (sub fn : loc)
  | EvUpdate (gm : loc) (index : nat) (new_name : string) (fn : loc)
  | EvRecompile (gm : loc).

(** The mutable state of lines 145-186: the store, the two accumulators and
    the log of collaborator calls. *)
Record asm_state : Type := mkAsm {
  heap : list obj;
  compiled_fns_acc : list loc;
  submodule_to_compiled_fns : gmap loc CompiledFunction;
  trace : list event
}.

(** Association lists for [Module._modules], an ordered dictionary. *)
Fixpoint assoc_get (k : string) (l : list (string * loc)) : option loc :=
  match l with
  | [] => None
  | (k', v) :: r => if String.eqb k k' then Some v else assoc_get k r
  end.

Fixpoint assoc_del (k : string) (l : list (string * loc)) : list (string * loc) :=
  match l with
  | [] => []
  | (k', v) :: r => if String.eqb k k' then assoc_del k r else (k', v) :: assoc_del k r
  end.

(** Assignment keeps the position of a key that is already present and puts a
    new key last. *)
Fixpoint assoc_set (k : string) (v : loc) (l : list (string * loc))
  : list (string * loc) :=
  match l with
  | [] => [(k, v)]
  | (k', v') :: r =>
      if String.eqb k k' then (k', v) :: r else (k', v') :: assoc_set k v r
  end.

(** ** A state and exception monad for the assembly phase *)
Definition M (A : Type) : Type := asm_state -> asm_state * (exn + A).

#[global] Instance M_ret : MRet M := λ A x st, (st, inr x).
#[global] Instance M_bind : MBind M := λ A B f m st,
  match m st with
  | (st', inl e) => (st', inl e)
  | (st', inr x) => f x st'
  end.

Definition raise {A} (e : exn) : M A := λ st, (st, inl e).
Definition get_heap : M (list obj) := λ st, (st, inr (heap st)).
Definition put_heap (h : list obj) : M unit := λ st,
  (mkAsm h (compiled_fns_acc st) (submodule_to_compiled_fns st) (trace st), inr tt).
Definition emit (e : event) : M unit := λ st,
  (mkAsm (heap st) (compiled_fns_acc st) (submodule_to_compiled_fns st) (trace st ++ [e]),
   inr tt).
Definition of_option {A} (e : exn) (o : option A) : M A :=
  match o with Some x => mret x | None => raise e end.

Fixpoint for_each {A} (body : A -> M unit) (l : list A) : M unit :=
  match l with
  | [] => mret tt
  | x :: r => body x;; for_each body r
  end.

(** ** Collaborators of the assembly phase *)

(** [getattr(gm, attr)] on a graph module: the child registered under [attr]. *)
Definition getattr (gm : loc) (attr : string) : M loc :=
  h ← get_heap;
  match h !! gm with
  | Some (GraphModule _ mods) => of_option (AttributeError attr) (assoc_get attr mods)
  | _ => raise (AttributeError attr)
  end.

(** The nodes of [gm.graph], as the [for] statement of line 155 sees them. *)
Definition graph_nodes (gm : loc) : M (list Node) :=
  h ← get_heap;
  match h !! gm with
  | Some (GraphModule ns _) => mret ns
  | _ => raise (AttributeError "graph")
  end.

(** Node objects are shared with the graph: reading [node.name] reads the
    graph's current node at that position. *)
Definition get_node (gm : loc) (i : nat) : M Node :=
  ns ← graph_nodes gm;
  of_option (AttributeError "name") (ns !! i).

Definition thunder_checkpoint : Target := thunder_symbol "thunder.torch.checkpoint".

(** Modelled from the spec: the conversion [checkpoint_converter]
    (thunder/dynamo/utils.py) applies to one node, "rewrites checkpoint-tagged
    internal call nodes' targets from the generic operator form to the primary
    backend's equivalent symbol, leaving non-checkpoint nodes untouched". *)
Definition convert_node (n : Node) : Node :=
  if is_call_op (op n) && is_checkpoint_target (target n)
  then mkNode (nid n) (name n) (op n) thunder_checkpoint
  else n.

(** Modelled from the spec: [checkpoint_converter(split_gm, graph_module)]
    rewrites [graph_module] in place. *)
Definition checkpoint_converter (split_gm graph_module : loc) : M unit :=
  emit (EvCheckpointConverter split_gm graph_module);;
  h ← get_heap;
  match h !! graph_module with
  | Some (GraphModule ns mods) =>
      put_heap (<[graph_module := GraphModule (convert_node <$> ns) mods]> h)
  | _ => raise (AttributeError "graph")
  end.

(** The backend compilers [thunder_jit] and [torch_inductor] are opaque:
    graph module in, fresh callable out. *)
Definition compile_with (c : CompilerType) (graph_module : loc) : M loc :=
  h ← get_heap;
  let jit_fn := length h in
  put_heap (h ++ [CompiledCallable c graph_module]);;
  emit (EvCompile c graph_module jit_fn);;
  mret jit_fn.

Definition thunder_jit : loc -> M loc := compile_with THUNDER.
Definition torch_inductor : loc -> M loc := compile_with TORCH_INDUCTOR.

(** Modelled from the spec: [update_node_and_submodule(gm, node, new_name,
    new_callable)] (thunder/dynamo/utils.py) renames the call node of the
    parent graph and its submodule to [new_name] and makes the parent call
    the compiled callable. *)
Definition update_node_and_submodule
    (gm : loc) (i : nat) (new_name : string) (new_callable : loc) : M unit :=
  emit (EvUpdate gm i new_name new_callable);;
  h ← get_heap;
  match h !! gm with
  | Some (GraphModule ns mods) =>
      match ns !! i with
      | Some node =>
          let node' := mkNode (nid node) new_name (op node) (attr_name new_name) in
          put_heap (<[gm := GraphModule (<[i := node']> ns)
                              (assoc_set new_name new_callable
                                 (assoc_del (name node) mods))]> h)
      | None => raise (AttributeError "name")
      end
  | _ => raise (AttributeError "graph")
  end.

(** Modelled from the spec: [recompile_graph(gm)] regenerates the executable
    form; the graph and the children stay as they are. *)
Definition recompile_graph (gm : loc) : M unit := emit (EvRecompile gm).

(** [copy.deepcopy]: every object reachable from [l] is duplicated into fresh
    locations, children first. *)
Fixpoint copy_modules (rec : loc -> list obj -> option (loc * list obj))
    (mods : list (string * loc)) (h : list obj)
  : option (list (string * loc) * list obj) :=
  match mods with
  | [] => Some ([], h)
  | (k, l) :: r =>
      '(l', h1) ← rec l h;
      '(r', h2) ← copy_modules rec r h1;
      Some ((k, l') :: r', h2)
  end.

Fixpoint deepcopy_obj (fuel : nat) (l : loc) (h : list obj) : option (loc * list obj) :=
  match fuel with
  | O => None
  | S fuel' =>
      match h !! l with
      | None => None
      | Some (CompiledCallable c s) => Some (length h, (h ++ [CompiledCallable c s])%list)
      | Some (GraphModule ns mods) =>
          '(mods', h') ← copy_modules (deepcopy_obj fuel') mods h;
          Some (length h', (h' ++ [GraphModule ns mods'])%list)
      end
  end.

Definition deepcopy (l : loc) : M loc :=
  h ← get_heap;
  match deepcopy_obj (S (length h)) l h with
  | Some (l', h') => put_heap h';; emit (EvDeepcopy l l');; mret l'
  | None => raise (AttributeError "__deepcopy__")
  end.

(** ** Modelled from the spec: [split_module]

    The graph splitter is torch.fx's; the pass relies on it for one
    [call_module] node named [submod_<id>] per partition, in order of first
    appearance, each bound to a child module that holds the partition's nodes
    in their original order under their original names. *)
Fixpoint first_seen (seen pids : list Z) : list Z :=
  match pids with
  | [] => []
  | p :: r =>
      if decide (p ∈ seen) then first_seen seen r else p :: first_seen (p :: seen) r
  end.

Definition partition_ids (pids : list Z) : list Z := first_seen [] pids.

Definition partition_body (calls : list Node) (pids : list Z) (p : Z) : list Node :=
  fst <$> filter (λ np, np.2 = p) (zip calls pids).

Definition submod_name (p : Z) : string := "submod_" ++ py_str p.

Definition fresh_nid (gm_nodes : list Node) : nat :=
  S (foldr (λ n acc, Nat.max (nid n) acc) O gm_nodes).

Definition submod_call (fresh : nat) (i : nat) (p : Z) : Node :=
  mkNode (fresh + i) (submod_name p) call_module (attr_name (submod_name p)).

Definition graph_inputs (gm_nodes : list Node) : list Node :=
  filter (λ n, op n = placeholder ∨ op n = get_attr) gm_nodes.

Definition graph_outputs (gm_nodes : list Node) : list Node :=
  filter (λ n, op n = output) gm_nodes.

Definition split_module (gm_nodes : list Node) (pids : list Z) : M loc :=
  h ← get_heap;
  let parts := partition_ids pids in
  let base := length h in
  let subs := (λ p, GraphModule (partition_body (call_nodes gm_nodes) pids p) []) <$> parts in
  let mods := imap (λ i p, (submod_name p, (base + i)%nat)) parts in
  let calls := imap (submod_call (fresh_nid gm_nodes)) parts in
  put_heap (h ++ subs ++ [GraphModule (graph_inputs gm_nodes ++ calls ++ graph_outputs gm_nodes) mods]);;
  mret (base + length parts)%nat.

(** ** The assembly phase, lines 141-195 *)

Definition record_compiled (key : loc) (cf : CompiledFunction) : M unit := λ st,
  (mkAsm (heap st) (compiled_fns_acc st) (<[key := cf]> (submodule_to_compiled_fns st))
     (trace st), inr tt).

Definition append_thunder_fn (fn : loc) : M unit := λ st,
  (mkAsm (heap st) (compiled_fns_acc st ++ [fn]) (submodule_to_compiled_fns st)
     (trace st), inr tt).

(** Lines 188-195: the returned pair. *)
Definition subgraph_info (gm_nodes : list Node) (reasons : list SplitReason)
    (origin_split_gm split_gm : loc) : M (loc * SubgraphInfo) := λ st,
  (st, inr (split_gm,
            mkSubgraphInfo gm_nodes origin_split_gm split_gm
              (compiled_fns_acc st) (submodule_to_compiled_fns st) reasons)).

Section Assembly.
(** What the closure of [callback] holds once [split_module] has returned. *)
Variable supported_partitions_ : gset Z.
Variable has_thunder_tracable_checkpoint_ : bool.

(** Lines 141-142; [and] does not evaluate [int] unless the prefix matches. *)
Definition is_thunder_supported_partition (node : Node) : M bool :=
  if String.prefix "submod" (name node) then
    let literal := replace "submod_" "" (name node) in
    n ← of_option (ValueError literal) (py_int literal);
    mret (bool_decide (n ∈ supported_partitions_))
  else mret false.

(** The body of the loop of line 155 for the node at position [i]. *)
Definition assemble_node (origin_split_gm split_gm : loc) (i : nat) : M unit :=
  node ← get_node split_gm i;
  thunder ← is_thunder_supported_partition node;
  if (thunder : bool) then
    graph_module ← getattr split_gm (name node);
    checkpoint_converter split_gm graph_module;;
    jit_fn ← thunder_jit graph_module;
    update_node_and_submodule split_gm i (replace "submod" "thunder" (name node)) jit_fn;;
    append_thunder_fn jit_fn;;
    if has_thunder_tracable_checkpoint_ then
      node' ← get_node split_gm i;
      key ← getattr origin_split_gm (replace "thunder" "submod" (name node'));
      record_compiled key (mkCompiledFunction jit_fn THUNDER)
    else
      record_compiled graph_module (mkCompiledFunction jit_fn THUNDER)
  else if String.prefix "submod" (name node) then
    graph_module ← getattr split_gm (name node);
    jit_fn ← torch_inductor graph_module;
    update_node_and_submodule split_gm i (replace "submod" "inductor" (name node)) jit_fn;;
    if has_thunder_tracable_checkpoint_ then
      node' ← get_node split_gm i;
      key ← getattr origin_split_gm (replace "inductor" "submod" (name node'));
      record_compiled key (mkCompiledFunction jit_fn TORCH_INDUCTOR)
    else
      record_compiled graph_module (mkCompiledFunction jit_fn TORCH_INDUCTOR)
  else mret tt.

(** Lines 144-195. *)
Definition assemble (gm_nodes : list Node) (reasons : list SplitReason)
    (split_gm0 : loc) : M (loc * SubgraphInfo) :=
  let origin_split_gm := split_gm0 in
  split_gm ← (if has_thunder_tracable_checkpoint_ then deepcopy split_gm0
              else mret split_gm0);
  ns ← graph_nodes split_gm;
  for_each (assemble_node origin_split_gm split_gm) (seq 0 (length ns));;
  recompile_graph split_gm;;
  subgraph_info gm_nodes reasons origin_split_gm split_gm.
End Assembly.

Definition asm_init : asm_state := mkAsm [] [] ∅ [].

(** [_splitter(gm, thunder_jit, torch_inductor, _unused_sample_args)]. *)
Definition _splitter
    (is_node_supported_by_thunder : Node -> bool * option SplitReason)
    (nodes_in_unsupported_ctx_regions : gset nat)
    (gm_nodes : list Node) : asm_state * (exn + (loc * SubgraphInfo)) :=
  match partition_pass is_node_supported_by_thunder nodes_in_unsupported_ctx_regions
          gm_nodes with
  | (_, inl e) => (asm_init, inl e)
  | (cb, inr pids) =>
      (split_gm ← split_module gm_nodes pids;
       assemble (supported_partitions cb) (has_thunder_tracable_checkpoint cb)
         gm_nodes (split_reasons cb) split_gm) asm_init
  end.

(** ** The partition assignment as a function of the classifications

    Section 4.2 of the specification describes the assignment from the
    sequence of support values alone; [callback] is compared with it below. *)
Fixpoint assign_ids (prev : option bool) (cnt : Z) (bs : list bool) : list Z :=
  match bs with
  | [] => []
  | b :: r =>
      if prev_eq prev b then cnt :: assign_ids prev cnt r
      else (cnt + 1) :: assign_ids (Some b) (cnt + 1) r
  end.

(** The invariant that ties the three partitioning variables together. *)
Definition cb_inv (st : cb_state) : Prop :=
  (0 ≤ partition_cnt st)
  ∧ (∀ p, p ∈ supported_partitions st → 1 ≤ p ∧ p ≤ partition_cnt st)
  ∧ (prev_value st = None → partition_cnt st = 0)
  ∧ (∀ b, prev_value st = Some b →
       1 ≤ partition_cnt st ∧ (partition_cnt st ∈ supported_partitions st ↔ b = true)).

(** A node that sets [has_thunder_tracable_checkpoint]. *)
Definition traceable_checkpoint
    (is_node_supported_by_thunder : Node -> bool * option SplitReason)
    (ctx : gset nat) (node : Node) : Prop :=
  (nid node ∉ ctx)
  ∧ target node = tag_activation_checkpoint
  ∧ fst (is_node_supported_by_thunder node) = true.

(** Every character of [s] satisfies [P]. *)
Fixpoint all_chars (P : ascii -> bool) (s : string) : bool :=
  match s with
  | EmptyString => true
  | String c r => P c && all_chars P r
  end.

(** The characters [str] produces for an integer. *)
Definition is_int_char (c : ascii) : bool := is_digit c || Ascii.eqb c "-".

(** The names the assembly loop gives to compiled partitions. *)
Definition thunder_name (p : Z) : string := "thunder_" ++ py_str p.
Definition inductor_name (p : Z) : string := "inductor_" ++ py_str p.

(** [m] only appends events that satisfy [P] to the log, whether it returns
    or raises. *)
Definition emits_only (P : event -> Prop) {A} (m : M A) : Prop :=
  ∀ st st' r, m st = (st', r) →
    ∃ evs, trace st' = (trace st ++ evs)%list ∧ Forall P evs.

Definition is_deepcopy_event (e : event) : bool :=
  match e with EvDeepcopy _ _ => true | _ => false end.

Definition is_compile_event (e : event) : bool :=
  match e with EvCompile _ _ _ => true | _ => false end.

(** The backend a partition goes to, and the name it ends up with. *)
Definition brand_of (supported : gset Z) (p : Z) : CompilerType :=
  if bool_decide (p ∈ supported) then THUNDER else TORCH_INDUCTOR.

Definition branded_name (c : CompilerType) (p : Z) : string :=
  match c with
  | THUNDER => thunder_name p
  | TORCH_INDUCTOR => inductor_name p
  end.

Definition renamed (new_name : string) (n : Node) : Node :=
  mkNode (nid n) new_name (op n) (attr_name new_name).

(** The object a partition's module is after the primary backend's
    conversion, or as it was for the secondary backend. *)
Definition compiled_body (c : CompilerType) (body : list Node) : list Node :=
  match c with
  | THUNDER => convert_node <$> body
  | TORCH_INDUCTOR => body
  end.

(** What one iteration on the call node of partition [p] appends to the log. *)
Definition submod_events (c : CompilerType) (gm : loc) (i : nat) (p : Z)
    (sub fn : loc) : list event :=
  (match c with
   | THUNDER => [EvCheckpointConverter gm sub]
   | TORCH_INDUCTOR => []
   end ++ [EvCompile c sub fn; EvUpdate gm i (branded_name c p) fn])%list.

(** [imap] with the index of the first element made explicit. *)
Fixpoint imap_from {A B} (f : nat -> A -> B) (off : nat) (l : list A) : list B :=
  match l with
  | [] => []
  | x :: r => f off x :: imap_from f (S off) r
  end.

(** ** The store during assembly, partition by partition

    [parts] are the partition identifiers in the order of their call nodes,
    [body p] holds the nodes of partition [p], [ins] and [outs] are the glue
    nodes around the calls.  After [split_module] the store holds the
    partition modules at locations [0 .. m-1] and the parent at [m]; a
    duplicate, when there is one, follows at [m+1 .. 2m+1]. *)
Section Layout.
Local Open Scope list_scope.
Local Open Scope nat_scope.

Variable supported : gset Z.
Variable flag : bool.
Variable body : Z -> list Node.
Variable parts : list Z.
Variable ins outs : list Node.
Variable fresh : nat.

Definition origin_loc : loc := length parts.
Definition base_loc : loc := if flag then S (length parts) else 0.
Definition split_loc : loc := base_loc + length parts.
Definition sub_loc (i : nat) : loc := base_loc + i.
Definition fn_loc (i : nat) : loc := split_loc + 1 + i.

Definition split_mod (i : nat) (p : Z) : string * loc := (submod_name p, i).
Definition old_mod (i : nat) (p : Z) : string * loc := (submod_name p, sub_loc i).
Definition new_mod (i : nat) (p : Z) : string * loc :=
  (branded_name (brand_of supported p) p, fn_loc i).
Definition final_call (i : nat) (p : Z) : Node :=
  renamed (branded_name (brand_of supported p) p) (submod_call fresh i p).
Definition part_events (i : nat) (p : Z) : list event :=
  submod_events (brand_of supported p) split_loc (length ins + i) p (sub_loc i) (fn_loc i).
Definition part_fns (i : nat) (p : Z) : list loc :=
  match brand_of supported p with THUNDER => [fn_loc i] | TORCH_INDUCTOR => [] end.

(** The store [split_module] leaves behind. *)
Definition split_heap : list obj :=
  ((λ p, GraphModule (body p) []) <$> parts)
  ++ [GraphModule (ins ++ imap_from (submod_call fresh) 0 parts ++ outs)
        (imap_from split_mod 0 parts)].

Definition pre_trace : list event :=
  if flag then [EvDeepcopy origin_loc split_loc] else [].

(** The state in which the loop starts: [split_module]'s store, duplicated
    or not. *)
Definition loop_start : asm_state :=
  if flag
  then mkAsm (split_heap
              ++ ((λ p, GraphModule (body p) []) <$> parts)
              ++ [GraphModule (ins ++ imap_from (submod_call fresh) 0 parts ++ outs)
                    (imap_from old_mod 0 parts)])
         [] ∅ pre_trace
  else mkAsm split_heap [] ∅ [].

(** The state once the call nodes of [done] have been assembled and those
    of [todo] are still to come. *)
Definition asm_inv (done todo : list Z) (st : asm_state) : Prop :=
  length (heap st) = split_loc + 1 + length done
  ∧ (∀ l, l < base_loc → heap st !! l = split_heap !! l)
  ∧ heap st !! split_loc
    = Some (GraphModule
              (ins ++ imap_from final_call 0 done
               ++ imap_from (submod_call fresh) (length done) todo ++ outs)
              (imap_from old_mod (length done) todo ++ imap_from new_mod 0 done))
  ∧ (∀ i p, (done ++ todo) !! i = Some p →
       heap st !! sub_loc i
       = Some (GraphModule
                 (if bool_decide (i < length done)
                  then compiled_body (brand_of supported p) (body p)
                  else body p) []))
  ∧ (∀ i p, done !! i = Some p →
       heap st !! fn_loc i = Some (CompiledCallable (brand_of supported p) (sub_loc i)))
  ∧ compiled_fns_acc st = concat (imap_from part_fns 0 done)
  ∧ (∀ k, submodule_to_compiled_fns st !! k
          = (λ p, mkCompiledFunction (fn_loc k) (brand_of supported p)) <$> done !! k)
  ∧ trace st = pre_trace ++ concat (imap_from part_events 0 done).
End Layout.

(** The glue nodes of a traced graph must not look like partition calls: no
    placeholder, get_attr or output node has a name that starts with
    [submod]. *)
Definition inputs_ok (gm_nodes : list Node) : Prop :=
  forallb (λ n, is_call_op (op n) || negb (String.prefix "submod" (name n))) gm_nodes
  = true.

(** Two readings of the specification that the pass is compared with below:
    the converter only runs in a pass that detected a supported tagged
    checkpoint, and the intermediate split graph of the result still is what
    [split_module] returned. *)
Definition converter_gated
    (is_node_supported_by_thunder : Node -> bool * option SplitReason)
    (ctx : gset nat) (gm_nodes : list Node) : Prop :=
  ∀ cb pids,
    partition_pass is_node_supported_by_thunder ctx gm_nodes = (cb, inr pids) →
    has_thunder_tracable_checkpoint cb = false →
    ∀ g sub,
      EvCheckpointConverter g sub
        ∉ trace (fst (_splitter is_node_supported_by_thunder ctx gm_nodes)).

Definition intermediate_split_preserved
    (is_node_supported_by_thunder : Node -> bool * option SplitReason)
    (ctx : gset nat) (gm_nodes : list Node) : Prop :=
  ∀ cb pids st split info,
    partition_pass is_node_supported_by_thunder ctx gm_nodes = (cb, inr pids) →
    _splitter is_node_supported_by_thunder ctx gm_nodes = (st, inr (split, info)) →
    heap st !! original_split_graph_module info
    = heap (fst (split_module gm_nodes pids asm_init))
        !! original_split_graph_module info.

(** The boolean form of [traceable_checkpoint]. *)
Definition sets_checkpoint_flag
    (is_node_supported_by_thunder : Node -> bool * option SplitReason)
    (ctx : gset nat) (node : Node) : bool :=
  if decide (nid node ∈ ctx) then false
  else is_checkpoint_target (target node) && fst (is_node_supported_by_thunder node).

(** ** A small traced graph used to exercise the statements

    [sin], [cos] and the tagged checkpoint are supported, [sinc] is not. *)
Definition demo_supported (node : Node) : bool * option SplitReason :=
  match target node with
  | torch_callable "sinc" =>
      (false, Some (mkSplitReason MISSING_OP_SUPPORT "sinc has no thunder equivalent"))
  | _ => (true, None)
  end.

Definition demo_graph : list Node :=
  [ mkNode 0 "l_x_" placeholder (attr_name "l_x_");
    mkNode 1 "sin" call_function (torch_callable "sin");
    mkNode 2 "cos" call_function (torch_callable "cos");
    mkNode 3 "sinc" call_function (torch_callable "sinc");
    mkNode 4 "ckpt" call_function tag_activation_checkpoint;
    mkNode 5 "output" output (attr_name "output") ].

(** One supported operation and nothing else. *)
Definition sin_graph : list Node :=
  [ mkNode 0 "l_x_" placeholder (attr_name "l_x_");
    mkNode 1 "sin" call_function (torch_callable "sin");
    mkNode 2 "output" output (attr_name "output") ].

(** ** Readings of a finished pass *)

(** The reasons one node contributes to [split_reasons], lines 113-123. *)
Definition node_reasons
    (is_node_supported_by_thunder : Node -> bool * option SplitReason)
    (ctx : gset nat) (node : Node) : list SplitReason :=
  if decide (nid node ∈ ctx)
  then [mkSplitReason UNSUPPORTED_NODE (unsupported_ctx_info node)]
  else match snd (is_node_supported_by_thunder node) with
       | Some r => [r]
       | None => []
       end.

(** In the closure state, partitions alternate between the two backends:
    counting back from the current one, every second partition has the
    current support value. *)
Definition alternating (st : cb_state) : Prop :=
  ∀ p b, prev_value st = Some b → 1 ≤ p → p ≤ partition_cnt st →
    (p ∈ supported_partitions st
     ↔ (if Z.even (partition_cnt st - p) then b else negb b) = true).

(** The compiler calls of a log, and the callables the primary backend
    returned. *)
Definition compile_call (e : event) : option (CompilerType * loc * loc) :=
  match e with
  | EvCompile c sub fn => Some (c, sub, fn)
  | _ => None
  end.

Definition thunder_callable (e : event) : option loc :=
  match e with
  | EvCompile THUNDER _ fn => Some fn
  | _ => None
  end.

Definition is_recompile_event (e : event) : bool :=
  match e with EvRecompile _ => true | _ => false end.

(** A graph whose first input looks like a partition call. *)
Definition submodule_graph : list Node :=
  [ mkNode 0 "submodule" placeholder (attr_name "submodule");
    mkNode 1 "sin" call_function (torch_callable "sin");
    mkNode 2 "output" output (attr_name "output") ].

(** A graph without any call-type node. *)
Definition identity_graph : list Node :=
  [ mkNode 0 "l_x_" placeholder (attr_name "l_x_");
    mkNode 1 "output" output (attr_name "output") ].

(** * thunder/core/baseutils.py *)
Module baseutils.

(** ** Python objects, as far as the functions of this file inspect them *)

(** The classes the file names, and those of the objects it is applied to.
    [c_Sequence] and [c_Collection] are the abstract base classes of
    [collections.abc]. *)
Inductive pyclass : Type :=
  | c_NoneType | c_bool | c_int | c_float | c_complex | c_str
  | c_tuple | c_list | c_dict | c_set | c_Tensor | c_ndarray
  | c_Sequence | c_Collection.

#[global] Instance pyclass_eq_dec : EqDecision pyclass.
Proof. solve_decision. Defined.

(** Objects whose contents no function of this file looks at. *)
Inductive opaque : Type :=
  | o_float | o_complex | o_dict | o_set | o_Tensor | o_ndarray.

#[warnings="-register-all"] Inductive value : Type :=
  | VNone
  | VBool (b : bool)
  | VInt (z : Z)
  | VStr (s : string)
  | VTuple (items : list value)
  | VList (items : list value)
  | VObject (o : opaque).

Definition type_of (x : value) : pyclass :=
  match x with
  | VNone => c_NoneType
  | VBool _ => c_bool
  | VInt _ => c_int
  | VStr _ => c_str
  | VTuple _ => c_tuple
  | VList _ => c_list
  | VObject o_float => c_float
  | VObject o_complex => c_complex
  | VObject o_dict => c_dict
  | VObject o_set => c_set
  | VObject o_Tensor => c_Tensor
  | VObject o_ndarray => c_ndarray
  end.

(** [issubclass(a, b)]: [bool] derives from [int]; [str], [tuple] and [list]
    are sequences; every sequence is a collection, and so is every class with
    [__len__], [__iter__] and [__contains__], tensors and arrays included. *)
Definition issubclass (a b : pyclass) : bool :=
  bool_decide (a = b)
  || match b with
     | c_int => bool_decide (a = c_bool)
     | c_Sequence => bool_decide (a ∈ [c_str; c_tuple; c_list])
     | c_Collection =>
         bool_decide (a ∈ [c_str; c_tuple; c_list; c_dict; c_set; c_Tensor; c_ndarray;
                           c_Sequence])
     | _ => false
     end.

(** The second argument of [isinstance]: a class or a tuple of classes. *)
Inductive classinfo : Type :=
  | Class (c : pyclass)
  | Classes (cs : list pyclass).

Definition isinstance (x : value) (types : classinfo) : bool :=
  match types with
  | Class c => issubclass (type_of x) c
  | Classes cs => existsb (issubclass (type_of x)) cs
  end.

(** The value of an instance of [int], [True] and [False] being 1 and 0. *)
Definition as_int (x : value) : option Z :=
  match x with
  | VBool b => Some (Z.b2z b)
  | VInt z => Some z
  | _ => None
  end.

(** [x >= 0] for an instance of [int]; the file evaluates it on nothing
    else. *)
Definition ge_zero (x : value) : bool :=
  match as_int x with
  | Some z => 0 <=? z
  | None => false
  end.

(** A valid dimension length: an instance of [int] that is not negative. *)
Definition is_length (x : value) : Prop := ∃ z, as_int x = Some z ∧ 0 ≤ z.

(** ** Errors *)
Inductive error : Type :=
  | RuntimeError (msg : string)
  | ValueError (msg : string)
  | AttributeError (msg : string).

Definition result (A : Type) : Type := error + A.

#[global] Instance result_ret : MRet result := λ A x, inr x.
#[global] Instance result_bind : MBind result := λ A B f m,
  match m with
  | inl e => inl e
  | inr x => f x
  end.

(** Lines 89-95; [s] is only called when the check fails. *)
Definition check (cond : bool) (s : unit -> string)
    (exception_type : string -> error) : result unit :=
  if negb cond then inl (exception_type (s tt)) else mret tt.

Section Checks.
(** [str] on objects, classes and class tuples, as interpolated into the
    messages. *)
Variable str_value : value -> string.
Variable str_class : pyclass -> string.
Variable str_classinfo : classinfo -> string.

(** Lines 98-103. *)
Definition check_type (x : value) (types : classinfo) : result unit :=
  check (isinstance x types)
    (λ _, str_value x ++ " had an unexpected type " ++ str_class (type_of x)
          ++ ". Supported types are " ++ str_classinfo types)
    ValueError.

(** Lines 143-147. *)
Definition check_valid_length (length : value) : result unit :=
  check_type length (Class c_int);;
  check (ge_zero length) (λ _, "Found invalid length " ++ str_value length ++ "!")
    RuntimeError.

Fixpoint for_each (body : value -> result unit) (l : list value) : result unit :=
  match l with
  | [] => mret tt
  | x :: r => body x;; for_each body r
  end.

(** What [for l in shape] iterates over. *)
Definition iter (x : value) : list value :=
  match x with
  | VTuple items | VList items => items
  | _ => []
  end.

(** Lines 150-156. *)
Definition check_valid_shape (shape : value) : result unit :=
  check_type shape (Classes [c_tuple; c_list]);;
  for_each check_valid_length (iter shape).
End Checks.

(** Lines 121-122. *)
Definition is_collection (x : value) : bool :=
  isinstance x (Class c_Collection)
  && negb (isinstance x (Classes [c_str; c_Tensor; c_ndarray])).

(** Lines 125-131. *)
Definition sequencify (x : value) : value :=
  if negb (isinstance x (Class c_Sequence)) || isinstance x (Class c_str)
  then VTuple [x]
  else x.

(** ** Printing code *)

(** [s * n] on a string; a count below one gives the empty string. *)
Fixpoint str_mul (s : string) (n : nat) : string :=
  match n with
  | O => ""
  | S n' => s ++ str_mul s n'
  end.

Definition tab : string := "  ".

(** Lines 166-167. *)
Definition indent (level : Z) : string := str_mul tab (Z.to_nat level).

(** A type object: one of the five keys of [_type_to_str_map], or any other
    type, of which [print_type] only uses what [str] returns. *)
Inductive type_obj : Type :=
  | ty_bool | ty_int | ty_float | ty_complex | ty_str
  | ty_other (str_typ : string).

#[global] Instance type_obj_eq_dec : EqDecision type_obj.
Proof. solve_decision. Defined.

(** Lines 170-176. *)
Definition _type_to_str_map : list (type_obj * string) :=
  [ (ty_bool, "bool"); (ty_int, "int"); (ty_float, "float");
    (ty_complex, "complex"); (ty_str, "str") ].

Fixpoint dict_get (typ : type_obj) (d : list (type_obj * string)) : option string :=
  match d with
  | [] => None
  | (k, v) :: r => if decide (typ = k) then Some v else dict_get typ r
  end.


(** *** The regular expression of line 195

    Matching is by backtracking, every quantifier greedy: a continuation
    receives the text a piece consumed and the text that is left. *)
Definition is_newline (c : ascii) : bool := Ascii.eqb c "010"%char.
Definition quote : ascii := "'"%char.

(** [.+]: one character that is not a newline, then as many more as the rest
    of the pattern allows. *)
Fixpoint dot_plus {A} (k : string -> string -> option A) (s : string) : option A :=
  match s with
  | EmptyString => None
  | String c r =>
      if is_newline c then None
      else match dot_plus (λ m, k (String c m)) r with
           | Some x => Some x
           | None => k (String c EmptyString) r
           end
  end.

(** [.*]. *)
Fixpoint dot_star {A} (k : string -> option A) (s : string) : option A :=
  match s with
  | EmptyString => k EmptyString
  | String c r =>
      if is_newline c then k s
      else match dot_star k r with
           | Some x => Some x
           | None => k s
           end
  end.

(** A literal character. *)
Definition lit {A} (c : ascii) (k : string -> option A) (s : string) : option A :=
  match s with
  | String c' r => if Ascii.eqb c' c then k r else None
  | EmptyString => None
  end.

(** [.+'(.+)'.*] anchored at the start of [s]; the result is group 1. *)
Definition match_here (s : string) : option string :=
  dot_plus (λ _, lit quote (dot_plus (λ group1, lit quote (dot_star (λ _, Some group1))))) s.

(** [re.search]: the first position, from the left, at which the pattern
    matches. *)
Fixpoint search (s : string) : option string :=
  match match_here s with
  | Some g => Some g
  | None =>
      match s with
      | EmptyString => None
      | String _ r => search r
      end
  end.

(** [str(typ)]. *)
Definition str_of (typ : type_obj) : string :=
  match typ with
  | ty_bool => "<class 'bool'>"
  | ty_int => "<class 'int'>"
  | ty_float => "<class 'float'>"
  | ty_complex => "<class 'complex'>"
  | ty_str => "<class 'str'>"
  | ty_other s => s
  end.

(** Lines 185-196; [result.group] on [None] is an [AttributeError]. *)
Definition print_type (typ : type_obj) : result string :=
  match dict_get typ _type_to_str_map with
  | Some s => mret s
  | None =>
      match search (str_of typ) with
      | Some group1 => mret ("'" ++ group1 ++ "'")
      | None => inl (AttributeError "'NoneType' object has no attribute 'group'")
      end
  end.

(** ** The [Singleton] metaclass, lines 40-46

    A class is a number; [_instances] is the dictionary all classes with this
    metaclass share; [objects] lists the instances constructed so far, an
    instance being its position in the list. *)
Module Singleton.
Record state : Type := mkState {
  _instances : gmap nat nat;
  objects : list (nat * list value);
}.

Definition empty : state := mkState ∅ [].

Section Call.
(** Whether constructing an instance of [cls] from [args] raises, that is,
    whether the class's own constructor does. *)
Variable init : nat -> list value -> option error.

(** The call of line 45 to the [__call__] of the ordinary metaclass, with
    the positional and keyword arguments in [args]. *)
Definition type_call (cls : nat) (args : list value) (st : state)
  : state * result nat :=
  match init cls args with
  | Some e => (st, inl e)
  | None => (mkState (_instances st) (objects st ++ [(cls, args)])%list,
             inr (length (objects st)))
  end.

Definition __call__ (cls : nat) (args : list value) (st : state)
  : state * result nat :=
  match _instances st !! cls with
  | None =>
      match type_call cls args st with
      | (st', inl e) => (st', inl e)
      | (st', inr o) => (mkState (<[cls := o]> (_instances st')) (objects st'), inr o)
      end
  | Some o => (st, inr o)
  end.

(** A sequence of calls whose results, exceptions included, are dropped. *)
Fixpoint calls (l : list (nat * list value)) (st : state) : state :=
  match l with
  | [] => st
  | (cls, args) :: r => calls r (fst (__call__ cls args st))
  end.
End Call.
End Singleton.
End baseutils.

Local Open Scope list_scope.
Local Open Scope Z_scope.

(** ** Properties of [callback] *)

Section CallbackFacts.
Variable pred : Node -> bool * option SplitReason.
Variable ctx : gset nat.

Local Abbreviation sup := (is_thunder_supported pred ctx).

Lemma classify_fields st node :
  fst (classify pred ctx st node) = sup node
  ∧ prev_value (snd (classify pred ctx st node)) = prev_value st
  ∧ partition_cnt (snd (classify pred ctx st node)) = partition_cnt st
  ∧ supported_partitions (snd (classify pred ctx st node)) = supported_partitions st.
Proof.
  unfold classify, is_thunder_supported.
  destruct (decide (nid node ∈ ctx)); [done|].
  destruct (pred node) as [b [r|]]; simpl;
    destruct (is_checkpoint_target (target node) && b); done.
Qed.

Lemma callback_call st node :
  is_call_op (op node) = true →
  callback pred ctx st node =
    let st1 := snd (classify pred ctx st node) in
    if prev_eq (prev_value st) (sup node) then (st1, inr (partition_cnt st))
    else
      let st2 := flip_region (sup node) st1 in
      let st3 := if sup node then add_supported st2 else st2 in
      (st3, inr (partition_cnt st + 1)).
Proof.
  intros Hc. unfold callback. rewrite Hc. simpl.
  destruct (classify_fields st node) as (Hb & Hp & Hn & _).
  destruct (classify pred ctx st node) as [b st1]. simpl in *. subst b.
  rewrite Hp. destruct (prev_eq (prev_value st) (sup node)); [by rewrite Hn|].
  destruct (sup node); simpl; by rewrite Hn.
Qed.

Lemma callback_structural st node :
  is_call_op (op node) = false →
  callback pred ctx st node = (st, inl (AssertionError (assert_msg node))).
Proof. intros Hc. unfold callback. by rewrite Hc. Qed.

Lemma callback_inv st node st' pid :
  cb_inv st → callback pred ctx st node = (st', inr pid) →
  cb_inv st'
  ∧ pid = partition_cnt st'
  ∧ prev_value st' = Some (sup node)
  ∧ partition_cnt st ≤ partition_cnt st'
  ∧ supported_partitions st ⊆ supported_partitions st'
  ∧ (∀ p, p ∈ supported_partitions st' → p ≤ partition_cnt st →
       p ∈ supported_partitions st).
Proof.
  intros (H0 & Hs & Hn & Hp) Hcb.
  destruct (is_call_op (op node)) eqn:Hc;
    [|rewrite callback_structural in Hcb; [done|done]].
  rewrite callback_call in Hcb by done. simpl in Hcb.
  destruct (classify_fields st node) as (_ & Hp1 & Hn1 & Hs1).
  destruct (prev_eq (prev_value st) (sup node)) eqn:He.
  - injection Hcb as <- <-.
    unfold cb_inv. rewrite Hp1, Hn1, Hs1.
    unfold prev_eq in He. destruct (prev_value st) as [b|] eqn:Hpv; [|done].
    apply Bool.eqb_prop in He. subst b.
    split_and!; try done; lia.
  - assert (Hfresh : partition_cnt st + 1 ∉ supported_partitions st).
    { intros Hin. apply Hs in Hin. lia. }
    destruct (sup node) eqn:Hsup; injection Hcb as <- <-;
      unfold cb_inv; simpl; rewrite ?Hn1, ?Hs1.
    + split_and!; try lia; try done.
      * intros p [->%elem_of_singleton| Hin%Hs]%elem_of_union; lia.
      * intros b [= <-]. split; [lia|]. split; [done|].
        intros _. apply elem_of_union_l. by apply elem_of_singleton.
      * apply union_subseteq_r.
      * intros p [->%elem_of_singleton|]%elem_of_union; [lia|done].
    + split_and!; try lia; try done.
      * intros p Hin%Hs. lia.
      * intros b [= <-]. split; [lia|]. split; [done|]. done.
Qed.

Lemma callback_fields st node :
  is_call_op (op node) = true →
  ∃ st', callback pred ctx st node = (st', inr (partition_cnt st'))
    ∧ (prev_eq (prev_value st) (sup node) = true →
         prev_value st' = prev_value st
         ∧ partition_cnt st' = partition_cnt st
         ∧ supported_partitions st' = supported_partitions st)
    ∧ (prev_eq (prev_value st) (sup node) = false →
         prev_value st' = Some (sup node)
         ∧ partition_cnt st' = partition_cnt st + 1
         ∧ supported_partitions st' =
             if sup node then {[ partition_cnt st + 1 ]} ∪ supported_partitions st
             else supported_partitions st).
Proof.
  intros Hc. rewrite callback_call by done. simpl.
  destruct (classify_fields st node) as (_ & Hp1 & Hn1 & Hs1).
  destruct (prev_eq (prev_value st) (sup node)) eqn:He.
  - exists (snd (classify pred ctx st node)).
    split; [by rewrite Hn1|]. split; [intros _; by rewrite Hp1, Hn1, Hs1|done].
  - destruct (sup node).
    + exists (add_supported (flip_region true (snd (classify pred ctx st node)))).
      simpl. rewrite Hn1, Hs1. done.
    + exists (flip_region false (snd (classify pred ctx st node))).
      simpl. rewrite Hn1, Hs1. done.
Qed.

Lemma prev_eq_true p b : prev_eq p b = true ↔ p = Some b.
Proof.
  destruct p as [b'|]; simpl; [|done].
  split; [intros ->%Bool.eqb_prop; done|intros [= ->]; apply Bool.eqb_reflx].
Qed.

(** [callback] run over call-type nodes computes [assign_ids] and keeps the
    invariant; an id is in [supported_partitions] exactly when the node that
    received it is supported. *)
Lemma run_callback_spec nodes : ∀ st,
  Forall (λ n, is_call_op (op n) = true) nodes → cb_inv st →
  ∃ st',
    run_callback pred ctx st nodes
      = (st', inr (assign_ids (prev_value st) (partition_cnt st) (sup <$> nodes)))
    ∧ cb_inv st'
    ∧ partition_cnt st ≤ partition_cnt st'
    ∧ supported_partitions st ⊆ supported_partitions st'
    ∧ (∀ p, p ∈ supported_partitions st' → p ≤ partition_cnt st →
         p ∈ supported_partitions st)
    ∧ (∀ i node p, nodes !! i = Some node →
         assign_ids (prev_value st) (partition_cnt st) (sup <$> nodes) !! i = Some p →
         (p ∈ supported_partitions st' ↔ sup node = true)).
Proof.
  induction nodes as [|node rest IH]; intros st Hall Hinv.
  - exists st. simpl. split_and!; try done.
  - apply Forall_cons in Hall as [Hc Hrest].
    destruct (callback_fields st node Hc) as (st1 & Hcb & Hsame & Hflip).
    destruct (callback_inv st node st1 _ Hinv Hcb)
      as (Hinv1 & _ & Hprev1 & Hle1 & Hsub1 & Hold1).
    destruct (IH st1 Hrest Hinv1) as (st' & Hrun & Hinv' & Hle' & Hsub' & Hold' & Hmem).
    exists st'.
    assert (Hids : assign_ids (prev_value st) (partition_cnt st) (sup node :: (sup <$> rest))
               = partition_cnt st1
                 :: assign_ids (prev_value st1) (partition_cnt st1) (sup <$> rest)).
    { simpl. destruct (prev_eq (prev_value st) (sup node)) eqn:He.
      - destruct (Hsame eq_refl) as (-> & -> & _). done.
      - destruct (Hflip eq_refl) as (-> & -> & _). done. }
    rewrite fmap_cons, Hids. cbn [run_callback]. rewrite Hcb, Hrun.
    split_and!; try done.
    + lia.
    + by etrans.
    + intros p Hp Hle. apply Hold1; [|done]. apply Hold'; [done|lia].
    + intros [|i] n p Hn Hp; simpl in Hn, Hp.
      * injection Hn as <-. injection Hp as <-.
        destruct Hinv1 as (_ & _ & _ & Hb).
        destruct (Hb _ Hprev1) as [_ Hiff]. rewrite <- Hiff.
        split; [intros Hin; by apply Hold'; [|lia]|intros Hin; by apply Hsub'].
      * by apply (Hmem i).
Qed.

Lemma cb_init_inv : cb_inv cb_init.
Proof.
  unfold cb_inv, cb_init. simpl. split_and!; done.
Qed.

Lemma call_nodes_Forall gm : Forall (λ n, is_call_op (op n) = true) (call_nodes gm).
Proof. apply Forall_forall. intros n Hn. by apply list_elem_of_filter in Hn as [? _]. Qed.

Lemma partition_pass_spec gm :
  ∃ st,
    partition_pass pred ctx gm
      = (st, inr (assign_ids None 0 (sup <$> call_nodes gm)))
    ∧ cb_inv st
    ∧ (∀ i node p, call_nodes gm !! i = Some node →
         assign_ids None 0 (sup <$> call_nodes gm) !! i = Some p →
         (p ∈ supported_partitions st ↔ sup node = true)).
Proof.
  destruct (run_callback_spec (call_nodes gm) cb_init (call_nodes_Forall gm) cb_init_inv)
    as (st & Hrun & Hinv & _ & _ & _ & Hmem).
  exists st. done.
Qed.
End CallbackFacts.

(** ** Properties of [assign_ids] *)

Lemma assign_ids_length bs : ∀ prev cnt, length (assign_ids prev cnt bs) = length bs.
Proof.
  induction bs as [|b r IH]; intros prev cnt; simpl; [done|].
  destruct (prev_eq prev b); simpl; by rewrite IH.
Qed.

Lemma assign_ids_ge bs : ∀ prev cnt i p,
  assign_ids prev cnt bs !! i = Some p →
  cnt ≤ p ∧ (prev = None → cnt + 1 ≤ p).
Proof.
  induction bs as [|b r IH]; intros prev cnt i p Hp; simpl in Hp; [by destruct i|].
  destruct (prev_eq prev b) eqn:He.
  - apply prev_eq_true in He. subst prev. destruct i as [|i]; simpl in Hp.
    + injection Hp as <-. split; [lia|done].
    + apply IH in Hp as [? _]. split; [done|done].
  - destruct i as [|i]; simpl in Hp.
    + injection Hp as <-. split; lia.
    + apply IH in Hp as [? _]. split; lia.
Qed.

Lemma assign_ids_sorted bs : ∀ prev cnt i j p q,
  (i ≤ j)%nat →
  assign_ids prev cnt bs !! i = Some p →
  assign_ids prev cnt bs !! j = Some q →
  p ≤ q.
Proof.
  induction bs as [|b r IH]; intros prev cnt i j p q Hij Hp Hq; simpl in Hp, Hq;
    [by destruct i|].
  destruct (prev_eq prev b); (destruct i as [|i]; destruct j as [|j]; simpl in Hp, Hq;
    [injection Hp as <-; injection Hq as <-; lia
    |injection Hp as <-; apply assign_ids_ge in Hq as [? _]; lia
    |lia
    |eapply IH; [|done|done]; lia]).
Qed.

Lemma assign_ids_step bs : ∀ prev cnt i b b' p q,
  bs !! i = Some b → bs !! S i = Some b' →
  assign_ids prev cnt bs !! i = Some p →
  assign_ids prev cnt bs !! S i = Some q →
  q = p + (if Bool.eqb b b' then 0 else 1).
Proof.
  induction bs as [|b0 r IH]; intros prev cnt i b b' p q Hb Hb' Hp Hq; [by destruct i|].
  destruct i as [|i].
  - simpl in Hb. injection Hb as ->. destruct r as [|b1 r]; [done|].
    simpl in Hb'. injection Hb' as ->.
    simpl in Hp, Hq.
    destruct (prev_eq prev b) eqn:He.
    + apply prev_eq_true in He. subst prev. simpl in Hp, Hq. injection Hp as <-.
      simpl in Hq. destruct (Bool.eqb b b'); simpl in Hq; injection Hq as <-; lia.
    + simpl in Hp, Hq. injection Hp as <-.
      destruct (Bool.eqb b b'); simpl in Hq; injection Hq as <-; lia.
  - simpl in Hb, Hb', Hp, Hq.
    destruct (prev_eq prev b0); simpl in Hp, Hq; by eapply IH.
Qed.

(** [append] is never unfolded by [simpl] once stdpp is loaded; these two
    equations stand in for it. *)
Lemma append_String x (a b : string) : (String x a ++ b = String x (a ++ b))%string.
Proof. reflexivity. Qed.

Lemma append_Empty (b : string) : ("" ++ b = b)%string.
Proof. reflexivity. Qed.

Lemma string_app_assoc (a b c : string) : ((a ++ b) ++ c = a ++ (b ++ c))%string.
Proof.
  induction a as [|x a IH]; [done|]. rewrite !append_String. by rewrite IH.
Qed.

(** ** The partition assignment: identifiers, contiguity, overrides *)

Section PartitionFacts.
Variable pred : Node -> bool * option SplitReason.
Variable ctx : gset nat.

Local Abbreviation sup := (is_thunder_supported pred ctx).

Lemma run_supported_assigned nodes : ∀ st st' pids,
  Forall (λ n, is_call_op (op n) = true) nodes →
  run_callback pred ctx st nodes = (st', inr pids) →
  ∀ p, p ∈ supported_partitions st' → p ∈ supported_partitions st ∨ p ∈ pids.
Proof.
  induction nodes as [|node rest IH]; intros st st' pids Hall Hrun p Hp.
  - simpl in Hrun. injection Hrun as <- <-. by left.
  - apply Forall_cons in Hall as [Hc Hrest].
    destruct (callback_fields pred ctx st node Hc) as (st1 & Hcb & Hsame & Hflip).
    cbn [run_callback] in Hrun. rewrite Hcb in Hrun.
    destruct (run_callback pred ctx st1 rest) as [st2 [e|pids']] eqn:Hr; [done|].
    injection Hrun as <- <-.
    destruct (IH st1 st2 pids' Hrest Hr p Hp) as [Hin|Hin];
      [|right; by apply list_elem_of_further].
    destruct (prev_eq (prev_value st) (sup node)) eqn:He.
    + destruct (Hsame eq_refl) as (_ & _ & Heq). rewrite Heq in Hin. by left.
    + destruct (Hflip eq_refl) as (_ & Hcnt & Heq). rewrite Heq in Hin.
      destruct (sup node); [|by left].
      apply elem_of_union in Hin as [->%elem_of_singleton|Hin]; [|by left].
      right. rewrite Hcnt. apply list_elem_of_here.
Qed.

(** C1.  On every graph the pass returns one identifier per call-type node.
    When the four call-type nodes are classified supported, supported,
    unsupported, supported they receive 1, 1, 2, 3 and the supported set is
    {1, 3}.  In general no identifier is below 1, the first call-type node
    receives 1, and each identifier is its predecessor's plus one exactly when
    the two classifications differ. *)
Theorem partition_ids_follow_flips gm :
  ∃ st pids,
    partition_pass pred ctx gm = (st, inr pids)
    ∧ (∀ a b c d,
         call_nodes gm = [a; b; c; d] →
         sup a = true → sup b = true → sup c = false → sup d = true →
         pids = [1; 1; 2; 3] ∧ supported_partitions st = {[ 1; 3 ]})
    ∧ length pids = length (call_nodes gm)
    ∧ (∀ i p, pids !! i = Some p → 1 ≤ p)
    ∧ (∀ p, pids !! 0%nat = Some p → p = 1)
    ∧ (∀ i n m p q,
         call_nodes gm !! i = Some n → call_nodes gm !! S i = Some m →
         pids !! i = Some p → pids !! S i = Some q →
         q = p + (if Bool.eqb (sup n) (sup m) then 0 else 1)).
Proof.
  destruct (partition_pass_spec pred ctx gm) as (st & Hrun & Hinv & Hmem).
  exists st, (assign_ids None 0 (sup <$> call_nodes gm)).
  split; [done|]. split_and!.
  - intros a b c d Hcalls Ha Hb Hc Hd.
    assert (Hids : assign_ids None 0 (sup <$> call_nodes gm) = [1; 1; 2; 3]).
    { rewrite Hcalls. simpl. rewrite Ha, Hb, Hc, Hd. reflexivity. }
    split; [done|].
    rewrite Hids, Hcalls in Hmem.
    apply set_eq. intros p. split.
    + intros Hp.
      unfold partition_pass in Hrun.
      destruct (run_supported_assigned _ _ _ _ (call_nodes_Forall gm) Hrun p Hp)
        as [Hin|Hin]; [by apply not_elem_of_empty in Hin|].
      rewrite Hids in Hin.
      assert (p ≠ 2).
      { intros ->. apply (Hmem 2%nat c 2 eq_refl eq_refl) in Hp. congruence. }
      apply elem_of_union.
      repeat (apply elem_of_cons in Hin as [-> | Hin]);
        [left; by apply elem_of_singleton|left; by apply elem_of_singleton
        |done|right; by apply elem_of_singleton|by apply elem_of_nil in Hin].
    + intros [->%elem_of_singleton | ->%elem_of_singleton]%elem_of_union.
      * by apply (Hmem 0%nat a 1 eq_refl eq_refl).
      * by apply (Hmem 3%nat d 3 eq_refl eq_refl).
  - by rewrite assign_ids_length, length_fmap.
  - intros i p Hp. apply assign_ids_ge in Hp as [_ Hp]. specialize (Hp eq_refl). lia.
  - intros p Hp. destruct (sup <$> call_nodes gm) as [|b r]; [done|].
    simpl in Hp. by injection Hp as <-.
  - intros i n m p q Hn Hm Hp Hq.
    eapply assign_ids_step; [| |exact Hp|exact Hq].
    + by rewrite list_lookup_fmap, Hn.
    + by rewrite list_lookup_fmap, Hm.
Qed.

(** C2.  The identifiers the pass assigns never decrease along program
    order, so two call-type nodes with the same identifier have only nodes
    with that identifier between them. *)
Theorem partition_ids_contiguous gm :
  ∃ st pids,
    partition_pass pred ctx gm = (st, inr pids)
    ∧ length pids = length (call_nodes gm)
    ∧ (∀ i j p q, (i ≤ j)%nat → pids !! i = Some p → pids !! j = Some q → p ≤ q)
    ∧ (∀ i j k p, (i ≤ j)%nat → (j ≤ k)%nat →
         pids !! i = Some p → pids !! k = Some p → pids !! j = Some p).
Proof.
  destruct (partition_pass_spec pred ctx gm) as (st & Hrun & _).
  exists st, (assign_ids None 0 (sup <$> call_nodes gm)).
  split; [done|]. split_and!.
  - by rewrite assign_ids_length, length_fmap.
  - intros i j p q. apply assign_ids_sorted.
  - intros i j k p Hij Hjk Hi Hk.
    destruct (assign_ids None 0 (sup <$> call_nodes gm) !! j) as [q|] eqn:Hj.
    + f_equal.
      pose proof (assign_ids_sorted _ _ _ _ _ _ _ Hij Hi Hj).
      pose proof (assign_ids_sorted _ _ _ _ _ _ _ Hjk Hj Hk). lia.
    + apply lookup_ge_None in Hj. apply lookup_lt_Some in Hk. lia.
Qed.

Lemma classify_effects st node :
  split_reasons (snd (classify pred ctx st node))
    = (split_reasons st
       ++ (if decide (nid node ∈ ctx)
           then [mkSplitReason UNSUPPORTED_NODE (unsupported_ctx_info node)]
           else match snd (pred node) with Some r => [r] | None => [] end))%list
  ∧ has_thunder_tracable_checkpoint (snd (classify pred ctx st node))
    = has_thunder_tracable_checkpoint st || sets_checkpoint_flag pred ctx node.
Proof.
  unfold classify, sets_checkpoint_flag.
  destruct (decide (nid node ∈ ctx)); simpl.
  - by rewrite orb_false_r.
  - destruct (pred node) as [b [r|]]; simpl;
      destruct (is_checkpoint_target (target node) && b); simpl;
      rewrite ?app_nil_r, ?orb_true_r, ?orb_false_r; done.
Qed.

Lemma callback_effects st node st' pid :
  callback pred ctx st node = (st', inr pid) →
  is_call_op (op node) = true
  ∧ split_reasons st' = split_reasons (snd (classify pred ctx st node))
  ∧ has_thunder_tracable_checkpoint st'
    = has_thunder_tracable_checkpoint (snd (classify pred ctx st node)).
Proof.
  intros Hcb.
  destruct (is_call_op (op node)) eqn:Hc;
    [|rewrite callback_structural in Hcb; done].
  rewrite callback_call in Hcb by done. simpl in Hcb.
  destruct (prev_eq (prev_value st) (sup node)); [by injection Hcb as <- _|].
  destruct (sup node); by injection Hcb as <- _.
Qed.

Lemma run_callback_effects nodes : ∀ st st' pids,
  run_callback pred ctx st nodes = (st', inr pids) →
  (∀ r, r ∈ split_reasons st → r ∈ split_reasons st')
  ∧ (∀ i node, nodes !! i = Some node → nid node ∈ ctx →
       mkSplitReason UNSUPPORTED_NODE (unsupported_ctx_info node) ∈ split_reasons st')
  ∧ has_thunder_tracable_checkpoint st'
    = has_thunder_tracable_checkpoint st
      || existsb (sets_checkpoint_flag pred ctx) nodes.
Proof.
  induction nodes as [|node rest IH]; intros st st' pids Hrun.
  - simpl in Hrun. injection Hrun as <- _. simpl. rewrite orb_false_r.
    split_and!; done.
  - cbn [run_callback] in Hrun.
    destruct (callback pred ctx st node) as [st1 [e|pid]] eqn:Hcb; [done|].
    destruct (run_callback pred ctx st1 rest) as [st2 [e|pids']] eqn:Hr; [done|].
    injection Hrun as <- _.
    destruct (callback_effects _ _ _ _ Hcb) as (_ & Hreas & Hflag).
    destruct (classify_effects st node) as (Hreas1 & Hflag1).
    destruct (IH _ _ _ Hr) as (Hmono & Hctx & Hfl).
    split_and!.
    + intros r Hin. apply Hmono. rewrite Hreas, Hreas1.
      apply elem_of_app. by left.
    + intros [|i] n Hn Hin; simpl in Hn.
      * injection Hn as <-. apply Hmono. rewrite Hreas, Hreas1.
        apply elem_of_app. right. rewrite decide_True by done.
        apply list_elem_of_here.
      * by apply (Hctx i).
    + rewrite Hfl, Hflag, Hflag1. simpl. by rewrite orb_assoc.
Qed.

(** C3.  A call-type node in the unsupported-context set is classified
    unsupported whatever the support predicate says: [callback] appends an
    [UNSUPPORTED_NODE] reason whose text names the unsupported context, its
    outcome is the same for every support predicate, and the checkpoint flag
    stays as it was.  Over a whole pass the node's partition is outside the
    supported set and the reason is in the returned list. *)
Theorem context_override_unsupported :
  (∀ st node,
     is_call_op (op node) = true → nid node ∈ ctx →
     ∃ st' pid,
       callback pred ctx st node = (st', inr pid)
       ∧ sup node = false
       ∧ split_reasons st'
         = (split_reasons st
            ++ [mkSplitReason UNSUPPORTED_NODE (unsupported_ctx_info node)])%list
       ∧ (∃ pre post,
            unsupported_ctx_info node = (pre ++ "unsupported context" ++ post)%string)
       ∧ has_thunder_tracable_checkpoint st' = has_thunder_tracable_checkpoint st
       ∧ (∀ pred', callback pred' ctx st node = (st', inr pid)))
  ∧ (∀ gm i node,
       call_nodes gm !! i = Some node → nid node ∈ ctx →
       ∃ st pids pid,
         partition_pass pred ctx gm = (st, inr pids)
         ∧ pids !! i = Some pid
         ∧ (pid ∉ supported_partitions st)
         ∧ mkSplitReason UNSUPPORTED_NODE (unsupported_ctx_info node)
           ∈ split_reasons st).
Proof.
  split.
  - intros st node Hc Hin.
    destruct (callback_fields pred ctx st node Hc) as (st' & Hcb & _).
    exists st', (partition_cnt st'). split; [done|].
    destruct (callback_effects _ _ _ _ Hcb) as (_ & Hreas & Hflag).
    destruct (classify_effects st node) as (Hreas1 & Hflag1).
    rewrite decide_True in Hreas1 by done.
    unfold sets_checkpoint_flag in Hflag1. rewrite decide_True in Hflag1 by done.
    split_and!.
    + unfold is_thunder_supported. by rewrite decide_True.
    + by rewrite Hreas, Hreas1.
    + exists ("node with name: " ++ name node ++ " and target: "
              ++ target_str (target node)
              ++ " is not supported probably because it is in ")%string, "."%string.
      unfold unsupported_ctx_info. rewrite !string_app_assoc. done.
    + by rewrite Hflag, Hflag1, orb_false_r.
    + intros pred'. rewrite <- Hcb. unfold callback, classify.
      by rewrite !decide_True.
  - intros gm i node Hi Hin.
    destruct (partition_pass_spec pred ctx gm) as (st & Hrun & _ & Hmem).
    assert (is_Some (assign_ids None 0 (sup <$> call_nodes gm) !! i)) as [pid Hpid].
    { apply lookup_lt_is_Some. rewrite assign_ids_length, length_fmap.
      by eapply lookup_lt_Some. }
    exists st, (assign_ids None 0 (sup <$> call_nodes gm)), pid.
    split_and!; [done|done| |].
    + intros Hp. apply (Hmem i node pid Hi Hpid) in Hp.
      unfold is_thunder_supported in Hp. by rewrite decide_True in Hp.
    + unfold partition_pass in Hrun.
      destruct (run_callback_effects _ _ _ _ Hrun) as (_ & Hctx & _).
      by apply (Hctx i).
Qed.

(** C9.  A placeholder, get_attr or output node makes [callback] fail its
    assertion at once: the closure state is returned as it was and neither the
    support predicate nor the context set matters.  On a call-type node the
    assertion passes, so a run over call-type nodes only, and every pass,
    returns identifiers. *)
Theorem structural_node_asserts :
  (∀ st node,
     op node = placeholder ∨ op node = get_attr ∨ op node = output →
     callback pred ctx st node = (st, inl (AssertionError (assert_msg node)))
     ∧ ∀ pred' ctx',
         callback pred' ctx' st node = (st, inl (AssertionError (assert_msg node))))
  ∧ (∀ st node,
       is_call_op (op node) = true →
       ∃ st' pid, callback pred ctx st node = (st', inr pid))
  ∧ (∀ st nodes,
       Forall (λ n, is_call_op (op n) = true) nodes →
       ∃ st' pids,
         run_callback pred ctx st nodes = (st', inr pids)
         ∧ length pids = length nodes)
  ∧ (∀ gm, ∃ st pids, partition_pass pred ctx gm = (st, inr pids)).
Proof.
  split_and!.
  - intros st node Hop.
    assert (is_call_op (op node) = false) as Hc by (by destruct Hop as [->|[->| ->]]).
    split; [by apply callback_structural|].
    intros pred' ctx'. by apply callback_structural.
  - intros st node Hc.
    destruct (callback_fields pred ctx st node Hc) as (st' & Hcb & _). eauto.
  - intros st nodes. revert st.
    induction nodes as [|node rest IH]; intros st Hall.
    + by exists st, [].
    + apply Forall_cons in Hall as [Hc Hrest].
      destruct (callback_fields pred ctx st node Hc) as (st1 & Hcb & _).
      destruct (IH st1 Hrest) as (st' & pids & Hrun & Hlen).
      exists st', (partition_cnt st1 :: pids).
      cbn [run_callback]. rewrite Hcb, Hrun. simpl. by rewrite Hlen.
  - intros gm. destruct (partition_pass_spec pred ctx gm) as (st & Hrun & _). eauto.
Qed.

Lemma sets_checkpoint_flag_spec node :
  sets_checkpoint_flag pred ctx node = true ↔ traceable_checkpoint pred ctx node.
Proof.
  unfold sets_checkpoint_flag, traceable_checkpoint.
  destruct (decide (nid node ∈ ctx)) as [Hin|Hin].
  - split; [done|]. by intros (? & _).
  - rewrite andb_true_iff. split.
    + intros [Ht Hs]. split_and!; [done| |done]. by destruct (target node).
    + intros (_ & -> & Hs). done.
Qed.

Lemma partition_pass_flag gm st pids :
  partition_pass pred ctx gm = (st, inr pids) →
  has_thunder_tracable_checkpoint st = true
  ↔ ∃ node, node ∈ call_nodes gm ∧ traceable_checkpoint pred ctx node.
Proof.
  intros Hrun. unfold partition_pass in Hrun.
  destruct (run_callback_effects _ _ _ _ Hrun) as (_ & _ & ->). simpl.
  rewrite existsb_exists. split.
  - intros (node & Hin & Hset). exists node.
    split; [by apply list_elem_of_In|by apply sets_checkpoint_flag_spec].
  - intros (node & Hin & Hset). exists node.
    split; [by apply list_elem_of_In|by apply sets_checkpoint_flag_spec].
Qed.
End PartitionFacts.

(** ** Strings: partition names survive the renaming round trip *)

Lemma all_chars_impl (P Q : ascii -> bool) s :
  (∀ c, P c = true → Q c = true) → all_chars P s = true → all_chars Q s = true.
Proof.
  intros HPQ. induction s as [|c r IH]; simpl; [done|].
  rewrite !andb_true_iff. intros [Hc Hr]. split; [by apply HPQ|by apply IH].
Qed.

Lemma all_chars_app P s t :
  all_chars P s = true → all_chars P t = true → all_chars P (s ++ t)%string = true.
Proof.
  intros Hs Ht. induction s as [|c r IH]; [done|].
  rewrite append_String. simpl in *. apply andb_true_iff in Hs as [Hc Hr].
  rewrite Hc. simpl. by apply IH.
Qed.

Lemma string_of_uint_digits d : all_chars is_digit (NilEmpty.string_of_uint d) = true.
Proof. induction d; simpl; try done. Qed.

Lemma string_of_uint_nonempty d : d ≠ Decimal.Nil → NilEmpty.string_of_uint d ≠ "".
Proof. by destruct d. Qed.

Lemma pos_to_uint_nonnil p : Pos.to_uint p ≠ Decimal.Nil.
Proof.
  intros H. pose proof (DecimalPos.Unsigned.of_to p) as Hof.
  rewrite H in Hof. done.
Qed.

(** A scan that never meets the first character of [old] changes nothing. *)
Lemma replace_from_absent c0 old' new s :
  all_chars (λ c, negb (Ascii.eqb c c0)) s = true →
  replace_from (String c0 old') new 0 s = s.
Proof.
  induction s as [|c r IH]; [done|].
  simpl. intros [Hc Hr]%andb_true_iff.
  destruct (ascii_dec c0 c) as [->|Hne].
  - by rewrite Ascii.eqb_refl in Hc.
  - by rewrite IH.
Qed.

Lemma rstrip_no_space s : all_chars (λ c, negb (is_space c)) s = true → rstrip s = s.
Proof.
  induction s as [|c r IH]; [done|].
  simpl. intros [Hc Hr]%andb_true_iff. rewrite IH by done.
  destruct r; [|done]. apply negb_true_iff in Hc. by rewrite Hc.
Qed.

Lemma strip_underscores_digits s : ∀ b,
  all_chars is_digit s = true → s ≠ "" → strip_underscores b s = Some s.
Proof.
  induction s as [|c r IH]; intros b Hs Hne; [done|].
  simpl in *. apply andb_true_iff in Hs as [Hc Hr]. rewrite Hc.
  destruct r as [|c' r']; [done|]. by rewrite IH.
Qed.

Lemma digits_value_of_uint d :
  d ≠ Decimal.Nil →
  digits_value (NilEmpty.string_of_uint d) = Some (Z.of_N (N.of_uint d)).
Proof.
  intros Hd. unfold digits_value.
  rewrite strip_underscores_digits
    by (by apply string_of_uint_digits || by apply string_of_uint_nonempty).
  simpl. by rewrite NilEmpty.usu.
Qed.

Lemma digit_not_space c : is_digit c = true → is_space c = false.
Proof.
  unfold is_digit, is_space. intros [H1 H2]%andb_true_iff.
  apply Nat.leb_le in H1. apply orb_false_iff. split; apply andb_false_iff.
  - right. apply Nat.leb_gt. lia.
  - right. apply Nat.leb_gt. lia.
Qed.

Lemma digit_not_sign c :
  is_digit c = true → Ascii.eqb c "-" = false ∧ Ascii.eqb c "+" = false.
Proof.
  intros Hd. split.
  - destruct (Ascii.eqb_spec c "-") as [->|]; [done|done].
  - destruct (Ascii.eqb_spec c "+") as [->|]; [done|done].
Qed.

Lemma int_char_not_space c : is_int_char c = true → negb (is_space c) = true.
Proof.
  unfold is_int_char. intros [Hd|He]%orb_true_iff.
  - by rewrite digit_not_space.
  - by apply Ascii.eqb_eq in He as ->.
Qed.

Lemma int_char_not_letter c x :
  is_int_char c = true → is_int_char x = false → negb (Ascii.eqb c x) = true.
Proof.
  intros Hc Hx. apply negb_true_iff.
  destruct (Ascii.eqb_spec c x) as [->|]; [congruence|done].
Qed.

Lemma py_str_pos p : py_str (Z.pos p) = NilEmpty.string_of_uint (Pos.to_uint p).
Proof.
  unfold py_str. simpl. pose proof (pos_to_uint_nonnil p).
  by destruct (Pos.to_uint p).
Qed.

Lemma py_str_neg p :
  py_str (Z.neg p) = String "-" (NilEmpty.string_of_uint (Pos.to_uint p)).
Proof.
  unfold py_str. simpl. pose proof (pos_to_uint_nonnil p).
  by destruct (Pos.to_uint p).
Qed.

Lemma py_str_chars z : all_chars is_int_char (py_str z) = true.
Proof.
  assert (Hd : ∀ d, all_chars is_int_char (NilEmpty.string_of_uint d) = true).
  { intros d. eapply all_chars_impl; [|apply string_of_uint_digits].
    intros c Hc. unfold is_int_char. by rewrite Hc. }
  destruct z as [|p|p].
  - done.
  - rewrite py_str_pos. apply Hd.
  - rewrite py_str_neg. simpl. apply Hd.
Qed.

(** [int(str(z)) == z]. *)
Lemma py_int_py_str z : py_int (py_str z) = Some z.
Proof.
  destruct z as [|p|p].
  - done.
  - rewrite py_str_pos. pose proof (pos_to_uint_nonnil p) as Hn.
    pose proof (string_of_uint_digits (Pos.to_uint p)) as Hd.
    pose proof (string_of_uint_nonempty _ Hn) as Hne.
    pose proof (digits_value_of_uint _ Hn) as Hv.
    destruct (NilEmpty.string_of_uint (Pos.to_uint p)) as [|c r] eqn:Hs; [done|].
    unfold py_int.
    assert (Hsp : all_chars (λ c, negb (is_space c)) (String c r) = true).
    { eapply all_chars_impl; [|exact Hd]. intros x Hx. by rewrite digit_not_space. }
    assert (Hl : lstrip (String c r) = String c r).
    { simpl in Hsp |- *. apply andb_true_iff in Hsp as [Hc _].
      apply negb_true_iff in Hc. by rewrite Hc. }
    rewrite Hl, rstrip_no_space by done.
    simpl in Hd. apply andb_true_iff in Hd as [Hc _].
    destruct (digit_not_sign c Hc) as [-> ->].
    rewrite Hv. f_equal.
    change (Z.of_N (N.of_uint (Pos.to_uint p))) with (Z.of_int (Z.to_int (Z.pos p))).
    apply DecimalZ.of_to.
  - rewrite py_str_neg. pose proof (pos_to_uint_nonnil p) as Hn.
    pose proof (string_of_uint_digits (Pos.to_uint p)) as Hd.
    pose proof (digits_value_of_uint _ Hn) as Hv.
    unfold py_int.
    assert (Hsp : all_chars (λ c, negb (is_space c))
                    (String "-" (NilEmpty.string_of_uint (Pos.to_uint p))) = true).
    { simpl. eapply all_chars_impl; [|exact Hd]. intros x Hx. by rewrite digit_not_space. }
    change (lstrip (String "-" ?s)) with (String "-" s).
    rewrite rstrip_no_space by done.
    change (Ascii.eqb "-" "-") with true. cbv iota.
    rewrite Hv. simpl. f_equal.
    change (- Z.of_N (N.of_uint (Pos.to_uint p))) with (Z.of_int (Z.to_int (Z.neg p))).
    apply DecimalZ.of_to.
Qed.

Lemma py_str_inj p q : py_str p = py_str q → p = q.
Proof.
  intros H. pose proof (py_int_py_str p) as Hp. rewrite H, py_int_py_str in Hp.
  by injection Hp.
Qed.

Lemma submod_name_eq p :
  submod_name p
  = String "s" (String "u" (String "b" (String "m" (String "o" (String "d"
      (String "_" (py_str p))))))).
Proof. reflexivity. Qed.

Lemma thunder_name_eq p :
  thunder_name p
  = String "t" (String "h" (String "u" (String "n" (String "d" (String "e"
      (String "r" (String "_" (py_str p)))))))).
Proof. reflexivity. Qed.

Lemma inductor_name_eq p :
  inductor_name p
  = String "i" (String "n" (String "d" (String "u" (String "c" (String "t"
      (String "o" (String "r" (String "_" (py_str p))))))))).
Proof. reflexivity. Qed.

Lemma py_str_without c p :
  is_int_char c = false → all_chars (λ x, negb (Ascii.eqb x c)) (py_str p) = true.
Proof.
  intros Hc. eapply all_chars_impl; [|apply py_str_chars].
  intros x Hx. by apply int_char_not_letter.
Qed.

Lemma submod_prefix p : String.prefix "submod" (submod_name p) = true.
Proof. reflexivity. Qed.

Lemma prefix_nil s : String.prefix "" s = true.
Proof. by destruct s. Qed.

(** [name.replace("submod_", "")] leaves the decimal identifier. *)
Lemma strip_submod p : replace "submod_" "" (submod_name p) = py_str p.
Proof.
  rewrite submod_name_eq. unfold replace. simpl. rewrite ?prefix_nil.
  by apply replace_from_absent, py_str_without.
Qed.

Lemma submod_to_thunder p : replace "submod" "thunder" (submod_name p) = thunder_name p.
Proof.
  rewrite submod_name_eq, thunder_name_eq. unfold replace. simpl. rewrite ?prefix_nil.
  rewrite !append_String, append_Empty. do 8 f_equal.
  by apply replace_from_absent, py_str_without.
Qed.

Lemma submod_to_inductor p :
  replace "submod" "inductor" (submod_name p) = inductor_name p.
Proof.
  rewrite submod_name_eq, inductor_name_eq. unfold replace. simpl. rewrite ?prefix_nil.
  rewrite !append_String, append_Empty. do 9 f_equal.
  by apply replace_from_absent, py_str_without.
Qed.

Lemma thunder_to_submod p : replace "thunder" "submod" (thunder_name p) = submod_name p.
Proof.
  rewrite submod_name_eq, thunder_name_eq. unfold replace. simpl. rewrite ?prefix_nil.
  rewrite !append_String, append_Empty. do 7 f_equal.
  by apply replace_from_absent, py_str_without.
Qed.

Lemma inductor_to_submod p :
  replace "inductor" "submod" (inductor_name p) = submod_name p.
Proof.
  rewrite submod_name_eq, inductor_name_eq. unfold replace. simpl. rewrite ?prefix_nil.
  rewrite !append_String, append_Empty. do 7 f_equal.
  by apply replace_from_absent, py_str_without.
Qed.

Lemma submod_name_inj p q : submod_name p = submod_name q → p = q.
Proof. rewrite !submod_name_eq. intros [= H]. by apply py_str_inj. Qed.

Lemma thunder_name_inj p q : thunder_name p = thunder_name q → p = q.
Proof. rewrite !thunder_name_eq. intros [= H]. by apply py_str_inj. Qed.

Lemma inductor_name_inj p q : inductor_name p = inductor_name q → p = q.
Proof. rewrite !inductor_name_eq. intros [= H]. by apply py_str_inj. Qed.

(** ** The monad: sequencing and what each operation appends to the log *)

Lemma bind_ok {A B} (m : M A) (f : A -> M B) st st' x :
  m st = (st', inr x) → (x ← m; f x) st = f x st'.
Proof. intros H. unfold mbind, M_bind. by rewrite H. Qed.

Lemma bind_err {A B} (m : M A) (f : A -> M B) st st' e :
  m st = (st', inl e) → (x ← m; f x) st = (st', inl e).
Proof. intros H. unfold mbind, M_bind. by rewrite H. Qed.

Section Emits.
Variable P : event -> Prop.

Lemma emits_silent {A} (m : M A) :
  (∀ st st' r, m st = (st', r) → trace st' = trace st) → emits_only P m.
Proof.
  intros H st st' r Hm. exists []. rewrite app_nil_r. split; [by eapply H|done].
Qed.

Lemma emits_ret {A} (x : A) : emits_only P (mret x).
Proof. apply emits_silent. intros st st' r [= <- _]. done. Qed.

Lemma emits_raise {A} e : emits_only P (@raise A e).
Proof. apply emits_silent. intros st st' r [= <- _]. done. Qed.

Lemma emits_bind {A B} (m : M A) (f : A -> M B) :
  emits_only P m → (∀ x, emits_only P (f x)) → emits_only P (x ← m; f x).
Proof.
  intros Hm Hf st st' r Hrun. unfold mbind, M_bind in Hrun.
  destruct (m st) as [st1 [e|x]] eqn:Hst.
  - injection Hrun as <- _. by eapply Hm.
  - destruct (Hm _ _ _ Hst) as (evs1 & Ht1 & HP1).
    destruct (Hf x _ _ _ Hrun) as (evs2 & Ht2 & HP2).
    exists (evs1 ++ evs2). rewrite Ht2, Ht1, app_assoc.
    split; [done|by apply Forall_app].
Qed.

Lemma emits_emit e : P e → emits_only P (emit e).
Proof.
  intros He st st' r [= <- _]. exists [e]. split; [done|]. by apply Forall_singleton.
Qed.

Lemma emits_get_heap : emits_only P get_heap.
Proof. apply emits_silent. intros st st' r [= <- _]. done. Qed.

Lemma emits_put_heap h : emits_only P (put_heap h).
Proof. apply emits_silent. intros st st' r [= <- _]. done. Qed.

Lemma emits_of_option {A} e (o : option A) : emits_only P (of_option e o).
Proof. destruct o; [apply emits_ret|apply emits_raise]. Qed.

Lemma emits_record_compiled k cf : emits_only P (record_compiled k cf).
Proof. apply emits_silent. intros st st' r [= <- _]. done. Qed.

Lemma emits_append_thunder_fn fn : emits_only P (append_thunder_fn fn).
Proof. apply emits_silent. intros st st' r [= <- _]. done. Qed.

Lemma emits_subgraph_info gm rs o s : emits_only P (subgraph_info gm rs o s).
Proof. apply emits_silent. intros st st' r [= <- _]. done. Qed.

Lemma emits_graph_nodes gm : emits_only P (graph_nodes gm).
Proof.
  unfold graph_nodes. apply emits_bind; [apply emits_get_heap|]. intros h.
  destruct (h !! gm) as [[ns mods|c src]|]; [apply emits_ret|apply emits_raise..].
Qed.

Lemma emits_getattr gm a : emits_only P (getattr gm a).
Proof.
  unfold getattr. apply emits_bind; [apply emits_get_heap|]. intros h.
  destruct (h !! gm) as [[ns mods|c src]|];
    [apply emits_of_option|apply emits_raise..].
Qed.

Lemma emits_get_node gm i : emits_only P (get_node gm i).
Proof.
  unfold get_node. apply emits_bind; [apply emits_graph_nodes|]. intros ns.
  apply emits_of_option.
Qed.

Lemma emits_checkpoint_converter gm sub :
  P (EvCheckpointConverter gm sub) → emits_only P (checkpoint_converter gm sub).
Proof.
  intros HP. unfold checkpoint_converter.
  apply emits_bind; [by apply emits_emit|]. intros _.
  apply emits_bind; [apply emits_get_heap|]. intros h.
  destruct (h !! sub) as [[ns mods|c src]|];
    [apply emits_put_heap|apply emits_raise..].
Qed.

Lemma emits_compile_with c sub :
  (∀ fn, P (EvCompile c sub fn)) → emits_only P (compile_with c sub).
Proof.
  intros HP. unfold compile_with.
  apply emits_bind; [apply emits_get_heap|]. intros h.
  apply emits_bind; [apply emits_put_heap|]. intros _.
  apply emits_bind; [by apply emits_emit|]. intros _. apply emits_ret.
Qed.

Lemma emits_update gm i nm fn :
  P (EvUpdate gm i nm fn) → emits_only P (update_node_and_submodule gm i nm fn).
Proof.
  intros HP. unfold update_node_and_submodule.
  apply emits_bind; [by apply emits_emit|]. intros _.
  apply emits_bind; [apply emits_get_heap|]. intros h.
  destruct (h !! gm) as [[ns mods|c src]|]; [|apply emits_raise..].
  destruct (ns !! i); [apply emits_put_heap|apply emits_raise].
Qed.

Lemma emits_for_each {A} (body : A -> M unit) l :
  (∀ x, emits_only P (body x)) → emits_only P (for_each body l).
Proof.
  intros Hb. induction l as [|x l IH]; simpl; [apply emits_ret|].
  apply emits_bind; [apply Hb|]. intros _. apply IH.
Qed.
End Emits.

Lemma emits_is_thunder_supported_partition P S node :
  emits_only P (is_thunder_supported_partition S node).
Proof.
  unfold is_thunder_supported_partition.
  destruct (String.prefix "submod" (name node)); [|apply emits_ret].
  apply emits_bind; [apply emits_of_option|]. intros n. apply emits_ret.
Qed.

(** The loop body calls the converter, a compiler and the renaming helper,
    never [copy.deepcopy]. *)
Lemma emits_assemble_node S flag origin split i :
  emits_only (λ e, is_deepcopy_event e = false) (assemble_node S flag origin split i).
Proof.
  unfold assemble_node.
  apply emits_bind; [apply emits_get_node|]. intros node.
  apply emits_bind; [apply emits_is_thunder_supported_partition|]. intros [|].
  - apply emits_bind; [apply emits_getattr|]. intros sub.
    apply emits_bind; [by apply emits_checkpoint_converter|]. intros _.
    apply emits_bind; [by apply emits_compile_with|]. intros fn.
    apply emits_bind; [by apply emits_update|]. intros _.
    apply emits_bind; [apply emits_append_thunder_fn|]. intros _.
    destruct flag; [|apply emits_record_compiled].
    apply emits_bind; [apply emits_get_node|]. intros node'.
    apply emits_bind; [apply emits_getattr|]. intros key.
    apply emits_record_compiled.
  - destruct (String.prefix "submod" (name node)); [|apply emits_ret].
    apply emits_bind; [apply emits_getattr|]. intros sub.
    apply emits_bind; [by apply emits_compile_with|]. intros fn.
    apply emits_bind; [by apply emits_update|]. intros _.
    destruct flag; [|apply emits_record_compiled].
    apply emits_bind; [apply emits_get_node|]. intros node'.
    apply emits_bind; [apply emits_getattr|]. intros key.
    apply emits_record_compiled.
Qed.

(** ** The collaborators, one equation each *)

#[local] Arguments replace : simpl never.
#[local] Arguments submod_name : simpl never.
#[local] Arguments thunder_name : simpl never.
#[local] Arguments inductor_name : simpl never.
#[local] Arguments py_str : simpl never.
#[local] Arguments String.eqb : simpl never.

Lemma graph_nodes_eq st gm ns mods :
  heap st !! gm = Some (GraphModule ns mods) → graph_nodes gm st = (st, inr ns).
Proof. intros H. unfold graph_nodes, mbind, M_bind, get_heap. by rewrite H. Qed.

Lemma get_node_eq st gm ns mods i n :
  heap st !! gm = Some (GraphModule ns mods) → ns !! i = Some n →
  get_node gm i st = (st, inr n).
Proof.
  intros H Hn. unfold get_node. erewrite bind_ok by by eapply graph_nodes_eq.
  by rewrite Hn.
Qed.

Lemma getattr_eq st gm ns mods a l :
  heap st !! gm = Some (GraphModule ns mods) → assoc_get a mods = Some l →
  getattr gm a st = (st, inr l).
Proof.
  intros H Ha. unfold getattr, mbind, M_bind, get_heap. rewrite H. by rewrite Ha.
Qed.

Lemma checkpoint_converter_eq st gm sub ns mods :
  heap st !! sub = Some (GraphModule ns mods) →
  checkpoint_converter gm sub st
  = (mkAsm (<[sub := GraphModule (convert_node <$> ns) mods]> (heap st))
       (compiled_fns_acc st) (submodule_to_compiled_fns st)
       (trace st ++ [EvCheckpointConverter gm sub]), inr tt).
Proof.
  intros H. unfold checkpoint_converter, mbind, M_bind, emit, get_heap, put_heap.
  simpl. by rewrite H.
Qed.

Lemma compile_with_eq st c sub :
  compile_with c sub st
  = (mkAsm (heap st ++ [CompiledCallable c sub])
       (compiled_fns_acc st) (submodule_to_compiled_fns st)
       (trace st ++ [EvCompile c sub (length (heap st))]), inr (length (heap st))).
Proof. reflexivity. Qed.

Lemma update_node_and_submodule_eq st gm i nm fn ns mods node :
  heap st !! gm = Some (GraphModule ns mods) → ns !! i = Some node →
  update_node_and_submodule gm i nm fn st
  = (mkAsm (<[gm := GraphModule (<[i := renamed nm node]> ns)
                      (assoc_set nm fn (assoc_del (name node) mods))]> (heap st))
       (compiled_fns_acc st) (submodule_to_compiled_fns st)
       (trace st ++ [EvUpdate gm i nm fn]), inr tt).
Proof.
  intros H Hn.
  unfold update_node_and_submodule, mbind, M_bind, emit, get_heap, put_heap.
  simpl. rewrite H, Hn. done.
Qed.

Lemma is_thunder_supported_partition_submod S p node st :
  name node = submod_name p →
  is_thunder_supported_partition S node st = (st, inr (bool_decide (p ∈ S))).
Proof.
  intros Hn. unfold is_thunder_supported_partition.
  rewrite Hn, submod_prefix, strip_submod, py_int_py_str. done.
Qed.

(** A node whose name does not start with [submod] is glue: the loop body
    leaves everything as it is. *)
Lemma assemble_node_glue S flag origin gm i st ns mods node :
  heap st !! gm = Some (GraphModule ns mods) → ns !! i = Some node →
  String.prefix "submod" (name node) = false →
  assemble_node S flag origin gm i st = (st, inr tt).
Proof.
  intros Hgm Hn Hpre. unfold assemble_node.
  erewrite bind_ok by by eapply get_node_eq.
  unfold is_thunder_supported_partition. rewrite Hpre.
  erewrite bind_ok by reflexivity. done.
Qed.

(** The loop body on the call node of partition [p]. *)
Lemma assemble_node_submod S (flag : bool) origin gm i st ns mods node p sub body smods
    key :
  heap st !! gm = Some (GraphModule ns mods) → ns !! i = Some node →
  name node = submod_name p →
  assoc_get (submod_name p) mods = Some sub →
  heap st !! sub = Some (GraphModule body smods) →
  sub ≠ gm →
  (if flag
   then ∃ ons omods,
          heap st !! origin = Some (GraphModule ons omods)
          ∧ assoc_get (submod_name p) omods = Some key
          ∧ origin ≠ gm ∧ origin ≠ sub
   else key = sub) →
  let c := brand_of S p in
  let fn := length (heap st) in
  assemble_node S flag origin gm i st
  = (mkAsm
       (<[gm := GraphModule (<[i := renamed (branded_name c p) node]> ns)
                  (assoc_set (branded_name c p) fn (assoc_del (submod_name p) mods))]>
          (<[sub := GraphModule (compiled_body c body) smods]> (heap st)
           ++ [CompiledCallable c sub]))
       (compiled_fns_acc st ++ match c with THUNDER => [fn] | TORCH_INDUCTOR => [] end)
       (<[key := mkCompiledFunction fn c]> (submodule_to_compiled_fns st))
       (trace st ++ submod_events c gm i p sub fn),
     inr tt).
Proof.
  intros Hgm Hn Hname Hsub Hbody Hne Hkey c fn.
  pose proof (lookup_lt_Some _ _ _ Hgm) as Hgml.
  pose proof (lookup_lt_Some _ _ _ Hbody) as Hsubl.
  pose proof (lookup_lt_Some _ _ _ Hn) as Hil.
  unfold assemble_node.
  erewrite bind_ok by by eapply get_node_eq.
  erewrite bind_ok by by apply is_thunder_supported_partition_submod.
  subst c. unfold brand_of. destruct (bool_decide (p ∈ S)) eqn:HS.
  - (* the primary backend *)
    rewrite Hname. erewrite bind_ok by by eapply getattr_eq.
    erewrite bind_ok by by eapply checkpoint_converter_eq.
    unfold thunder_jit. erewrite bind_ok by apply compile_with_eq.
    simpl heap. rewrite length_insert. fold fn.
    rewrite submod_to_thunder.
    set (h2 := <[sub:=GraphModule (convert_node <$> body) smods]> (heap st)
               ++ [CompiledCallable THUNDER sub]).
    assert (Hgm2 : h2 !! gm = Some (GraphModule ns mods)).
    { subst h2. rewrite lookup_app_l by (by rewrite length_insert).
      by rewrite list_lookup_insert_ne. }
    erewrite bind_ok by (eapply update_node_and_submodule_eq; [exact Hgm2|exact Hn]).
    rewrite Hname. erewrite bind_ok by reflexivity. simpl.
    assert (Hlen2 : (gm < length h2)%nat) by (by eapply lookup_lt_Some).
    destruct flag.
    + destruct Hkey as (ons & omods & Ho & Hk & Hog & Hos).
      erewrite bind_ok.
      2:{ eapply get_node_eq; simpl.
          - by apply list_lookup_insert_eq.
          - by apply list_lookup_insert_eq. }
      cbn [name renamed]. rewrite thunder_to_submod.
      erewrite bind_ok.
      2:{ eapply getattr_eq; simpl; [|exact Hk].
          rewrite list_lookup_insert_ne by done. subst h2.
          rewrite lookup_app_l
            by (rewrite length_insert; by eapply lookup_lt_Some).
          by rewrite list_lookup_insert_ne. }
      unfold record_compiled, submod_events. simpl. by rewrite <- !app_assoc.
    + subst key. unfold record_compiled, submod_events. simpl. by rewrite <- !app_assoc.
  - (* the secondary backend *)
    rewrite Hname, submod_prefix.
    erewrite bind_ok by by eapply getattr_eq.
    unfold torch_inductor. erewrite bind_ok by apply compile_with_eq.
    fold fn. rewrite submod_to_inductor.
    assert (Hid : <[sub:=GraphModule body smods]> (heap st) = heap st)
      by (by apply list_insert_id).
    simpl compiled_body. rewrite Hid.
    set (h2 := heap st ++ [CompiledCallable TORCH_INDUCTOR sub]).
    assert (Hgm2 : h2 !! gm = Some (GraphModule ns mods)).
    { subst h2. by rewrite lookup_app_l. }
    erewrite bind_ok by (eapply update_node_and_submodule_eq; [exact Hgm2|exact Hn]).
    rewrite Hname. simpl.
    assert (Hlen2 : (gm < length h2)%nat) by (by eapply lookup_lt_Some).
    destruct flag.
    + destruct Hkey as (ons & omods & Ho & Hk & Hog & Hos).
      erewrite bind_ok.
      2:{ eapply get_node_eq; simpl.
          - by apply list_lookup_insert_eq.
          - by apply list_lookup_insert_eq. }
      cbn [name renamed]. rewrite inductor_to_submod.
      erewrite bind_ok.
      2:{ eapply getattr_eq; simpl; [|exact Hk].
          rewrite list_lookup_insert_ne by done. subst h2.
          rewrite lookup_app_l by (by eapply lookup_lt_Some). done. }
      unfold record_compiled, submod_events. simpl. by rewrite app_nil_r, <- ?app_assoc.
    + subst key. unfold record_compiled, submod_events. simpl.
      by rewrite app_nil_r, <- ?app_assoc.
Qed.

(** ** Lists with explicit offsets, and module dictionaries *)

Lemma imap_from_length {A B} (f : nat -> A -> B) l : ∀ off,
  length (imap_from f off l) = length l.
Proof. induction l as [|x l IH]; intros off; simpl; [done|by rewrite IH]. Qed.

Lemma imap_from_app {A B} (f : nat -> A -> B) l1 l2 : ∀ off,
  imap_from f off (l1 ++ l2)
  = imap_from f off l1 ++ imap_from f (off + length l1)%nat l2.
Proof.
  induction l1 as [|x l1 IH]; intros off; simpl.
  - by rewrite Nat.add_0_r.
  - rewrite IH. do 3 f_equal. lia.
Qed.

Lemma imap_from_lookup {A B} (f : nat -> A -> B) l : ∀ off i,
  imap_from f off l !! i = f (off + i)%nat <$> l !! i.
Proof.
  induction l as [|x l IH]; intros off [|i]; simpl; try done.
  - by rewrite Nat.add_0_r.
  - rewrite IH. do 2 f_equal. lia.
Qed.

Lemma imap_imap_from {A B} (f : nat -> A -> B) l : imap f l = imap_from f 0 l.
Proof.
  assert (H : ∀ off, imap (λ i, f (off + i)%nat) l = imap_from f off l).
  { induction l as [|x l IH]; intros off; simpl; [done|].
    rewrite Nat.add_0_r. f_equal. rewrite <- IH. apply imap_ext.
    intros i y _. simpl. f_equal. lia. }
  apply (H 0%nat).
Qed.

Lemma insert_middle {A} (l1 l2 : list A) x y :
  <[length l1 := y]> (l1 ++ x :: l2) = l1 ++ y :: l2.
Proof.
  rewrite insert_app_r_alt by lia. by rewrite Nat.sub_diag.
Qed.

Lemma assoc_get_app k l1 l2 :
  assoc_get k (l1 ++ l2)
  = match assoc_get k l1 with Some v => Some v | None => assoc_get k l2 end.
Proof.
  induction l1 as [|[k' v] l1 IH]; simpl; [done|].
  destruct (String.eqb k k'); [done|apply IH].
Qed.

Lemma assoc_get_absent k l : k ∉ l.*1 → assoc_get k l = None.
Proof.
  induction l as [|[k' v] l IH]; simpl; [done|]. intros Hn.
  apply not_elem_of_cons in Hn as [Hne Hn].
  apply String.eqb_neq in Hne. rewrite Hne. by apply IH.
Qed.

Lemma assoc_del_absent k l : k ∉ l.*1 → assoc_del k l = l.
Proof.
  induction l as [|[k' v] l IH]; simpl; [done|]. intros Hn.
  apply not_elem_of_cons in Hn as [Hne Hn].
  apply String.eqb_neq in Hne. rewrite Hne. by rewrite IH.
Qed.

Lemma assoc_set_absent k v l : k ∉ l.*1 → assoc_set k v l = l ++ [(k, v)].
Proof.
  induction l as [|[k' v'] l IH]; simpl; [done|]. intros Hn.
  apply not_elem_of_cons in Hn as [Hne Hn].
  apply String.eqb_neq in Hne. rewrite Hne. by rewrite IH.
Qed.

Lemma branded_ne_submod c p q : branded_name c p ≠ submod_name q.
Proof. destruct c; simpl; rewrite ?thunder_name_eq, ?inductor_name_eq, submod_name_eq; done. Qed.

Lemma branded_name_inj c c' p q : branded_name c p = branded_name c' q → p = q.
Proof.
  destruct c, c'; simpl; intros H.
  - by apply thunder_name_inj.
  - by rewrite thunder_name_eq, inductor_name_eq in H.
  - by rewrite thunder_name_eq, inductor_name_eq in H.
  - by apply inductor_name_inj.
Qed.

(** ** The assembly loop keeps the store in shape *)

Section LoopProof.
Variable supported : gset Z.
Variable flag : bool.
Variable body : Z -> list Node.
Variable parts : list Z.
Variable ins outs : list Node.
Variable fresh : nat.
Hypothesis parts_nodup : NoDup parts.

Local Abbreviation inv := (asm_inv supported flag body parts ins outs fresh).
Local Abbreviation sp := (split_loc flag parts).
Local Abbreviation sl := (sub_loc flag parts).
Local Abbreviation fl := (fn_loc flag parts).
Local Abbreviation brand := (brand_of supported).

Lemma split_heap_origin :
  split_heap body parts ins outs fresh !! origin_loc parts
  = Some (GraphModule (ins ++ imap_from (submod_call fresh) 0 parts ++ outs)
            (imap_from split_mod 0 parts)).
Proof.
  unfold split_heap, origin_loc. apply list_lookup_middle. by rewrite length_fmap.
Qed.

Lemma assoc_get_split_mod l : ∀ off j p,
  NoDup l → l !! j = Some p →
  assoc_get (submod_name p) (imap_from split_mod off l) = Some (off + j)%nat.
Proof.
  induction l as [|a l IH]; intros off [|j] p Hnd Hj; simpl in *; try done.
  - injection Hj as ->. rewrite String.eqb_refl. f_equal. lia.
  - apply NoDup_cons in Hnd as [Ha Hnd].
    assert (submod_name p ≠ submod_name a) as Hne%String.eqb_neq.
    { intros ->%submod_name_inj. apply Ha. by eapply list_elem_of_lookup_2. }
    unfold split_mod at 1. rewrite Hne, (IH _ j) by done. f_equal. lia.
Qed.

Lemma old_mod_keys l off q :
  q ∉ l → submod_name q ∉ (imap_from (old_mod flag parts) off l).*1.
Proof.
  revert off. induction l as [|a l IH]; intros off Hq; simpl; [apply not_elem_of_nil|].
  apply not_elem_of_cons in Hq as [Hne Hq]. apply not_elem_of_cons. split.
  - intros H%submod_name_inj. done.
  - by apply IH.
Qed.

Lemma old_mod_keys_branded l off c q :
  branded_name c q ∉ (imap_from (old_mod flag parts) off l).*1.
Proof.
  revert off. induction l as [|a l IH]; intros off; simpl; [apply not_elem_of_nil|].
  apply not_elem_of_cons. split; [apply branded_ne_submod|apply IH].
Qed.

Lemma new_mod_keys_submod l off q :
  submod_name q ∉ (imap_from (new_mod supported flag parts) off l).*1.
Proof.
  revert off. induction l as [|a l IH]; intros off; simpl; [apply not_elem_of_nil|].
  apply not_elem_of_cons. split; [|apply IH].
  intros H. symmetry in H. by apply branded_ne_submod in H.
Qed.

Lemma new_mod_keys l off c q :
  q ∉ l → branded_name c q ∉ (imap_from (new_mod supported flag parts) off l).*1.
Proof.
  revert off. induction l as [|a l IH]; intros off Hq; simpl; [apply not_elem_of_nil|].
  apply not_elem_of_cons in Hq as [Hne Hq]. apply not_elem_of_cons. split.
  - intros H%branded_name_inj. done.
  - by apply IH.
Qed.

Local Ltac solve_loc :=
  unfold fn_loc, sub_loc, split_loc, origin_loc in *; simpl in *; lia.

Lemma assoc_del_old_head i p l :
  assoc_del (submod_name p) (old_mod flag parts i p :: l)
  = assoc_del (submod_name p) l.
Proof. unfold old_mod. simpl. by rewrite String.eqb_refl. Qed.

(** One iteration on the call node of the next partition. *)
Lemma asm_inv_step done p todo st :
  parts = done ++ p :: todo →
  inv done (p :: todo) st →
  ∃ st',
    assemble_node supported flag (origin_loc parts) sp
      (length ins + length done)%nat st = (st', inr tt)
    ∧ inv (done ++ [p]) todo st'.
Proof.
  intros Hparts (Hlen & Hpre & Hsp & Hsub & Hfn & Hacc & Hdict & Htr).
  set (j := length done) in *.
  assert (Hm : length parts = (j + S (length todo))%nat).
  { rewrite Hparts, length_app. simpl. done. }
  assert (Hpj : (done ++ p :: todo) !! j = Some p) by by apply list_lookup_middle.
  assert (Hp_done : p ∉ done).
  { pose proof parts_nodup as Hnd.
    rewrite Hparts in Hnd. apply NoDup_app in Hnd as (_ & Hd & _).
    intros Hin. apply (Hd _ Hin). apply list_elem_of_here. }
  assert (Hp_todo : p ∉ todo).
  { pose proof parts_nodup as Hnd.
    rewrite Hparts in Hnd. apply NoDup_app in Hnd as (_ & _ & Hd).
    by apply NoDup_cons in Hd as [? _]. }
  pose proof (Hsub j p Hpj) as Hbody.
  rewrite bool_decide_eq_false_2 in Hbody by lia.
  assert (Hslsp : sl j ≠ sp).
  { solve_loc. }
  assert (Hnode : (ins ++ imap_from (final_call supported fresh) 0 done
                   ++ imap_from (submod_call fresh) j (p :: todo) ++ outs)
                  !! (length ins + j)%nat = Some (submod_call fresh j p)).
  { simpl. rewrite app_assoc. apply list_lookup_middle.
    by rewrite length_app, imap_from_length. }
  assert (Hkey : if flag
                 then ∃ ons omods,
                        heap st !! origin_loc parts = Some (GraphModule ons omods)
                        ∧ assoc_get (submod_name p) omods = Some j
                        ∧ origin_loc parts ≠ sp ∧ origin_loc parts ≠ sl j
                 else j = sl j).
  { unfold sub_loc, split_loc, base_loc, origin_loc in *. destruct flag.
    - eexists _, _. split_and!.
      + rewrite Hpre by lia. apply split_heap_origin.
      + rewrite (assoc_get_split_mod parts 0 j p); [done|done|by rewrite Hparts].
      + lia.
      + lia.
    - done. }
  eexists. split.
  { eapply assemble_node_submod; [exact Hsp|exact Hnode|done| |exact Hbody|done|exact Hkey].
    simpl. unfold old_mod at 1. by rewrite String.eqb_refl. }
  set (c := brand p).
  assert (Hfnj : length (heap st) = fl j).
  { rewrite Hlen. unfold fn_loc. done. }
  assert (Hsl_lt : (sl j < length (heap st))%nat) by (by eapply lookup_lt_Some).
  assert (Hsp_lt : (sp < length (heap st))%nat) by (by eapply lookup_lt_Some).
  unfold asm_inv. cbn [heap compiled_fns_acc submodule_to_compiled_fns trace].
  assert (Hdl : length (done ++ [p]) = S j) by (rewrite length_app; simpl; lia).
  rewrite !Hdl.
  split_and!.
  - rewrite length_insert, length_app, length_insert. simpl. solve_loc.
  - intros l Hl. rewrite <- Hpre by done.
    assert (l ≠ sp ∧ l ≠ sl j) as [? ?].
    { solve_loc. }
    rewrite list_lookup_insert_ne by done.
    rewrite lookup_app_l by (rewrite length_insert; solve_loc).
    by rewrite list_lookup_insert_ne.
  - rewrite list_lookup_insert_eq
      by (rewrite length_app, length_insert; solve_loc).
    do 2 f_equal.
    + simpl. rewrite app_assoc, <- (Nat.add_0_r (length ins + j)).
      replace (length ins + j)%nat
        with (length (ins ++ imap_from (final_call supported fresh) 0 done))
        by (by rewrite length_app, imap_from_length).
      rewrite Nat.add_0_r, insert_middle.
      rewrite imap_from_app. simpl. rewrite <- !app_assoc. simpl. done.
    + cbn [imap_from app]. rewrite assoc_del_old_head.
      rewrite assoc_del_absent.
      2:{ rewrite fmap_app. apply not_elem_of_app. split.
          - by apply old_mod_keys.
          - apply new_mod_keys_submod. }
      rewrite assoc_set_absent.
      2:{ rewrite fmap_app. apply not_elem_of_app. split.
          - apply old_mod_keys_branded.
          - by apply new_mod_keys. }
      rewrite imap_from_app. cbn [imap_from]. rewrite <- app_assoc.
      unfold new_mod at 3. by rewrite Hfnj.
  - intros i q Hq. rewrite <- app_assoc in Hq. simpl in Hq.
    assert (sl i ≠ sp).
    { apply lookup_lt_Some in Hq. rewrite <- Hparts in Hq.
      solve_loc. }
    rewrite list_lookup_insert_ne by done.
    destruct (decide (i = j)) as [->|Hij].
    + rewrite Hpj in Hq. injection Hq as <-.
      rewrite lookup_app_l by (by rewrite length_insert).
      rewrite list_lookup_insert_eq by done.
      by rewrite bool_decide_eq_true_2 by lia.
    + assert (sl i ≠ sl j) by solve_loc.
      pose proof (Hsub i q Hq) as Hi.
      rewrite lookup_app_l
        by (rewrite length_insert; by eapply lookup_lt_Some).
      rewrite list_lookup_insert_ne by done. rewrite Hi.
      by rewrite (bool_decide_ext (i < j)%nat (i < S j)%nat) by lia.
  - intros i q Hq.
    assert (fl i ≠ sp) by solve_loc.
    rewrite list_lookup_insert_ne by done.
    apply lookup_app_Some in Hq as [Hq|[Hge Hq]].
    + pose proof (Hfn i q Hq) as Hi.
      assert (fl i ≠ sl j).
      { apply lookup_lt_Some in Hq. solve_loc. }
      rewrite lookup_app_l
        by (rewrite length_insert; by eapply lookup_lt_Some).
      by rewrite list_lookup_insert_ne.
    + fold j in Hge, Hq. destruct (i - j)%nat as [|k] eqn:Hk; [|by destruct k].
      simpl in Hq. injection Hq as <-. assert (i = j) as -> by lia.
      rewrite <- Hfnj. rewrite lookup_app_r by (by rewrite length_insert).
      by rewrite length_insert, Nat.sub_diag.
  - rewrite imap_from_app, concat_app, <- Hacc. simpl. rewrite app_nil_r.
    fold j. unfold part_fns. fold c. by rewrite Hfnj.
  - intros k. destruct (decide (k = j)) as [->|Hkj].
    + rewrite lookup_insert_eq. rewrite lookup_app_r by done.
      fold j. rewrite Nat.sub_diag. simpl. by rewrite Hfnj.
    + rewrite lookup_insert_ne by done. rewrite Hdict.
      destruct (decide (k < j)%nat).
      * by rewrite lookup_app_l.
      * rewrite !lookup_ge_None_2; [done| |fold j; lia].
        rewrite length_app. simpl. fold j. lia.
  - rewrite imap_from_app, concat_app, Htr, <- app_assoc. simpl. rewrite app_nil_r.
    fold j. unfold part_events. fold c. by rewrite Hfnj.
Qed.

Lemma for_each_app {A} (f : A -> M unit) l1 l2 st st1 :
  for_each f l1 st = (st1, inr tt) → for_each f (l1 ++ l2) st = for_each f l2 st1.
Proof.
  revert st. induction l1 as [|x l1 IH]; intros st H; simpl in *.
  - by injection H as <-.
  - unfold mbind, M_bind in *. destruct (f x st) as [st2 [e|[]]]; [done|]. by apply IH.
Qed.

Lemma for_each_unchanged {A} (f : A -> M unit) l st :
  (∀ x, x ∈ l → f x st = (st, inr tt)) → for_each f l st = (st, inr tt).
Proof.
  induction l as [|x l IH]; intros H; simpl; [done|].
  erewrite bind_ok by (apply H; apply list_elem_of_here).
  apply IH. intros y Hy. apply H. by apply list_elem_of_further.
Qed.

(** The loop over the call nodes that are still to come. *)
Lemma asm_inv_loop todo : ∀ done st,
  parts = done ++ todo → inv done todo st →
  ∃ st',
    for_each (assemble_node supported flag (origin_loc parts) sp)
      (seq (length ins + length done) (length todo)) st = (st', inr tt)
    ∧ inv parts [] st'.
Proof.
  induction todo as [|p todo IH]; intros done st Hparts Hinv.
  - exists st. rewrite app_nil_r in Hparts. subst done. done.
  - destruct (asm_inv_step done p todo st Hparts Hinv) as (st1 & Hstep & Hinv1).
    destruct (IH (done ++ [p]) st1) as (st' & Hloop & Hinv'); [|done|].
    { by rewrite <- app_assoc. }
    exists st'. split; [|done]. simpl. erewrite bind_ok by exact Hstep.
    rewrite length_app in Hloop. simpl in Hloop.
    by rewrite Nat.add_1_r, Nat.add_succ_r in Hloop.
Qed.

Hypothesis ins_glue : Forall (λ n, String.prefix "submod" (name n) = false) ins.
Hypothesis outs_glue : Forall (λ n, String.prefix "submod" (name n) = false) outs.

(** The whole loop of line 155. *)
Lemma asm_loop st :
  inv [] parts st →
  ∃ st',
    for_each (assemble_node supported flag (origin_loc parts) sp)
      (seq 0 (length ins + length parts + length outs)) st = (st', inr tt)
    ∧ inv parts [] st'.
Proof.
  intros Hinv.
  destruct (asm_inv_loop parts [] st eq_refl Hinv) as (st' & Hloop & Hinv').
  exists st'. split; [|done].
  rewrite !seq_app. simpl. rewrite <- app_assoc.
  erewrite for_each_app; first erewrite for_each_app; [| |]; cycle 1.
  - simpl in Hloop. rewrite Nat.add_0_r in Hloop. exact Hloop.
  - apply for_each_unchanged. intros i Hi%elem_of_seq.
    destruct Hinv as (_ & _ & Hsp & _).
    assert (is_Some (ins !! i)) as [n Hn] by (apply lookup_lt_is_Some; lia).
    eapply assemble_node_glue; [exact Hsp| |].
    + rewrite lookup_app_l by lia. exact Hn.
    + by eapply (Forall_lookup_1 _ _ _ _ ins_glue).
  - apply for_each_unchanged. intros i Hi%elem_of_seq.
    destruct Hinv' as (_ & _ & Hsp & _).
    assert (is_Some (outs !! (i - (length ins + length parts))%nat)) as [n Hn]
      by (apply lookup_lt_is_Some; lia).
    eapply assemble_node_glue; [exact Hsp| |].
    + simpl. rewrite lookup_app_r by lia.
      rewrite lookup_app_r by (rewrite imap_from_length; lia).
      rewrite imap_from_length, <- Hn. f_equal. lia.
    + by eapply (Forall_lookup_1 _ _ _ _ outs_glue).
Qed.

(** [copy.deepcopy] of the partition modules, one after the other. *)
Lemma copy_modules_split fuel todo : ∀ j hacc d,
  length hacc = (d + j)%nat →
  (∀ i p, todo !! i = Some p → hacc !! (j + i)%nat = Some (GraphModule (body p) [])) →
  copy_modules (deepcopy_obj (S fuel)) (imap_from split_mod j todo) hacc
  = Some (imap_from (λ i p, (submod_name p, (d + i)%nat)) j todo,
          hacc ++ ((λ p, GraphModule (body p) []) <$> todo)).
Proof.
  induction todo as [|p todo IH]; intros j hacc d Hlen Hsub.
  - simpl. by rewrite app_nil_r.
  - pose proof (Hsub 0%nat p eq_refl) as H0. rewrite Nat.add_0_r in H0.
    assert (Hd : deepcopy_obj (S fuel) j hacc
                 = Some (length hacc, hacc ++ [GraphModule (body p) []])).
    { cbn [deepcopy_obj]. rewrite H0. done. }
    cbn [imap_from copy_modules split_mod]. rewrite Hd. cbn [mbind option_bind].
    rewrite (IH (S j) (hacc ++ [GraphModule (body p) []]) d).
    + cbn [mbind option_bind fmap list_fmap]. rewrite Hlen, <- app_assoc. done.
    + rewrite length_app. simpl. lia.
    + intros i q Hq. pose proof (Hsub (S i) q Hq) as Hi.
      rewrite lookup_app_l by (apply lookup_lt_Some in Hi; lia).
      rewrite <- Hi. f_equal. lia.
Qed.

Lemma split_heap_length :
  length (split_heap body parts ins outs fresh) = S (length parts).
Proof. unfold split_heap. rewrite length_app, length_fmap. simpl. lia. Qed.

Lemma split_heap_sub i p :
  parts !! i = Some p →
  split_heap body parts ins outs fresh !! i = Some (GraphModule (body p) []).
Proof.
  intros Hp. unfold split_heap.
  rewrite lookup_app_l by (rewrite length_fmap; by eapply lookup_lt_Some).
  by rewrite list_lookup_fmap, Hp.
Qed.

Lemma deepcopy_split_heap fuel :
  deepcopy_obj (S (S fuel)) (origin_loc parts) (split_heap body parts ins outs fresh)
  = Some (split_loc true parts,
          split_heap body parts ins outs fresh
          ++ ((λ p, GraphModule (body p) []) <$> parts)
          ++ [GraphModule (ins ++ imap_from (submod_call fresh) 0 parts ++ outs)
                (imap_from (old_mod true parts) 0 parts)]).
Proof.
  cbn [deepcopy_obj]. rewrite split_heap_origin.
  rewrite (copy_modules_split fuel parts 0 _ (S (length parts))).
  - simpl. rewrite length_app, split_heap_length, length_fmap, <- app_assoc. done.
  - rewrite split_heap_length. lia.
  - intros i p Hp. by apply split_heap_sub.
Qed.

Local Abbreviation start := (loop_start flag body parts ins outs fresh).

Lemma loop_start_inv : inv [] parts start.
Proof.
  unfold loop_start, asm_inv. destruct flag; cbn [heap compiled_fns_acc
    submodule_to_compiled_fns trace length imap_from concat app].
  - split_and!; try done.
    + rewrite !length_app, split_heap_length, length_fmap. simpl.
      unfold split_loc, base_loc. lia.
    + intros l Hl. rewrite lookup_app_l; [done|].
      rewrite split_heap_length. unfold base_loc in Hl. lia.
    + rewrite app_assoc, app_nil_r. apply list_lookup_middle.
      rewrite length_app, split_heap_length, length_fmap.
      unfold split_loc, base_loc. lia.
    + intros i p Hp. rewrite bool_decide_eq_false_2 by lia.
      rewrite lookup_app_r by (rewrite split_heap_length; unfold sub_loc, base_loc; lia).
      rewrite lookup_app_l
        by (rewrite split_heap_length, length_fmap; apply lookup_lt_Some in Hp;
            unfold sub_loc, base_loc; lia).
      rewrite list_lookup_fmap.
      replace (sub_loc true parts i
               - length (split_heap body parts ins outs fresh))%nat with i
        by (rewrite split_heap_length; unfold sub_loc, base_loc; lia).
      by rewrite Hp.
  - split_and!; try done.
    + rewrite split_heap_length. unfold split_loc, base_loc. lia.
    + rewrite app_nil_r. apply split_heap_origin.
    + intros i p Hp. rewrite bool_decide_eq_false_2 by lia.
      by apply split_heap_sub.
Qed.

(** Lines 144-195 on the store [split_module] leaves behind. *)
Lemma assemble_split gm reasons :
  ∃ st1,
    inv parts [] st1
    ∧ assemble supported flag gm reasons (origin_loc parts)
        (mkAsm (split_heap body parts ins outs fresh) [] ∅ [])
      = (mkAsm (heap st1) (compiled_fns_acc st1) (submodule_to_compiled_fns st1)
           (trace st1 ++ [EvRecompile sp]),
         inr (sp, mkSubgraphInfo gm (origin_loc parts) sp
                    (compiled_fns_acc st1) (submodule_to_compiled_fns st1) reasons)).
Proof.
  pose proof loop_start_inv as Hinv0.
  destruct (asm_loop start Hinv0) as (st1 & Hloop & Hinv1).
  exists st1. split; [done|].
  assert (Hstart :
    (if flag then deepcopy (origin_loc parts) else mret (origin_loc parts))
      (mkAsm (split_heap body parts ins outs fresh) [] ∅ [])
    = (start, inr sp)).
  { unfold loop_start. destruct flag.
    - unfold deepcopy, mbind, M_bind, get_heap. cbn [heap].
      rewrite split_heap_length, deepcopy_split_heap. done.
    - unfold split_loc, base_loc, origin_loc. done. }
  unfold assemble. erewrite bind_ok by exact Hstart.
  destruct Hinv0 as (_ & _ & Hsp0 & _).
  erewrite bind_ok by (by eapply graph_nodes_eq).
  rewrite !length_app, !imap_from_length. cbn [length].
  rewrite Nat.add_0_l, Nat.add_assoc.
  erewrite bind_ok by exact Hloop.
  done.
Qed.
End LoopProof.

(** ** [split_module] and the whole pass *)

Lemma first_seen_spec pids : ∀ seen,
  NoDup (first_seen seen pids)
  ∧ ∀ p, p ∈ first_seen seen pids ↔ p ∈ pids ∧ p ∉ seen.
Proof.
  induction pids as [|a pids IH]; intros seen; simpl.
  - split; [constructor|]. intros p. rewrite elem_of_nil. tauto.
  - destruct (decide (a ∈ seen)) as [Hin|Hout].
    + destruct (IH seen) as [Hnd Hmem]. split; [done|].
      intros p. rewrite Hmem, elem_of_cons. split; [tauto|].
      intros [[->|Hp] Hs]; [done|tauto].
    + destruct (IH (a :: seen)) as [Hnd Hmem]. split.
      * apply NoDup_cons. split; [|done]. rewrite Hmem.
        intros [_ Hn]. apply Hn. apply list_elem_of_here.
      * intros p. rewrite !elem_of_cons, Hmem, elem_of_cons.
        destruct (decide (p = a)) as [->|Hne]; tauto.
Qed.

Lemma partition_ids_nodup pids : NoDup (partition_ids pids).
Proof. apply first_seen_spec. Qed.

Lemma partition_ids_elem pids p : p ∈ partition_ids pids ↔ p ∈ pids.
Proof.
  unfold partition_ids. destruct (first_seen_spec pids []) as [_ ->].
  split; [by intros [? _]|]. intros H. split; [done|apply not_elem_of_nil].
Qed.

Lemma split_module_eq gm pids :
  split_module gm pids asm_init
  = (mkAsm (split_heap (partition_body (call_nodes gm) pids) (partition_ids pids)
              (graph_inputs gm) (graph_outputs gm) (fresh_nid gm)) [] ∅ [],
     inr (origin_loc (partition_ids pids))).
Proof.
  unfold split_module, mbind, M_bind, get_heap, put_heap, split_heap. simpl.
  by rewrite !imap_imap_from.
Qed.

Lemma inputs_ok_glue gm :
  inputs_ok gm →
  Forall (λ n, String.prefix "submod" (name n) = false) (graph_inputs gm)
  ∧ Forall (λ n, String.prefix "submod" (name n) = false) (graph_outputs gm).
Proof.
  intros Hok. unfold inputs_ok in Hok. rewrite forallb_forall in Hok.
  assert (Hglue : ∀ n, n ∈ gm → is_call_op (op n) = false →
                    String.prefix "submod" (name n) = false).
  { intros n Hin%list_elem_of_In%Hok Hop. rewrite Hop in Hin. simpl in Hin.
    by apply negb_true_iff. }
  split; apply Forall_forall; intros n [Hop Hin]%list_elem_of_filter;
    apply Hglue; try done.
  - by destruct Hop as [-> | ->].
  - by rewrite Hop.
Qed.

(** The pass on a graph whose glue nodes are well named: it returns, and the
    state it leaves is the one [asm_inv] describes once every partition is
    done, with the recompilation logged last. *)
Lemma splitter_spec pred ctx gm :
  inputs_ok gm →
  ∃ cb pids st1,
    partition_pass pred ctx gm = (cb, inr pids)
    ∧ asm_inv (supported_partitions cb) (has_thunder_tracable_checkpoint cb)
        (partition_body (call_nodes gm) pids) (partition_ids pids)
        (graph_inputs gm) (graph_outputs gm) (fresh_nid gm)
        (partition_ids pids) [] st1
    ∧ _splitter pred ctx gm
      = (mkAsm (heap st1) (compiled_fns_acc st1) (submodule_to_compiled_fns st1)
           (trace st1
            ++ [EvRecompile (split_loc (has_thunder_tracable_checkpoint cb)
                               (partition_ids pids))]),
         inr (split_loc (has_thunder_tracable_checkpoint cb) (partition_ids pids),
              mkSubgraphInfo gm (origin_loc (partition_ids pids))
                (split_loc (has_thunder_tracable_checkpoint cb) (partition_ids pids))
                (compiled_fns_acc st1) (submodule_to_compiled_fns st1)
                (split_reasons cb))).
Proof.
  intros Hok. destruct (inputs_ok_glue gm Hok) as [Hins Houts].
  destruct (partition_pass_spec pred ctx gm) as (cb & Hrun & _).
  set (pids := assign_ids None 0 (is_thunder_supported pred ctx <$> call_nodes gm)) in *.
  destruct (assemble_split (supported_partitions cb) (has_thunder_tracable_checkpoint cb)
              (partition_body (call_nodes gm) pids) (partition_ids pids)
              (graph_inputs gm) (graph_outputs gm) (fresh_nid gm)
              (partition_ids_nodup pids) Hins Houts gm (split_reasons cb))
    as (st1 & Hinv & Hasm).
  exists cb, pids, st1. split_and!; [done|done|].
  unfold _splitter. rewrite Hrun.
  erewrite bind_ok by apply split_module_eq. exact Hasm.
Qed.

(** ** What the log of a pass contains *)

Lemma elem_of_concat_imap_from {A B} (f : nat -> A -> list B) l e : ∀ off,
  e ∈ concat (imap_from f off l) ↔ ∃ i x, l !! i = Some x ∧ e ∈ f (off + i)%nat x.
Proof.
  induction l as [|a l IH]; intros off; simpl.
  - rewrite elem_of_nil. split; [done|]. by intros (i & x & Hx & _).
  - rewrite elem_of_app, IH. split.
    + intros [He|(i & x & Hx & He)].
      * exists 0%nat, a. by rewrite Nat.add_0_r.
      * exists (S i), x. by rewrite Nat.add_succ_r.
    + intros ([|i] & x & Hx & He); simpl in Hx.
      * injection Hx as <-. left. by rewrite Nat.add_0_r in He.
      * right. exists i, x. by rewrite Nat.add_succ_r in He.
Qed.

Section TraceFacts.
Variable supported : gset Z.
Variable flag : bool.
Variable parts : list Z.
Variable ins : list Node.

Local Abbreviation final_trace :=
  (pre_trace flag parts ++ concat (imap_from (part_events supported flag parts ins) 0 parts)
   ++ [EvRecompile (split_loc flag parts)]).

Lemma compile_in_trace c sub fn :
  EvCompile c sub fn ∈ final_trace
  ↔ ∃ i p, parts !! i = Some p ∧ c = brand_of supported p
           ∧ sub = sub_loc flag parts i ∧ fn = fn_loc flag parts i.
Proof.
  rewrite !elem_of_app, elem_of_concat_imap_from, list_elem_of_singleton.
  unfold pre_trace, part_events, submod_events. split.
  - intros [He|[(i & p & Hp & He)|?]]; [|exists i, p|done].
    + destruct flag; [|by apply elem_of_nil in He].
      by apply list_elem_of_singleton in He.
    + split; [done|]. simpl in He.
      destruct (brand_of supported p); simpl in He;
        repeat (apply elem_of_cons in He as [He|He]; try done);
        try (by apply elem_of_nil in He); by injection He as -> -> ->.
  - intros (i & p & Hp & -> & -> & ->). right. left. exists i, p.
    split; [done|]. simpl.
    destruct (brand_of supported p); simpl;
      [apply list_elem_of_further|]; apply list_elem_of_here.
Qed.

Lemma converter_in_trace g sub :
  EvCheckpointConverter g sub ∈ final_trace
  ↔ ∃ i p, parts !! i = Some p ∧ brand_of supported p = THUNDER
           ∧ g = split_loc flag parts ∧ sub = sub_loc flag parts i.
Proof.
  rewrite !elem_of_app, elem_of_concat_imap_from, list_elem_of_singleton.
  unfold pre_trace, part_events, submod_events. split.
  - intros [He|[(i & p & Hp & He)|?]]; [|exists i, p|done].
    + destruct flag; [|by apply elem_of_nil in He].
      by apply list_elem_of_singleton in He.
    + split; [done|]. simpl in He.
      destruct (brand_of supported p); simpl in He;
        repeat (apply elem_of_cons in He as [He|He]; try done);
        try (by apply elem_of_nil in He); by injection He as -> ->.
  - intros (i & p & Hp & Hb & -> & ->). right. left. exists i, p.
    split; [done|]. simpl. rewrite Hb. simpl. apply list_elem_of_here.
Qed.
End TraceFacts.

Lemma partition_body_elem calls pids p n :
  n ∈ partition_body calls pids p →
  ∃ i, calls !! i = Some n ∧ pids !! i = Some p.
Proof.
  unfold partition_body. intros ([n' q] & -> & Hin)%list_elem_of_fmap.
  apply list_elem_of_filter in Hin as [Hq Hin]. simpl in Hq. subst q.
  apply list_elem_of_lookup in Hin as [i Hi].
  apply lookup_zip_with_Some in Hi as (x & y & [= -> ->] & Hx & Hy).
  by exists i.
Qed.

(** ** Duplication: when, how often, and before what *)

Lemma assemble_start (flag : bool) body parts ins outs fresh :
  (if flag then deepcopy (origin_loc parts) else mret (origin_loc parts))
    (mkAsm (split_heap body parts ins outs fresh) [] ∅ [])
  = (loop_start flag body parts ins outs fresh, inr (split_loc flag parts)).
Proof.
  unfold loop_start. destruct flag.
  - unfold deepcopy, mbind, M_bind, get_heap. cbn [heap].
    rewrite split_heap_length, deepcopy_split_heap. done.
  - unfold split_loc, base_loc, origin_loc. done.
Qed.

Lemma loop_start_trace flag body parts ins outs fresh :
  trace (loop_start flag body parts ins outs fresh) = pre_trace flag parts.
Proof. unfold loop_start, pre_trace. by destruct flag. Qed.

(** Whatever the graph, the log of a pass starts with the one [deepcopy] when
    the flag is set and holds no [deepcopy] anywhere else. *)
Lemma splitter_trace pred ctx gm :
  ∃ cb pids evs,
    partition_pass pred ctx gm = (cb, inr pids)
    ∧ trace (fst (_splitter pred ctx gm))
      = pre_trace (has_thunder_tracable_checkpoint cb) (partition_ids pids) ++ evs
    ∧ Forall (λ e, is_deepcopy_event e = false) evs.
Proof.
  destruct (partition_pass_spec pred ctx gm) as (cb & Hrun & _).
  set (pids := assign_ids None 0 (is_thunder_supported pred ctx <$> call_nodes gm)) in *.
  unfold _splitter. rewrite Hrun.
  erewrite bind_ok by apply split_module_eq.
  unfold assemble. erewrite bind_ok by apply assemble_start.
  match goal with |- context [fst (?m ?st)] => destruct (m st) as [st' r] eqn:Hm end.
  eapply (emits_bind (λ e, is_deepcopy_event e = false)) in Hm as (evs & Htr & Hevs).
  - exists cb, pids, evs. simpl. by rewrite Htr, loop_start_trace.
  - apply emits_graph_nodes.
  - intros ns. apply emits_bind.
    + apply emits_for_each. intros i. apply emits_assemble_node.
    + intros _. apply emits_bind; [by apply emits_emit|].
      intros _. apply emits_subgraph_info.
Qed.

Lemma split_mod_elem parts i p :
  parts !! i = Some p → (submod_name p, i) ∈ imap_from split_mod 0 parts.
Proof.
  intros Hp. apply list_elem_of_lookup. exists i.
  by rewrite imap_from_lookup, Hp.
Qed.

(** C6.  The log of every pass has at most one [deepcopy], at its very start,
    before any compiler call, and it is there exactly when partitioning found
    a supported tagged checkpoint.  Without one the returned split graph is the
    original split graph itself and the compilers are given its own
    submodules; with one the two are different objects. *)
Theorem duplication_once_before_compilation pred ctx gm :
  ∃ cb pids evs,
    partition_pass pred ctx gm = (cb, inr pids)
    ∧ trace (fst (_splitter pred ctx gm))
      = (if has_thunder_tracable_checkpoint cb
         then [EvDeepcopy (origin_loc (partition_ids pids))
                 (split_loc true (partition_ids pids))]
         else []) ++ evs
    ∧ Forall (λ e, is_deepcopy_event e = false) evs
    ∧ (has_thunder_tracable_checkpoint cb = true
       ↔ ∃ node, node ∈ call_nodes gm ∧ traceable_checkpoint pred ctx node)
    ∧ (inputs_ok gm →
       ∃ st info,
         _splitter pred ctx gm = (st, inr (split_graph_module info, info))
         ∧ (has_thunder_tracable_checkpoint cb = false →
              split_graph_module info = original_split_graph_module info
              ∧ ∀ c sub fn, EvCompile c sub fn ∈ trace st →
                  ∃ ns mods nm,
                    heap (fst (split_module gm pids asm_init))
                      !! original_split_graph_module info
                    = Some (GraphModule ns mods)
                    ∧ (nm, sub) ∈ mods)
         ∧ (has_thunder_tracable_checkpoint cb = true →
              split_graph_module info ≠ original_split_graph_module info)).
Proof.
  destruct (splitter_trace pred ctx gm) as (cb & pids & evs & Hrun & Htr & Hevs).
  exists cb, pids, evs. split_and!; [done| |done| |].
  - rewrite Htr. unfold pre_trace. by destruct (has_thunder_tracable_checkpoint cb).
  - by eapply partition_pass_flag.
  - intros Hok.
    destruct (splitter_spec pred ctx gm Hok) as (cb' & pids' & st1 & Hrun' & Hinv & Hsp).
    rewrite Hrun in Hrun'. injection Hrun' as <- <-.
    eexists _, (mkSubgraphInfo _ _ _ _ _ _). split; [exact Hsp|].
    cbn [split_graph_module original_split_graph_module].
    destruct Hinv as (_ & _ & _ & _ & _ & _ & _ & Htr1).
    split.
    + intros Hflag. rewrite Hflag in *. split; [done|].
      intros c sub fn Hin. cbn [trace] in Hin. rewrite Htr1, <- app_assoc in Hin.
      apply compile_in_trace in Hin as (i & p & Hp & _ & -> & _).
      rewrite split_module_eq. cbn [fst heap].
      eexists _, _, (submod_name p). split; [apply split_heap_origin|].
      by apply split_mod_elem.
    + intros ->. unfold split_loc, base_loc, origin_loc. lia.
Qed.

(** C10.  The flag is set exactly when some call-type node outside the
    unsupported-context set carries the tagged-checkpoint target and is
    supported by the predicate, and the log holds a [deepcopy] exactly when the
    flag is set.  [callback] never changes the flag on a node of the context
    set; so when every tagged checkpoint lies in such a context the flag stays
    down and nothing is duplicated. *)
Theorem checkpoint_flag_iff pred ctx gm :
  ∃ cb pids,
    partition_pass pred ctx gm = (cb, inr pids)
    ∧ (has_thunder_tracable_checkpoint cb = true
       ↔ ∃ node, node ∈ call_nodes gm
                 ∧ (nid node ∉ ctx)
                 ∧ target node = tag_activation_checkpoint
                 ∧ fst (pred node) = true)
    ∧ ((∃ e, e ∈ trace (fst (_splitter pred ctx gm)) ∧ is_deepcopy_event e = true)
       ↔ has_thunder_tracable_checkpoint cb = true)
    ∧ (∀ st node,
         nid node ∈ ctx →
         has_thunder_tracable_checkpoint (fst (callback pred ctx st node))
         = has_thunder_tracable_checkpoint st)
    ∧ ((∀ node, node ∈ call_nodes gm → target node = tag_activation_checkpoint →
          nid node ∈ ctx) →
       has_thunder_tracable_checkpoint cb = false
       ∧ ∀ e, e ∈ trace (fst (_splitter pred ctx gm)) → is_deepcopy_event e = false).
Proof.
  destruct (splitter_trace pred ctx gm) as (cb & pids & evs & Hrun & Htr & Hevs).
  pose proof (partition_pass_flag pred ctx gm cb pids Hrun) as Hflag.
  assert (Hdeep : (∃ e, e ∈ trace (fst (_splitter pred ctx gm))
                        ∧ is_deepcopy_event e = true)
                  ↔ has_thunder_tracable_checkpoint cb = true).
  { rewrite Htr. unfold pre_trace. split.
    - intros (e & [He|He]%elem_of_app & Hd).
      + destruct (has_thunder_tracable_checkpoint cb); [done|].
        by apply elem_of_nil in He.
      + rewrite Forall_forall in Hevs. apply Hevs in He. congruence.
    - intros ->. eexists. split; [apply elem_of_app; left; apply list_elem_of_here|done]. }
  exists cb, pids. split_and!; [done|exact Hflag|exact Hdeep| |].
  - intros st node Hin. unfold callback.
    destruct (negb (is_call_op (op node))); [done|].
    unfold classify. rewrite decide_True by done.
    destruct (prev_eq _ _); done.
  - intros Hall.
    assert (Hoff : has_thunder_tracable_checkpoint cb = false).
    { apply not_true_is_false. intros (node & Hin & Hn & Ht & _)%Hflag.
      by apply Hn, Hall. }
    split; [done|]. intros e He.
    apply not_true_is_false. intros Hd.
    assert (has_thunder_tracable_checkpoint cb = true) by (apply Hdeep; eauto).
    congruence.
Qed.

(** ** The mapping from submodules to compiled functions *)

Lemma new_mod_value S flag parts nm key :
  (nm, key) ∈ imap_from (new_mod S flag parts) 0 parts →
  (split_loc flag parts < key)%nat.
Proof.
  intros (i & Hi)%list_elem_of_lookup. rewrite imap_from_lookup in Hi.
  destruct (parts !! i); [|done]. injection Hi as _ <-. unfold fn_loc. lia.
Qed.

(** C4.  On a graph whose glue nodes are well named the pass returns.  If a
    supported checkpoint was detected, every key of the returned mapping is a
    child of the original split graph, which still is as [split_module]
    returned it, and is neither an object a compiler was given nor a child of
    the duplicate.  Otherwise the keys are exactly the objects the compilers
    were given, each mapped to the callable that compiler returned. *)
Theorem compiled_functions_keyed_by_original pred ctx gm :
  inputs_ok gm →
  ∃ cb pids st info,
    partition_pass pred ctx gm = (cb, inr pids)
    ∧ _splitter pred ctx gm = (st, inr (split_graph_module info, info))
    ∧ (has_thunder_tracable_checkpoint cb = true →
         split_graph_module info ≠ original_split_graph_module info
         ∧ ∀ key cf,
             submodule_to_compiled_functions info !! key = Some cf →
             (∃ ns mods nm,
                heap st !! original_split_graph_module info = Some (GraphModule ns mods)
                ∧ heap (fst (split_module gm pids asm_init))
                    !! original_split_graph_module info = Some (GraphModule ns mods)
                ∧ (nm, key) ∈ mods)
             ∧ heap st !! key = heap (fst (split_module gm pids asm_init)) !! key
             ∧ (∃ sub, EvCompile (compiler cf) sub (compiled_fn cf) ∈ trace st)
             ∧ (∀ c sub fn, EvCompile c sub fn ∈ trace st → sub ≠ key)
             ∧ (∀ ns mods nm,
                  heap st !! split_graph_module info = Some (GraphModule ns mods) →
                  (nm, key) ∉ mods))
    ∧ (has_thunder_tracable_checkpoint cb = false →
         split_graph_module info = original_split_graph_module info
         ∧ ∀ key cf,
             submodule_to_compiled_functions info !! key = Some cf
             ↔ EvCompile (compiler cf) key (compiled_fn cf) ∈ trace st).
Proof.
  intros Hok.
  destruct (splitter_spec pred ctx gm Hok) as (cb & pids & st1 & Hrun & Hinv & Hsp).
  eexists cb, pids, _, (mkSubgraphInfo _ _ _ _ _ _).
  split; [done|]. split; [exact Hsp|].
  cbn [split_graph_module original_split_graph_module submodule_to_compiled_functions
       heap trace].
  destruct Hinv as (_ & Hpre & Hsplit & Hsub & _ & _ & Hdict & Htr).
  rewrite split_module_eq. cbn [fst heap].
  set (parts := partition_ids pids) in *.
  split.
  - intros Hflag. rewrite Hflag in *. split.
    { unfold split_loc, base_loc, origin_loc. lia. }
    intros key cf Hkey. rewrite Hdict in Hkey.
    destruct (parts !! key) as [p|] eqn:Hp; [|done]. injection Hkey as <-.
    pose proof (lookup_lt_Some _ _ _ Hp) as Hlt.
    split_and!.
    + eexists _, _, (submod_name p). split_and!.
      * rewrite Hpre by (unfold base_loc, origin_loc; lia). apply split_heap_origin.
      * apply split_heap_origin.
      * by apply split_mod_elem.
    + apply Hpre. unfold base_loc. lia.
    + exists (sub_loc true parts key). rewrite Htr, <- app_assoc.
      apply compile_in_trace. by exists key, p.
    + intros c sub fn Hin. rewrite Htr, <- app_assoc in Hin.
      apply compile_in_trace in Hin as (i & q & _ & _ & -> & _).
      unfold sub_loc, base_loc. lia.
    + intros ns mods nm Hs. rewrite Hsplit in Hs. injection Hs as <- <-.
      cbn [imap_from app]. intros Hin%new_mod_value.
      unfold split_loc, base_loc in Hin. lia.
  - intros Hflag. rewrite Hflag in *. split; [done|].
    intros key cf. rewrite Hdict, Htr, <- app_assoc, compile_in_trace. split.
    + destruct (parts !! key) as [p|] eqn:Hp; [|done]. intros [= <-].
      by exists key, p.
    + intros (i & p & Hp & Hc & -> & Hfn).
      unfold sub_loc, base_loc. cbn [Nat.add]. rewrite Hp. cbn [fmap option_fmap option_map].
      destruct cf as [fn c]. simpl in Hc, Hfn. by subst.
Qed.

(** ** The intermediate split graph of the result *)

(** C7, as stated, fails on the smallest graph: without a checkpoint the
    intermediate field is the object the loop renamed, its call node
    [submod_1] now reads [thunder_1]. *)
Lemma intermediate_split_aliases_final :
  ¬ intermediate_split_preserved demo_supported ∅ sin_graph.
Proof.
  intros H.
  destruct (partition_pass demo_supported ∅ sin_graph) as [cb [e|pids]] eqn:Hp;
    [by vm_compute in Hp|].
  destruct (_splitter demo_supported ∅ sin_graph) as [st [e|[split info]]] eqn:Hs;
    [by vm_compute in Hs|].
  pose proof (H cb pids st split info Hp Hs) as Heq.
  vm_compute in Hp. injection Hp as _ <-.
  vm_compute in Hs. injection Hs as <- _ <-.
  vm_compute in Heq. discriminate Heq.
Qed.

(** C7, amended.  On a graph whose glue nodes are well named the pass returns.
    If a supported checkpoint was detected, the intermediate field is another
    object than the final split graph, and it and every submodule of it are
    still as [split_module] returned them; otherwise the two fields are the
    same object. *)
Theorem intermediate_split_kept_when_duplicated pred ctx gm :
  inputs_ok gm →
  ∃ cb pids st info,
    partition_pass pred ctx gm = (cb, inr pids)
    ∧ _splitter pred ctx gm = (st, inr (split_graph_module info, info))
    ∧ (has_thunder_tracable_checkpoint cb = true →
         original_split_graph_module info ≠ split_graph_module info
         ∧ ∀ l, (l ≤ original_split_graph_module info)%nat →
             heap st !! l = heap (fst (split_module gm pids asm_init)) !! l)
    ∧ (has_thunder_tracable_checkpoint cb = false →
         original_split_graph_module info = split_graph_module info).
Proof.
  intros Hok.
  destruct (splitter_spec pred ctx gm Hok) as (cb & pids & st1 & Hrun & Hinv & Hsp).
  eexists cb, pids, _, (mkSubgraphInfo _ _ _ _ _ _).
  split; [done|]. split; [exact Hsp|].
  cbn [split_graph_module original_split_graph_module heap].
  destruct Hinv as (_ & Hpre & _).
  rewrite split_module_eq. cbn [fst heap]. split.
  - intros Hflag. rewrite Hflag in *. split.
    + unfold split_loc, base_loc, origin_loc. lia.
    + intros l Hl. apply Hpre. unfold base_loc, origin_loc in *. lia.
  - intros ->. unfold split_loc, base_loc, origin_loc. lia.
Qed.

(** ** The checkpoint converter *)

(** C5, as stated, fails on the smallest graph: the converter is called on
    the one supported partition although no checkpoint was detected. *)
Lemma converter_called_without_checkpoint :
  ¬ converter_gated demo_supported ∅ sin_graph.
Proof.
  intros H.
  destruct (partition_pass demo_supported ∅ sin_graph) as [cb [e|pids]] eqn:Hp;
    [by vm_compute in Hp|].
  apply (H cb pids Hp) with (g := 1%nat) (sub := 0%nat).
  - vm_compute in Hp. by injection Hp as <- _.
  - vm_compute. apply list_elem_of_here.
Qed.

Lemma fmap_fixed {A} (f : A -> A) (l : list A) :
  (∀ x, x ∈ l → f x = x) → f <$> l = l.
Proof.
  induction l as [|a l IH]; intros H; [done|].
  rewrite fmap_cons, H by apply list_elem_of_here.
  rewrite IH; [done|]. intros x Hx. apply H. by apply list_elem_of_further.
Qed.

(** Without the flag, no node of a supported partition is a tagged checkpoint. *)
Lemma supported_partition_unconverted pred ctx gm cb pids p :
  partition_pass pred ctx gm = (cb, inr pids) →
  has_thunder_tracable_checkpoint cb = false →
  p ∈ supported_partitions cb →
  convert_node <$> partition_body (call_nodes gm) pids p
  = partition_body (call_nodes gm) pids p.
Proof.
  intros Hrun Hflag Hp. apply fmap_fixed. intros n Hn.
  apply partition_body_elem in Hn as (i & Hcall & Hpid).
  destruct (partition_pass_spec pred ctx gm) as (cb' & Hrun' & _ & Hmem).
  rewrite Hrun in Hrun'. injection Hrun' as <- ->.
  apply (Hmem i n p Hcall Hpid) in Hp.
  unfold partition_pass in Hrun.
  destruct (run_callback_effects _ _ _ _ _ _ Hrun) as (_ & _ & Hfl).
  rewrite Hflag in Hfl. simpl in Hfl.
  assert (Hset : sets_checkpoint_flag pred ctx n = false).
  { apply not_true_is_false. intros Hs.
    assert (existsb (sets_checkpoint_flag pred ctx) (call_nodes gm) = true) as He.
    { apply existsb_exists. exists n. split; [|done].
      apply list_elem_of_In. by eapply list_elem_of_lookup_2. }
    congruence. }
  unfold is_thunder_supported in Hp. unfold sets_checkpoint_flag in Hset.
  destruct (decide (nid n ∈ ctx)); [done|]. rewrite Hp, andb_true_r in Hset.
  unfold convert_node. by rewrite Hset, andb_false_r.
Qed.

(** C5, amended.  On a graph whose glue nodes are well named the pass returns,
    and the converter is called on exactly the submodules handed to the
    primary backend, whether or not a checkpoint was detected.  When none was
    detected, every submodule the converter was called on is still as
    [split_module] returned it. *)
Theorem converter_called_per_thunder_partition pred ctx gm :
  inputs_ok gm →
  ∃ cb pids st info,
    partition_pass pred ctx gm = (cb, inr pids)
    ∧ _splitter pred ctx gm = (st, inr (split_graph_module info, info))
    ∧ (∀ g sub,
         EvCheckpointConverter g sub ∈ trace st
         ↔ g = split_graph_module info ∧ ∃ fn, EvCompile THUNDER sub fn ∈ trace st)
    ∧ (has_thunder_tracable_checkpoint cb = false →
       ∀ g sub,
         EvCheckpointConverter g sub ∈ trace st →
         heap st !! sub = heap (fst (split_module gm pids asm_init)) !! sub).
Proof.
  intros Hok.
  destruct (splitter_spec pred ctx gm Hok) as (cb & pids & st1 & Hrun & Hinv & Hsp).
  eexists cb, pids, _, (mkSubgraphInfo _ _ _ _ _ _).
  split; [done|]. split; [exact Hsp|].
  cbn [split_graph_module heap trace].
  destruct Hinv as (_ & _ & _ & Hsub & _ & _ & _ & Htr).
  rewrite split_module_eq. cbn [fst heap].
  set (parts := partition_ids pids) in *.
  rewrite Htr, <- app_assoc. split.
  - intros g sub. rewrite converter_in_trace. split.
    + intros (i & p & Hp & Hb & -> & ->). split; [done|].
      exists (fn_loc (has_thunder_tracable_checkpoint cb) parts i).
      apply compile_in_trace. by exists i, p.
    + intros (-> & fn & (i & p & Hp & Hb & -> & _)%compile_in_trace).
      by exists i, p.
  - intros Hflag g sub (i & p & Hp & Hb & -> & ->)%converter_in_trace.
    rewrite Hflag in *.
    rewrite (Hsub i p) by (by rewrite app_nil_r).
    rewrite bool_decide_eq_true_2 by (by eapply lookup_lt_Some).
    unfold sub_loc, base_loc. cbn [Nat.add].
    rewrite (split_heap_sub _ _ _ _ _ _ _ Hp), Hb. cbn [compiled_body].
    f_equal. f_equal. eapply supported_partition_unconverted; [done|done|].
    unfold brand_of in Hb. by destruct (bool_decide_reflect (p ∈ supported_partitions cb)).
Qed.

(** ** Dispatch by name *)

(** C8.  The name test answers "primary backend" exactly for a name that
    starts with [submod] and whose remainder parses to an identifier of the
    supported set; a node whose name does not start with [submod] is left as
    it is by the loop body.  On a graph whose glue nodes are well named the
    pass returns a parent graph in which the glue nodes are unchanged and the
    call node of each partition is renamed after the backend that compiled
    it: the primary one when the identifier is in the supported set, the
    secondary one otherwise, with the compiled callable registered under the
    new name. *)
Theorem assembly_dispatch_by_name pred ctx gm :
  (∀ S node st,
     is_thunder_supported_partition S node st = (st, inr true)
     ↔ String.prefix "submod" (name node) = true
       ∧ ∃ n, py_int (replace "submod_" "" (name node)) = Some n ∧ n ∈ S)
  ∧ (∀ S flag origin g i st ns mods node,
       heap st !! g = Some (GraphModule ns mods) → ns !! i = Some node →
       String.prefix "submod" (name node) = false →
       assemble_node S flag origin g i st = (st, inr tt))
  ∧ (inputs_ok gm →
     ∃ cb pids st info,
       partition_pass pred ctx gm = (cb, inr pids)
       ∧ _splitter pred ctx gm = (st, inr (split_graph_module info, info))
       ∧ heap st !! split_graph_module info
         = Some (GraphModule
                   (graph_inputs gm
                    ++ imap_from (final_call (supported_partitions cb) (fresh_nid gm))
                         0 (partition_ids pids)
                    ++ graph_outputs gm)
                   (imap_from (new_mod (supported_partitions cb)
                                 (has_thunder_tracable_checkpoint cb)
                                 (partition_ids pids))
                      0 (partition_ids pids)))
       ∧ ∀ i p,
           partition_ids pids !! i = Some p →
           let c := brand_of (supported_partitions cb) p in
           let sub := sub_loc (has_thunder_tracable_checkpoint cb) (partition_ids pids) i in
           let fn := fn_loc (has_thunder_tracable_checkpoint cb) (partition_ids pids) i in
           (c = THUNDER ↔ p ∈ supported_partitions cb)
           ∧ (c = TORCH_INDUCTOR ↔ p ∉ supported_partitions cb)
           ∧ py_int (replace "submod_" "" (submod_name p)) = Some p
           ∧ name (final_call (supported_partitions cb) (fresh_nid gm) i p)
             = branded_name c p
           ∧ EvCompile c sub fn ∈ trace st
           ∧ heap st !! fn = Some (CompiledCallable c sub)
           ∧ thunder_compiled_fns info
             = concat (imap_from (part_fns (supported_partitions cb)
                                    (has_thunder_tracable_checkpoint cb)
                                    (partition_ids pids))
                         0 (partition_ids pids))).
Proof.
  split_and!.
  - intros S node st. unfold is_thunder_supported_partition.
    destruct (String.prefix "submod" (name node)).
    + destruct (py_int (replace "submod_" "" (name node))) as [n|]; simpl.
      * unfold mbind, M_bind, mret, M_ret. split.
        -- intros [= Hb]. split; [done|]. exists n. split; [done|].
           by eapply bool_decide_eq_true_1.
        -- intros (_ & n' & [= <-] & Hin). by rewrite bool_decide_eq_true_2.
      * split; [done|]. by intros (_ & n & ? & _).
    + split; [done|]. by intros [? _].
  - intros S flag origin g i st ns mods node. apply assemble_node_glue.
  - intros Hok.
    destruct (splitter_spec pred ctx gm Hok) as (cb & pids & st1 & Hrun & Hinv & Hsp).
    eexists cb, pids, _, (mkSubgraphInfo _ _ _ _ _ _).
    split; [done|]. split; [exact Hsp|].
    cbn [split_graph_module thunder_compiled_fns heap trace].
    destruct Hinv as (_ & _ & Hsplit & _ & Hfn & Hacc & _ & Htr).
    split.
    { exact Hsplit. }
    intros i p Hp. split_and!.
    + unfold brand_of. destruct (bool_decide_reflect (p ∈ supported_partitions cb)); split; done.
    + unfold brand_of. destruct (bool_decide_reflect (p ∈ supported_partitions cb)); split; done.
    + by rewrite strip_submod, py_int_py_str.
    + done.
    + rewrite Htr, <- app_assoc. apply compile_in_trace. by exists i, p.
    + by apply Hfn.
    + done.
Qed.

(** ** The statements at work on the demonstration graphs

    [demo_graph] has the call-type nodes sin, cos, sinc and a tagged
    checkpoint: supported, supported, unsupported, supported. *)

Lemma partition_ids_follow_flips_demo :
  ∃ st,
    partition_pass demo_supported ∅ demo_graph = (st, inr [1; 1; 2; 3])
    ∧ supported_partitions st = {[ 1; 3 ]}.
Proof.
  destruct (partition_ids_follow_flips demo_supported ∅ demo_graph)
    as (st & pids & Hrun & Hscen & _).
  destruct (Hscen (mkNode 1 "sin" call_function (torch_callable "sin"))
              (mkNode 2 "cos" call_function (torch_callable "cos"))
              (mkNode 3 "sinc" call_function (torch_callable "sinc"))
              (mkNode 4 "ckpt" call_function tag_activation_checkpoint)
              eq_refl eq_refl eq_refl eq_refl eq_refl) as [Hpids Hsup].
  exists st. split; [|exact Hsup]. rewrite Hrun, Hpids. reflexivity.
Defined.

Lemma partition_ids_contiguous_demo :
  ∃ st pids,
    partition_pass demo_supported ∅ demo_graph = (st, inr pids)
    ∧ ∀ p, pids !! 0%nat = Some p → pids !! 1%nat = Some p → pids !! 1%nat = Some p.
Proof.
  destruct (partition_ids_contiguous demo_supported ∅ demo_graph)
    as (st & pids & Hrun & _ & _ & Hcont).
  exists st, pids. split; [exact Hrun|].
  intros p. apply (Hcont 0%nat 1%nat 1%nat p); lia.
Defined.

Lemma context_override_unsupported_demo :
  ∃ st pids pid,
    partition_pass demo_supported {[ 4%nat ]} demo_graph = (st, inr pids)
    ∧ pids !! 3%nat = Some pid
    ∧ (pid ∉ supported_partitions st)
    ∧ mkSplitReason UNSUPPORTED_NODE
        (unsupported_ctx_info (mkNode 4 "ckpt" call_function tag_activation_checkpoint))
      ∈ split_reasons st.
Proof.
  apply (proj2 (context_override_unsupported demo_supported {[ 4%nat ]}) demo_graph 3%nat
           (mkNode 4 "ckpt" call_function tag_activation_checkpoint)).
  - reflexivity.
  - apply elem_of_singleton_2. reflexivity.
Defined.

Lemma structural_node_asserts_demo :
  callback demo_supported ∅ cb_init (mkNode 0 "l_x_" placeholder (attr_name "l_x_"))
  = (cb_init,
     inl (AssertionError
            "fx.split_module should have only passed node.op=call_* but received placeholder")).
Proof.
  apply (proj1 (structural_node_asserts demo_supported ∅) cb_init
           (mkNode 0 "l_x_" placeholder (attr_name "l_x_"))).
  left. reflexivity.
Defined.

Lemma compiled_functions_keyed_by_original_demo :
  inputs_ok demo_graph
  ∧ ∃ cb pids st info,
      partition_pass demo_supported ∅ demo_graph = (cb, inr pids)
      ∧ _splitter demo_supported ∅ demo_graph = (st, inr (split_graph_module info, info))
      ∧ (has_thunder_tracable_checkpoint cb = true →
           split_graph_module info ≠ original_split_graph_module info).
Proof.
  split; [reflexivity|].
  destruct (compiled_functions_keyed_by_original demo_supported ∅ demo_graph eq_refl)
    as (cb & pids & st & info & Hrun & Hs & Hdup & _).
  exists cb, pids, st, info. split; [exact Hrun|]. split; [exact Hs|].
  intros Hflag. exact (proj1 (Hdup Hflag)).
Defined.

Lemma intermediate_split_kept_when_duplicated_demo :
  inputs_ok demo_graph
  ∧ ∃ cb pids st info,
      partition_pass demo_supported ∅ demo_graph = (cb, inr pids)
      ∧ _splitter demo_supported ∅ demo_graph = (st, inr (split_graph_module info, info))
      ∧ (has_thunder_tracable_checkpoint cb = false →
           original_split_graph_module info = split_graph_module info).
Proof.
  split; [reflexivity|].
  destruct (intermediate_split_kept_when_duplicated demo_supported ∅ demo_graph eq_refl)
    as (cb & pids & st & info & Hrun & Hs & _ & Hsame).
  exists cb, pids, st, info. split; [exact Hrun|]. split; [exact Hs|]. exact Hsame.
Defined.

Lemma converter_called_per_thunder_partition_demo :
  inputs_ok sin_graph
  ∧ ∃ cb pids st info,
      partition_pass demo_supported ∅ sin_graph = (cb, inr pids)
      ∧ _splitter demo_supported ∅ sin_graph = (st, inr (split_graph_module info, info))
      ∧ ∀ g sub,
          EvCheckpointConverter g sub ∈ trace st
          ↔ g = split_graph_module info ∧ ∃ fn, EvCompile THUNDER sub fn ∈ trace st.
Proof.
  split; [reflexivity|].
  destruct (converter_called_per_thunder_partition demo_supported ∅ sin_graph eq_refl)
    as (cb & pids & st & info & Hrun & Hs & Hconv & _).
  exists cb, pids, st, info. split; [exact Hrun|]. split; [exact Hs|]. exact Hconv.
Defined.

Lemma duplication_once_before_compilation_demo :
  inputs_ok demo_graph
  ∧ ∃ cb pids st info,
      partition_pass demo_supported ∅ demo_graph = (cb, inr pids)
      ∧ _splitter demo_supported ∅ demo_graph = (st, inr (split_graph_module info, info))
      ∧ (has_thunder_tracable_checkpoint cb = true →
           split_graph_module info ≠ original_split_graph_module info).
Proof.
  split; [reflexivity|].
  destruct (duplication_once_before_compilation demo_supported ∅ demo_graph)
    as (cb & pids & evs & Hrun & _ & _ & _ & Hret).
  destruct (Hret eq_refl) as (st & info & Hs & _ & Hdup).
  exists cb, pids, st, info. split; [exact Hrun|]. split; [exact Hs|]. exact Hdup.
Defined.

Lemma assembly_dispatch_by_name_demo :
  inputs_ok demo_graph
  ∧ is_thunder_supported_partition {[ 1; 3 ]}
      (mkNode 7 "submod_3" call_module (attr_name "submod_3")) asm_init
    = (asm_init, inr true).
Proof.
  split; [reflexivity|].
  apply (proj1 (assembly_dispatch_by_name demo_supported ∅ demo_graph)).
  split; [reflexivity|]. exists 3. split; [reflexivity|].
  apply elem_of_union_r, elem_of_singleton_2. reflexivity.
Defined.

Lemma checkpoint_flag_iff_demo :
  ∃ cb pids,
    partition_pass demo_supported {[ 4%nat ]} demo_graph = (cb, inr pids)
    ∧ has_thunder_tracable_checkpoint cb = false.
Proof.
  destruct (checkpoint_flag_iff demo_supported {[ 4%nat ]} demo_graph)
    as (cb & pids & Hrun & _ & _ & _ & Hctx).
  exists cb, pids. split; [exact Hrun|]. apply Hctx.
  intros node Hin Ht. vm_compute in Hin.
  apply elem_of_cons in Hin as [-> | Hin]; [discriminate Ht|].
  apply elem_of_cons in Hin as [-> | Hin]; [discriminate Ht|].
  apply elem_of_cons in Hin as [-> | Hin]; [discriminate Ht|].
  apply elem_of_cons in Hin as [-> | Hin];
    [apply elem_of_singleton_2; reflexivity|].
  by apply elem_of_nil in Hin.
Defined.

(** ** More on the partition assignment *)

Section PartitionShape.
Variable pred : Node -> bool * option SplitReason.
Variable ctx : gset nat.

Local Abbreviation sup := (is_thunder_supported pred ctx).

Lemma callback_alternating st node st' pid :
  cb_inv st → alternating st →
  callback pred ctx st node = (st', inr pid) →
  alternating st'.
Proof.
  intros Hinv Halt Hcb.
  destruct (callback_effects pred ctx _ _ _ _ Hcb) as (Hc & _).
  destruct (callback_fields pred ctx st node Hc) as (st1 & Hcb1 & Hsame & Hflip).
  rewrite Hcb in Hcb1. injection Hcb1 as <- _.
  destruct Hinv as (H0 & Hs & Hnone & Hsome).
  destruct (prev_eq (prev_value st) (sup node)) eqn:He.
  - destruct (Hsame eq_refl) as (Hp & Hn & Hsp).
    intros p b. rewrite Hp, Hn, Hsp. apply Halt.
  - destruct (Hflip eq_refl) as (Hp & Hn & Hsp).
    intros p b. rewrite Hp, Hn. intros [= <-] Hp1 Hp2.
    assert (Hnew : partition_cnt st + 1 ∉ supported_partitions st).
    { intros Hin%Hs. lia. }
    destruct (decide (p = partition_cnt st + 1)) as [->|Hne].
    + rewrite Z.sub_diag. simpl. rewrite Hsp.
      destruct (sup node); [|done].
      split; [done|]. intros _. apply elem_of_union_l. by apply elem_of_singleton.
    + assert (Hple : p ≤ partition_cnt st) by lia.
      destruct (prev_value st) as [b0|] eqn:Hprev; [|specialize (Hnone eq_refl); lia].
      assert (b0 = negb (sup node)) as ->.
      { simpl in He. destruct b0, (sup node); done. }
      pose proof (Halt p (negb (sup node)) Hprev Hp1 Hple) as Hold.
      replace (partition_cnt st + 1 - p) with (Z.succ (partition_cnt st - p)) by lia.
      rewrite Z.even_succ, <- Z.negb_even.
      assert (Hin : p ∈ supported_partitions st' ↔ p ∈ supported_partitions st).
      { rewrite Hsp. destruct (sup node); [|done].
        rewrite elem_of_union, elem_of_singleton. split; [intros [?|?]; [lia|done]|auto]. }
      rewrite Hin, Hold. rewrite negb_involutive.
      by destruct (Z.even (partition_cnt st - p)).
Qed.

(** What a run over call-type nodes does to the closure state as a whole. *)
Lemma run_callback_shape nodes : ∀ st seen,
  Forall (λ n, is_call_op (op n) = true) nodes →
  cb_inv st → alternating st →
  (∀ x, x ∈ seen ↔ 1 ≤ x ∧ x ≤ partition_cnt st) →
  ∃ st' pids,
    run_callback pred ctx st nodes = (st', inr pids)
    ∧ cb_inv st' ∧ alternating st'
    ∧ partition_cnt st ≤ partition_cnt st'
    ∧ first_seen seen pids
      = seqZ (partition_cnt st + 1) (partition_cnt st' - partition_cnt st)
    ∧ split_reasons st' = split_reasons st ++ concat (node_reasons pred ctx <$> nodes).
Proof.
  induction nodes as [|node rest IH]; intros st seen Hall Hinv Halt Hseen.
  - exists st, []. simpl. rewrite Z.sub_diag, app_nil_r. split_and!; done.
  - apply Forall_cons in Hall as [Hc Hrest].
    destruct (callback_fields pred ctx st node Hc) as (st1 & Hcb & Hsame & Hflip).
    destruct (callback_inv pred ctx st node st1 _ Hinv Hcb) as (Hinv1 & _ & _ & Hle1 & _).
    pose proof (callback_alternating st node st1 _ Hinv Halt Hcb) as Halt1.
    destruct (callback_effects pred ctx _ _ _ _ Hcb) as (_ & Hreas & _).
    destruct (classify_effects pred ctx st node) as (Hreas1 & _).
    assert (Hr1 : split_reasons st1 = split_reasons st ++ node_reasons pred ctx node).
    { by rewrite Hreas, Hreas1. }
    destruct (prev_eq (prev_value st) (sup node)) eqn:He.
    + destruct (Hsame eq_refl) as (Hp & Hn & _).
      destruct (IH st1 seen Hrest Hinv1 Halt1) as (st' & pids & Hrun & Hi' & Ha' & Hle' & Hfs & Hrs).
      { intros x. rewrite Hn. apply Hseen. }
      exists st', (partition_cnt st1 :: pids). cbn [run_callback]. rewrite Hcb, Hrun.
      split_and!; try done.
      * lia.
      * cbn [first_seen]. rewrite decide_True.
        -- by rewrite Hfs, Hn.
        -- apply Hseen. rewrite Hn. apply prev_eq_true in He.
           destruct Hinv as (_ & _ & _ & Hsome). destruct (Hsome _ He). lia.
      * rewrite Hrs, Hr1, fmap_cons. simpl. by rewrite app_assoc.
    + destruct (Hflip eq_refl) as (Hp & Hn & _).
      destruct (IH st1 (partition_cnt st1 :: seen) Hrest Hinv1 Halt1)
        as (st' & pids & Hrun & Hi' & Ha' & Hle' & Hfs & Hrs).
      { intros x. rewrite elem_of_cons, Hseen, Hn. destruct Hinv as (H0 & _). lia. }
      exists st', (partition_cnt st1 :: pids). cbn [run_callback]. rewrite Hcb, Hrun.
      split_and!; try done.
      * lia.
      * cbn [first_seen]. rewrite decide_False by (rewrite Hseen, Hn; lia).
        rewrite Hfs, Hn.
        rewrite (seqZ_cons (partition_cnt st + 1)) by lia.
        f_equal. f_equal; lia.
      * rewrite Hrs, Hr1, fmap_cons. simpl. by rewrite app_assoc.
Qed.

Lemma cb_init_alternating : alternating cb_init.
Proof. intros p b. done. Qed.

Lemma partition_pass_shape gm :
  ∃ st pids,
    partition_pass pred ctx gm = (st, inr pids)
    ∧ cb_inv st ∧ alternating st
    ∧ partition_ids pids = seqZ 1 (partition_cnt st)
    ∧ split_reasons st = concat (node_reasons pred ctx <$> call_nodes gm).
Proof.
  destruct (run_callback_shape (call_nodes gm) cb_init [] (call_nodes_Forall gm)
              (cb_init_inv) cb_init_alternating)
    as (st & pids & Hrun & Hinv & Halt & _ & Hfs & Hrs).
  { intros x. rewrite elem_of_nil. simpl. lia. }
  exists st, pids. split_and!; try done.
  unfold partition_ids. rewrite Hfs. simpl. f_equal. lia.
Qed.
End PartitionShape.

Lemma assign_ids_uniform b bs c :
  Forall (λ x, x = b) bs → assign_ids (Some b) c bs = replicate (length bs) c.
Proof.
  induction 1 as [|x bs -> _ IH]; simpl; [done|].
  by rewrite Bool.eqb_reflx, IH.
Qed.

Lemma first_seen_all_seen seen pids :
  (∀ p, p ∈ pids → p ∈ seen) → first_seen seen pids = [].
Proof.
  induction pids as [|p pids IH]; intros H; simpl; [done|].
  rewrite decide_True by (apply H; apply list_elem_of_here).
  apply IH. intros q Hq. apply H. by apply list_elem_of_further.
Qed.

(** Partitions alternate between the two backends: of two consecutive
    identifiers exactly one is in [supported_partitions]. *)
Theorem supported_partitions_alternate pred ctx gm :
  ∃ st pids,
    partition_pass pred ctx gm = (st, inr pids)
    ∧ ∀ p, 1 ≤ p → p < partition_cnt st →
        (p ∈ supported_partitions st ↔ p + 1 ∉ supported_partitions st).
Proof.
  destruct (partition_pass_shape pred ctx gm) as (st & pids & Hrun & Hinv & Halt & _).
  exists st, pids. split; [done|]. intros p Hp1 Hp2.
  destruct Hinv as (_ & _ & Hnone & _).
  destruct (prev_value st) as [b|] eqn:Hprev; [|specialize (Hnone eq_refl); lia].
  rewrite (Halt p b Hprev) by lia. rewrite (Halt (p + 1) b Hprev) by lia.
  replace (partition_cnt st - p) with (Z.succ (partition_cnt st - (p + 1))) by lia.
  rewrite Z.even_succ, <- Z.negb_even.
  destruct (Z.even (partition_cnt st - (p + 1))), b; simpl; split; congruence.
Qed.

(** The identifiers in use are 1, 2, ..., [partition_cnt] without a gap, in
    that order of first appearance; every supported identifier is in use. *)
Theorem partition_ids_are_consecutive pred ctx gm :
  ∃ st pids,
    partition_pass pred ctx gm = (st, inr pids)
    ∧ partition_ids pids = seqZ 1 (partition_cnt st)
    ∧ (∀ p, p ∈ pids ↔ 1 ≤ p ∧ p ≤ partition_cnt st)
    ∧ (∀ p, p ∈ supported_partitions st → p ∈ pids)
    ∧ length (partition_ids pids) = Z.to_nat (partition_cnt st).
Proof.
  destruct (partition_pass_shape pred ctx gm) as (st & pids & Hrun & Hinv & _ & Hids & _).
  exists st, pids. split; [done|].
  assert (Hmem : ∀ p, p ∈ pids ↔ 1 ≤ p ∧ p ≤ partition_cnt st).
  { intros p. rewrite <- partition_ids_elem, Hids, elem_of_seqZ. lia. }
  split_and!; [done|done| |].
  - intros p Hp. apply Hmem. destruct Hinv as (_ & Hs & _). by apply Hs.
  - by rewrite Hids, length_seqZ.
Qed.

(** The reasons come out in program order: one per call-type node that has
    one, whether the node ends up supported or not, and the pass returns the
    same list. *)
Theorem split_reasons_in_program_order pred ctx gm :
  ∃ st pids,
    partition_pass pred ctx gm = (st, inr pids)
    ∧ split_reasons st = concat (node_reasons pred ctx <$> call_nodes gm)
    ∧ (inputs_ok gm →
       ∃ st' info,
         _splitter pred ctx gm = (st', inr (split_graph_module info, info))
         ∧ split_reasons_info info
           = concat (node_reasons pred ctx <$> call_nodes gm)).
Proof.
  destruct (partition_pass_shape pred ctx gm) as (st & pids & Hrun & _ & _ & _ & Hrs).
  exists st, pids. split_and!; [done|done|].
  intros Hok.
  destruct (splitter_spec pred ctx gm Hok) as (cb & pids' & st1 & Hrun' & _ & Hsp).
  rewrite Hrun in Hrun'. injection Hrun' as <- <-.
  eexists _, (mkSubgraphInfo _ _ _ _ _ _). split; [exact Hsp|]. exact Hrs.
Qed.

Lemma split_reasons_in_program_order_demo :
  inputs_ok demo_graph
  ∧ ∃ st' info,
      _splitter demo_supported ∅ demo_graph = (st', inr (split_graph_module info, info))
      ∧ split_reasons_info info
        = [mkSplitReason MISSING_OP_SUPPORT "sinc has no thunder equivalent"].
Proof.
  split; [reflexivity|].
  destruct (split_reasons_in_program_order demo_supported ∅ demo_graph)
    as (st & pids & _ & _ & Hret).
  destruct (Hret eq_refl) as (st' & info & Hs & Hrs).
  exists st', info. split; [exact Hs|]. rewrite Hrs. reflexivity.
Defined.

(** When every call-type node has the same classification there is one
    partition: every node gets identifier 1, and the supported set is {1} or
    empty. *)
Theorem uniform_support_single_partition pred ctx gm b :
  call_nodes gm ≠ [] →
  (∀ n, n ∈ call_nodes gm → is_thunder_supported pred ctx n = b) →
  ∃ st,
    partition_pass pred ctx gm = (st, inr (replicate (length (call_nodes gm)) 1))
    ∧ partition_cnt st = 1
    ∧ supported_partitions st = (if b then {[ 1 ]} else ∅).
Proof.
  intros Hne Hall.
  destruct (partition_pass_spec pred ctx gm) as (st & Hrun & Hinv & Hmem).
  destruct (partition_pass_shape pred ctx gm) as (st' & pids & Hrun' & _ & _ & Hids & _).
  rewrite Hrun in Hrun'. injection Hrun' as <- <-.
  assert (Hpids : assign_ids None 0 (is_thunder_supported pred ctx <$> call_nodes gm)
                  = replicate (length (call_nodes gm)) 1).
  { destruct (call_nodes gm) as [|n rest]; [done|].
    rewrite fmap_cons. cbn [assign_ids prev_eq]. rewrite (Hall n) by apply list_elem_of_here.
    rewrite (assign_ids_uniform b), length_fmap; [done|].
    apply Forall_fmap, Forall_forall. intros x Hx. simpl. apply Hall.
    by apply list_elem_of_further. }
  rewrite Hpids in *.
  assert (Hcnt : partition_cnt st = 1).
  { destruct (call_nodes gm) as [|n rest]; [done|].
    unfold partition_ids in Hids. simpl in Hids.
    rewrite first_seen_all_seen in Hids.
    2:{ intros p ->%elem_of_replicate_inv. apply list_elem_of_here. }
    assert (Hlen : length (seqZ 1 (partition_cnt st)) = 1%nat) by by rewrite <- Hids.
    rewrite length_seqZ in Hlen. lia. }
  exists st. split_and!; [done|done|].
  destruct (call_nodes gm) as [|n rest] eqn:Hc; [done|].
  pose proof (Hmem 0%nat n 1 eq_refl eq_refl) as H1.
  rewrite (Hall n) in H1 by apply list_elem_of_here.
  destruct Hinv as (_ & Hs & _). apply set_eq. intros p. destruct b.
  - rewrite elem_of_singleton. split.
    + intros Hp%Hs. lia.
    + intros ->. by apply H1.
  - split; [|by intros ?%not_elem_of_empty].
    intros Hp. pose proof (Hs p Hp). assert (p = 1) as -> by lia.
    apply H1 in Hp. done.
Qed.

Lemma uniform_support_single_partition_demo :
  ∃ st,
    partition_pass demo_supported ∅ sin_graph = (st, inr [1])
    ∧ partition_cnt st = 1
    ∧ supported_partitions st = {[ 1 ]}.
Proof.
  apply (uniform_support_single_partition demo_supported ∅ sin_graph true).
  - discriminate.
  - intros n Hn. vm_compute in Hn.
    apply elem_of_cons in Hn as [-> | Hn]; [reflexivity|].
    by apply elem_of_nil in Hn.
Defined.

(** [callback] only ever adds to the closure state: the flag is never
    cleared, reasons are only appended (at most one per call), the counter
    goes up by at most one, identifiers are never withdrawn, and a failed
    assertion leaves the state as it was. *)
Theorem callback_only_adds pred ctx st node st' r :
  callback pred ctx st node = (st', r) →
  (has_thunder_tracable_checkpoint st = true →
   has_thunder_tracable_checkpoint st' = true)
  ∧ (∃ ext, split_reasons st' = split_reasons st ++ ext ∧ (length ext ≤ 1)%nat)
  ∧ partition_cnt st ≤ partition_cnt st' ∧ partition_cnt st' ≤ partition_cnt st + 1
  ∧ supported_partitions st ⊆ supported_partitions st'
  ∧ (∀ e, r = inl e → st' = st).
Proof.
  intros Hcb.
  destruct (is_call_op (op node)) eqn:Hc.
  - destruct (callback_fields pred ctx st node Hc) as (st1 & Hcb1 & Hsame & Hflip).
    rewrite Hcb in Hcb1. injection Hcb1 as <- ->.
    destruct (callback_effects pred ctx _ _ _ _ Hcb) as (_ & Hreas & Hflag).
    destruct (classify_effects pred ctx st node) as (Hreas1 & Hflag1).
    split_and!.
    + intros Hf. by rewrite Hflag, Hflag1, Hf.
    + eexists. split; [by rewrite Hreas, Hreas1|].
      destruct (decide (nid node ∈ ctx)); [done|].
      destruct (snd (pred node)); simpl; lia.
    + destruct (prev_eq (prev_value st) (is_thunder_supported pred ctx node));
        [destruct (Hsame eq_refl) as (_ & -> & _)|destruct (Hflip eq_refl) as (_ & -> & _)];
        lia.
    + destruct (prev_eq (prev_value st) (is_thunder_supported pred ctx node));
        [destruct (Hsame eq_refl) as (_ & -> & _)|destruct (Hflip eq_refl) as (_ & -> & _)];
        lia.
    + destruct (prev_eq (prev_value st) (is_thunder_supported pred ctx node)).
      * by destruct (Hsame eq_refl) as (_ & _ & ->).
      * destruct (Hflip eq_refl) as (_ & _ & ->).
        destruct (is_thunder_supported pred ctx node); [apply union_subseteq_r|done].
    + done.
  - rewrite callback_structural in Hcb by done. injection Hcb as <- <-.
    split_and!; try done.
    + exists []. split; [by rewrite app_nil_r|simpl; lia].
    + lia.
Qed.

Lemma callback_only_adds_demo :
  partition_cnt cb_init
  ≤ partition_cnt
      (fst (callback demo_supported ∅ cb_init
              (mkNode 1 "sin" call_function (torch_callable "sin")))).
Proof.
  exact (proj1 (proj2 (proj2
           (callback_only_adds demo_supported ∅ cb_init
              (mkNode 1 "sin" call_function (torch_callable "sin")) _ _ eq_refl)))).
Defined.

(** ** More on the assembly phase *)

Lemma omap_concat_imap_from {A B C} (f : B -> option C) (g : nat -> A -> list B)
    (h : nat -> A -> list C) (l : list A) :
  (∀ i x, omap f (g i x) = h i x) →
  ∀ off, omap f (concat (imap_from g off l)) = concat (imap_from h off l).
Proof.
  intros Hgh. induction l as [|a l IH]; intros off; simpl; [done|].
  by rewrite omap_app, Hgh, IH.
Qed.

Lemma concat_imap_from_singleton {A C} (h : nat -> A -> C) (l : list A) : ∀ off,
  concat (imap_from (λ i x, [h i x]) off l) = imap_from h off l.
Proof. induction l as [|a l IH]; intros off; simpl; [done|by rewrite IH]. Qed.

(** Each partition is handed to exactly one compiler, once, in the order of
    the call nodes; there are [partition_cnt] compiler calls, and
    [thunder_compiled_fns] lists what the primary backend returned, in that
    order. *)
Theorem partitions_compiled_once_in_order pred ctx gm :
  inputs_ok gm →
  ∃ cb pids st info,
    partition_pass pred ctx gm = (cb, inr pids)
    ∧ _splitter pred ctx gm = (st, inr (split_graph_module info, info))
    ∧ omap compile_call (trace st)
      = imap_from
          (λ i p, (brand_of (supported_partitions cb) p,
                   sub_loc (has_thunder_tracable_checkpoint cb) (partition_ids pids) i,
                   fn_loc (has_thunder_tracable_checkpoint cb) (partition_ids pids) i))
          0 (partition_ids pids)
    ∧ length (omap compile_call (trace st)) = Z.to_nat (partition_cnt cb)
    ∧ thunder_compiled_fns info = omap thunder_callable (trace st).
Proof.
  intros Hok.
  destruct (splitter_spec pred ctx gm Hok) as (cb & pids & st1 & Hrun & Hinv & Hsp).
  destruct (partition_pass_shape pred ctx gm) as (cb' & pids' & Hrun' & _ & _ & Hids & _).
  rewrite Hrun in Hrun'. injection Hrun' as <- <-.
  assert (Hlen : length (partition_ids pids) = Z.to_nat (partition_cnt cb))
    by (by rewrite Hids, length_seqZ).
  eexists cb, pids, _, (mkSubgraphInfo _ _ _ _ _ _).
  split; [done|]. split; [exact Hsp|].
  cbn [split_graph_module thunder_compiled_fns trace].
  destruct Hinv as (_ & _ & _ & _ & _ & Hacc & _ & Htr).
  set (parts := partition_ids pids) in *.
  set (flag := has_thunder_tracable_checkpoint cb) in *.
  assert (Hcalls : omap compile_call (trace st1 ++ [EvRecompile (split_loc flag parts)])
                   = imap_from (λ i p, (brand_of (supported_partitions cb) p,
                                        sub_loc flag parts i, fn_loc flag parts i))
                       0 parts).
  { rewrite Htr, !omap_app. simpl. rewrite app_nil_r.
    assert (omap compile_call (pre_trace flag parts) = []) as ->.
    { unfold pre_trace. by destruct flag. }
    simpl.
    rewrite (omap_concat_imap_from _ _
               (λ i p, [(brand_of (supported_partitions cb) p,
                         sub_loc flag parts i, fn_loc flag parts i)])).
    - apply concat_imap_from_singleton.
    - intros i p. unfold part_events, submod_events.
      by destruct (brand_of (supported_partitions cb) p). }
  split_and!.
  - exact Hcalls.
  - by rewrite Hcalls, imap_from_length.
  - rewrite Hacc, Htr, !omap_app. simpl. rewrite app_nil_r.
    assert (omap thunder_callable (pre_trace flag parts) = []) as ->.
    { unfold pre_trace. by destruct flag. }
    simpl. symmetry. apply omap_concat_imap_from.
    intros i p. unfold part_events, submod_events, part_fns.
    by destruct (brand_of (supported_partitions cb) p).
Qed.

Lemma partitions_compiled_once_in_order_demo :
  inputs_ok demo_graph
  ∧ ∃ st info,
      _splitter demo_supported ∅ demo_graph = (st, inr (split_graph_module info, info))
      ∧ thunder_compiled_fns info = omap thunder_callable (trace st).
Proof.
  split; [reflexivity|].
  destruct (partitions_compiled_once_in_order demo_supported ∅ demo_graph eq_refl)
    as (cb & pids & st & info & _ & Hs & _ & _ & Hfns).
  exists st, info. split; [exact Hs|exact Hfns].
Defined.

(** [recompile_graph] is called once, on the returned split graph, after
    every other collaborator call. *)
Theorem recompile_once_at_end pred ctx gm :
  inputs_ok gm →
  ∃ st info evs,
    _splitter pred ctx gm = (st, inr (split_graph_module info, info))
    ∧ trace st = evs ++ [EvRecompile (split_graph_module info)]
    ∧ Forall (λ e, is_recompile_event e = false) evs.
Proof.
  intros Hok.
  destruct (splitter_spec pred ctx gm Hok) as (cb & pids & st1 & Hrun & Hinv & Hsp).
  eexists _, (mkSubgraphInfo _ _ _ _ _ _), _.
  split; [exact Hsp|]. cbn [split_graph_module trace]. split; [done|].
  destruct Hinv as (_ & _ & _ & _ & _ & _ & _ & ->).
  apply Forall_app. split.
  - unfold pre_trace. destruct (has_thunder_tracable_checkpoint cb); by repeat constructor.
  - apply Forall_forall. intros e (i & p & _ & He)%elem_of_concat_imap_from.
    unfold part_events, submod_events in He.
    destruct (brand_of (supported_partitions cb) p); simpl in He;
      repeat (apply elem_of_cons in He as [-> | He]; [done|]);
      by apply elem_of_nil in He.
Qed.

Lemma recompile_once_at_end_demo :
  inputs_ok demo_graph
  ∧ ∃ st info evs,
      _splitter demo_supported ∅ demo_graph = (st, inr (split_graph_module info, info))
      ∧ trace st = evs ++ [EvRecompile (split_graph_module info)].
Proof.
  split; [reflexivity|].
  destruct (recompile_once_at_end demo_supported ∅ demo_graph eq_refl)
    as (st & info & evs & Hs & Htr & _).
  exists st, info, evs. split; [exact Hs|exact Htr].
Defined.





(** ** Edge cases of a pass *)

(** A graph without call nodes gives no partition: the pass returns the
    parent module made of the glue nodes alone, compiles nothing, records
    nothing, and only recompiles that module. *)
Theorem pass_without_call_nodes pred ctx gm :
  call_nodes gm = [] →
  inputs_ok gm →
  ∃ st info,
    _splitter pred ctx gm = (st, inr (0%nat, info))
    ∧ heap st = [GraphModule (graph_inputs gm ++ graph_outputs gm) []]
    ∧ trace st = [EvRecompile 0]
    ∧ info = mkSubgraphInfo gm 0%nat 0%nat [] ∅ [].
Proof.
  intros Hcalls Hok.
  destruct (splitter_spec pred ctx gm Hok) as (cb & pids & st1 & Hrun & Hinv & Hsp).
  unfold partition_pass in Hrun. rewrite Hcalls in Hrun. simpl in Hrun.
  injection Hrun as <- <-.
  change (partition_ids []) with (@nil Z) in *.
  cbn [has_thunder_tracable_checkpoint supported_partitions split_reasons cb_init] in *.
  destruct Hinv as (Hlen & _ & Hsplit & _ & _ & Hacc & Hdict & Htr).
  unfold split_loc, base_loc, origin_loc in *. simpl in *.
  eexists _, _. split; [exact Hsp|]. cbn [heap trace].
  destruct (heap st1) as [|o [|o' h]] eqn:Hheap; simpl in Hlen; try lia.
  simpl in Hsplit. injection Hsplit as ->.
  split_and!; [done|by rewrite Htr|].
  rewrite Hacc. f_equal. apply map_eq. intros k. by rewrite Hdict, lookup_empty.
Qed.

Lemma pass_without_call_nodes_demo :
  call_nodes identity_graph = [] ∧ inputs_ok identity_graph
  ∧ ∃ st info,
      _splitter demo_supported ∅ identity_graph = (st, inr (0%nat, info))
      ∧ heap st = [GraphModule (graph_inputs identity_graph
                                ++ graph_outputs identity_graph) []]
      ∧ trace st = [EvRecompile 0]
      ∧ info = mkSubgraphInfo identity_graph 0%nat 0%nat [] ∅ [].
Proof.
  split; [reflexivity|]. split; [reflexivity|].
  exact (pass_without_call_nodes demo_supported ∅ identity_graph eq_refl eq_refl).
Defined.

(** When the first glue node of the graph has a name that starts with
    [submod] and whose remainder is not an integer literal, the assembly loop
    raises [ValueError] on it: nothing has been compiled and the compiled
    function lists are still empty. *)
Theorem submod_named_input_raises pred ctx gm n rest :
  graph_inputs gm = n :: rest →
  String.prefix "submod" (name n) = true →
  py_int (replace "submod_" "" (name n)) = None →
  ∃ st,
    _splitter pred ctx gm = (st, inl (ValueError (replace "submod_" "" (name n))))
    ∧ Forall (λ e, is_compile_event e = false) (trace st)
    ∧ compiled_fns_acc st = []
    ∧ submodule_to_compiled_fns st = ∅.
Proof.
  intros Hins Hpre Hint.
  destruct (partition_pass_spec pred ctx gm) as (cb & Hrun & _).
  set (pids := assign_ids None 0 (is_thunder_supported pred ctx <$> call_nodes gm)) in *.
  set (flag := has_thunder_tracable_checkpoint cb).
  set (parts := partition_ids pids).
  set (body := partition_body (call_nodes gm) pids).
  exists (loop_start flag body parts (graph_inputs gm) (graph_outputs gm) (fresh_nid gm)).
  split.
  - unfold _splitter. rewrite Hrun.
    erewrite bind_ok by apply split_module_eq.
    unfold assemble. erewrite bind_ok by apply assemble_start.
    destruct (loop_start_inv (supported_partitions cb) flag body parts (graph_inputs gm)
                (graph_outputs gm) (fresh_nid gm)) as (_ & _ & Hsplit & _).
    cbn [imap_from app length] in Hsplit.
    fold flag parts body.
    set (start := loop_start flag body parts (graph_inputs gm) (graph_outputs gm)
                    (fresh_nid gm)) in *.
    erewrite bind_ok by (by eapply graph_nodes_eq).
    rewrite Hins in *. cbn [app length seq for_each].
    apply bind_err. apply bind_err. unfold assemble_node.
    erewrite bind_ok by (by eapply get_node_eq).
    apply bind_err. unfold is_thunder_supported_partition.
    rewrite Hpre. apply bind_err. by rewrite Hint.
  - unfold loop_start, pre_trace. destruct flag; simpl; split_and!; try done.
    by repeat constructor.
Qed.

Lemma submod_named_input_raises_demo :
  ∃ st,
    _splitter demo_supported ∅ submodule_graph = (st, inl (ValueError "submodule"))
    ∧ Forall (λ e, is_compile_event e = false) (trace st)
    ∧ compiled_fns_acc st = []
    ∧ submodule_to_compiled_fns st = ∅.
Proof.
  exact (submod_named_input_raises demo_supported ∅ submodule_graph
           (mkNode 0 "submodule" placeholder (attr_name "submodule")) []
           eq_refl eq_refl eq_refl).
Defined.

(** * Properties of thunder/core/baseutils.py *)

Section CheckFacts.
Import baseutils.
Variable str_value : value -> string.
Variable str_class : pyclass -> string.
Variable str_classinfo : classinfo -> string.

Local Abbreviation valid_length := (check_valid_length str_value str_class str_classinfo).
Local Abbreviation valid_shape := (check_valid_shape str_value str_class str_classinfo).

Lemma check_valid_length_ok x : valid_length x = inr tt ↔ is_length x.
Proof.
  unfold is_length. split.
  - intros H. destruct x as [|b|z| | | |o]; try discriminate H.
    + exists (Z.b2z b). split; [done|]. destruct b; simpl; lia.
    + exists z. split; [done|].
      unfold check_valid_length, check_type, check, ge_zero in H. simpl in H.
      destruct (0 <=? z) eqn:Hz; [lia|discriminate H].
    + destruct o; discriminate H.
  - intros (z & Hx & Hz). destruct x as [|b|z'| | | |o]; try discriminate Hx.
    + by destruct b.
    + injection Hx as ->.
      unfold check_valid_length, check_type, check, ge_zero. simpl.
      destruct (0 <=? z) eqn:Hz'; [done|lia].
Qed.

Lemma for_each_valid items :
  for_each valid_length items = inr tt ↔ Forall is_length items.
Proof.
  induction items as [|x r IH]; simpl.
  - split; [constructor|done].
  - rewrite Forall_cons, <- IH, <- check_valid_length_ok.
    unfold mbind, result_bind.
    destruct (valid_length x) as [e|[]]; [|tauto].
    split; [done|]. by intros [? _].
Qed.

(** [check_valid_length] returns exactly on the instances of [int], [True]
    and [False] included, that are not negative; it raises [ValueError] on
    anything that is not an [int] and [RuntimeError], with the length in the
    message, on a negative [int]. *)
Theorem check_valid_length_outcome x :
  match valid_length x with
  | inr _ => is_length x
  | inl (ValueError _) => as_int x = None
  | inl (RuntimeError msg) =>
      (∃ z, x = VInt z ∧ z < 0)
      ∧ msg = ("Found invalid length " ++ str_value x ++ "!")%string
  | inl (AttributeError _) => False
  end.
Proof.
  destruct (valid_length x) as [e|[]] eqn:H.
  - destruct x as [|b|z| | | |o]; try (injection H as <-; done).
    + by destruct b.
    + unfold check_valid_length, check_type, check, ge_zero in H. simpl in H.
      destruct (0 <=? z) eqn:Hz; [done|]. simpl in H. injection H as <-.
      split; [|done]. exists z. split; [done|lia].
    + destruct o; injection H as <-; done.
  - by apply check_valid_length_ok.
Qed.

(** [check_valid_shape] returns exactly on the tuples and lists, the empty
    ones included, all of whose items are valid lengths. *)
Theorem check_valid_shape_ok shape :
  valid_shape shape = inr tt
  ↔ ∃ items, (shape = VTuple items ∨ shape = VList items) ∧ Forall is_length items.
Proof.
  unfold check_valid_shape. split.
  - intros H. destruct shape as [| | | |items|items|o]; try discriminate H.
    + exists items. split; [by left|]. by apply for_each_valid.
    + exists items. split; [by right|]. by apply for_each_valid.
    + destruct o; discriminate H.
  - intros (items & [-> | ->] & Hall); by apply for_each_valid.
Qed.

(** On a tuple or list, [check_valid_shape] raises what [check_valid_length]
    raises on the first item that is not a valid length; the items after it
    are not examined. *)
Theorem check_valid_shape_first_failure shape good bad rest e :
  isinstance shape (Classes [c_tuple; c_list]) = true →
  iter shape = (good ++ bad :: rest)%list →
  Forall is_length good →
  valid_length bad = inl e →
  valid_shape shape = inl e.
Proof.
  intros Hty Hiter Hgood Hbad. unfold check_valid_shape, check_type, check.
  rewrite Hty, Hiter. simpl. clear Hty Hiter.
  induction Hgood as [|x good Hx _ IH]; simpl.
  - by rewrite Hbad.
  - apply check_valid_length_ok in Hx. by rewrite Hx.
Qed.
End CheckFacts.

Lemma check_valid_shape_first_failure_demo :
  baseutils.check_valid_shape (λ _, "x") (λ _, "t") (λ _, "ts")
    (baseutils.VTuple [baseutils.VInt 2; baseutils.VBool true; baseutils.VInt (-1);
                       baseutils.VStr "a"])
  = inl (baseutils.RuntimeError "Found invalid length x!").
Proof.
  apply (check_valid_shape_first_failure (λ _, "x") (λ _, "t") (λ _, "ts")
           (baseutils.VTuple [baseutils.VInt 2; baseutils.VBool true; baseutils.VInt (-1);
                              baseutils.VStr "a"])
           [baseutils.VInt 2; baseutils.VBool true] (baseutils.VInt (-1))
           [baseutils.VStr "a"]).
  - reflexivity.
  - reflexivity.
  - repeat constructor; [exists 2|exists 1]; split; (reflexivity || lia).
  - reflexivity.
Defined.

(** ** [sequencify] and [is_collection] *)

(** [sequencify] is idempotent, and what it returns is always a collection
    in the sense of [is_collection], never a bare string. *)
Theorem sequencify_idempotent (x : baseutils.value) :
  baseutils.sequencify (baseutils.sequencify x) = baseutils.sequencify x
  ∧ baseutils.is_collection (baseutils.sequencify x) = true
  ∧ baseutils.isinstance (baseutils.sequencify x) (baseutils.Class baseutils.c_str)
    = false.
Proof. destruct x as [| | | | | |o]; try done. by destruct o. Qed.

(** ** [indent] *)

Lemma string_length_app (a b : string) :
  String.length (a ++ b)%string = (String.length a + String.length b)%nat.
Proof. induction a as [|x a IH]; [done|]. rewrite append_String. simpl. by rewrite IH. Qed.

Lemma str_mul_length s n : String.length (baseutils.str_mul s n) = (n * String.length s)%nat.
Proof.
  induction n as [|n IH]; simpl; [done|].
  rewrite string_length_app, IH. done.
Qed.

Lemma str_mul_add s a b :
  baseutils.str_mul s (a + b) = (baseutils.str_mul s a ++ baseutils.str_mul s b)%string.
Proof.
  induction a as [|a IH]; simpl; [done|]. by rewrite IH, string_app_assoc.
Qed.

Lemma str_mul_chars P s n :
  all_chars P s = true → all_chars P (baseutils.str_mul s n) = true.
Proof.
  intros Hs. induction n as [|n IH]; simpl; [done|]. by apply all_chars_app.
Qed.

(** [indent] gives two spaces per level and nothing else, and the empty
    string for a level of zero or below. *)
Theorem indent_length (level : Z) :
  String.length (baseutils.indent level) = Z.to_nat (2 * level)
  ∧ all_chars (Ascii.eqb " ") (baseutils.indent level) = true
  ∧ (level ≤ 0 → baseutils.indent level = "").
Proof.
  unfold baseutils.indent. split_and!.
  - rewrite str_mul_length. simpl. lia.
  - by apply str_mul_chars.
  - intros Hle. by replace (Z.to_nat level) with 0%nat by lia.
Qed.

(** Indentation adds up: for levels that are not negative, the indentation of
    a sum is the concatenation of the indentations. *)
Theorem indent_add (a b : Z) :
  0 ≤ a → 0 ≤ b →
  baseutils.indent (a + b) = (baseutils.indent a ++ baseutils.indent b)%string.
Proof.
  intros Ha Hb. unfold baseutils.indent.
  rewrite Z2Nat.inj_add by done. apply str_mul_add.
Qed.

Lemma indent_add_demo :
  baseutils.indent (1 + 2) = (baseutils.indent 1 ++ baseutils.indent 2)%string.
Proof. apply (indent_add 1 2); lia. Defined.

(** ** [print_type] and its regular expression *)

Section RegexFacts.
Import baseutils.

Local Abbreviation no_quote s := (all_chars (λ c, negb (Ascii.eqb c quote)) s = true).
Local Abbreviation no_newline s := (all_chars (λ c, negb (is_newline c)) s = true).

(** A continuation that only goes on when a quote comes next. *)
Local Abbreviation wants_quote k :=
  (∀ (m r : string),
     match r with String c _ => Ascii.eqb c quote | EmptyString => false end = false →
     k m r = None).

Lemma no_quote_head s :
  no_quote s → match s with String c _ => Ascii.eqb c quote | EmptyString => false end = false.
Proof.
  destruct s as [|c r]; [done|]. simpl. intros [H _]%andb_true_iff.
  by apply negb_true_iff.
Qed.

Lemma lit_quote_wants {A} (k : string -> string -> option A) :
  wants_quote (λ m, lit quote (k m)).
Proof. intros m [|c r] H; simpl in *; [done|]. by rewrite H. Qed.

Lemma dot_star_some (x : string) s : dot_star (λ _, Some x) s = Some x.
Proof.
  induction s as [|c r IH]; simpl; [done|].
  destruct (is_newline c); [done|]. by rewrite IH.
Qed.

Lemma dot_plus_no_quote {A} s : ∀ (k : string -> string -> option A),
  wants_quote k → no_quote s → dot_plus k s = None.
Proof.
  induction s as [|c r IH]; intros k Hk Hs; simpl; [done|].
  simpl in Hs. apply andb_true_iff in Hs as [_ Hr].
  destruct (is_newline c); [done|].
  rewrite IH; [|by intros m r' H; apply Hk|done].
  apply Hk. by apply no_quote_head.
Qed.

Lemma dot_plus_closing_quote {A} (k : string -> string -> option A) post :
  wants_quote k → no_quote post → dot_plus k (String quote post) = None.
Proof.
  intros Hk Hpost. simpl.
  rewrite dot_plus_no_quote; [|by intros m r' H; apply Hk|done].
  apply Hk. by apply no_quote_head.
Qed.

(** The group takes the whole of a name without quotes. *)
Lemma group_takes_name name : ∀ (f : string -> string) post,
  name ≠ "" → no_newline name → no_quote name → no_quote post →
  dot_plus (λ g, lit quote (dot_star (λ _, Some (f g)))) (name ++ String quote post)
  = Some (f name).
Proof.
  induction name as [|c r IH]; intros f post Hne Hnl Hq Hpost; [done|].
  rewrite append_String. simpl in *.
  apply andb_true_iff in Hnl as [Hc Hnl]. apply andb_true_iff in Hq as [_ Hq].
  apply negb_true_iff in Hc. rewrite Hc.
  destruct r as [|c' r'].
  - rewrite append_Empty.
    rewrite (dot_plus_closing_quote _ post);
      [|apply (lit_quote_wants (λ m, dot_star (λ _, Some (f (String c m)))))|done].
    simpl. apply dot_star_some.
  - by rewrite (IH (λ m, f (String c m)) post).
Qed.

Local Abbreviation after_prefix :=
  (λ _ : string, lit quote (dot_plus (λ group1, lit quote (dot_star (λ _, Some group1))))).

Lemma prefix_stops_before_name name : ∀ post,
  no_quote name → no_quote post →
  dot_plus after_prefix (name ++ String quote post) = None.
Proof.
  induction name as [|c r IH]; intros post Hq Hpost.
  - rewrite append_Empty. apply dot_plus_closing_quote; [|done].
    apply (lit_quote_wants (λ _, dot_plus _)).
  - rewrite append_String. simpl in *. apply andb_true_iff in Hq as [_ Hq].
    destruct (is_newline c); [done|].
    rewrite (IH post) by done.
    destruct r as [|c' r'].
    + rewrite append_Empty. simpl.
      apply dot_plus_no_quote; [|done]. apply (lit_quote_wants (λ g, dot_star _)).
    + rewrite append_String. simpl in *. apply andb_true_iff in Hq as [Hc' _].
      apply negb_true_iff in Hc'. by rewrite Hc'.
Qed.

Lemma match_here_last_name pre : ∀ name post,
  pre ≠ "" → no_newline pre →
  name ≠ "" → no_newline name → no_quote name → no_quote post →
  match_here (pre ++ String quote (name ++ String quote post)) = Some name.
Proof.
  unfold match_here.
  induction pre as [|c p IH]; intros name post Hpre Hnlp Hne Hnl Hq Hpost; [done|].
  rewrite append_String. simpl in *.
  apply andb_true_iff in Hnlp as [Hc Hnlp]. apply negb_true_iff in Hc. rewrite Hc.
  destruct p as [|c' p'].
  - rewrite append_Empty. simpl.
    rewrite (prefix_stops_before_name name post) by done.
    assert (lit quote
              (dot_plus (λ group1, lit quote (dot_star (λ _, Some group1))))
              (name ++ String quote post) = None) as ->.
    { destruct name as [|x name']; [done|]. rewrite append_String. simpl in *.
      apply andb_true_iff in Hq as [Hx _]. apply negb_true_iff in Hx. by rewrite Hx. }
    apply (group_takes_name name (λ g, g) post); done.
  - by rewrite (IH name post).
Qed.

Lemma search_no_quote s : no_quote s → search s = None.
Proof.
  induction s as [|c r IH]; intros Hs; [done|].
  cbn [search].
  unfold match_here at 1.
  rewrite dot_plus_no_quote; [|apply (lit_quote_wants (λ _, dot_plus _))|done].
  apply IH. simpl in Hs. by apply andb_true_iff in Hs as [_ ?].
Qed.

(** When [str(typ)] ends in a quoted name that holds no quote itself,
    followed by text without quotes, [print_type] returns that name between
    quotes, whatever comes before it on the line: of several quoted names
    the last one is printed. *)
Theorem print_type_last_quoted_name pre name post :
  pre ≠ "" → no_newline pre →
  name ≠ "" → no_newline name → no_quote name → no_quote post →
  print_type (ty_other (pre ++ "'" ++ name ++ "'" ++ post))
  = inr ("'" ++ name ++ "'")%string.
Proof.
  intros Hpre Hnlp Hne Hnl Hq Hpost. unfold print_type.
  change (dict_get (ty_other (pre ++ "'" ++ name ++ "'" ++ post)%string) _type_to_str_map)
    with (@None string).
  cbn [str_of].
  replace (pre ++ "'" ++ name ++ "'" ++ post)%string
    with (pre ++ String quote (name ++ String quote post))%string by done.
  assert (Hm := match_here_last_name pre name post Hpre Hnlp Hne Hnl Hq Hpost).
  destruct pre as [|c p]; [done|]. rewrite append_String in *.
  cbn [search]. by rewrite Hm.
Qed.

(** When [str(typ)] holds no quote, the search finds nothing and
    [print_type] raises [AttributeError]. *)
Theorem print_type_without_quote s :
  no_quote s →
  ∃ msg, print_type (ty_other s) = inl (AttributeError msg).
Proof.
  intros Hs. unfold print_type.
  change (dict_get (ty_other s) _type_to_str_map) with (@None string).
  cbn [str_of]. rewrite search_no_quote by done. by eexists.
Qed.

End RegexFacts.

Lemma print_type_last_quoted_name_demo :
  baseutils.print_type (baseutils.ty_other "<class 'thunder.core.proxies.TensorProxy'>")
  = inr "'thunder.core.proxies.TensorProxy'".
Proof.
  apply (print_type_last_quoted_name "<class " "thunder.core.proxies.TensorProxy" ">");
    (discriminate || reflexivity).
Defined.

Lemma print_type_without_quote_demo :
  ∃ msg, baseutils.print_type (baseutils.ty_other "typing.List[int]")
         = inl (baseutils.AttributeError msg).
Proof. apply (print_type_without_quote "typing.List[int]"). reflexivity. Defined.


(** ** The [Singleton] metaclass *)

Section SingletonFacts.
Import baseutils.
Variable init : nat -> list value -> option error.

(** Every entry of [_instances] is an object of its class, and every object
    ever constructed is the entry of its class. *)
Local Abbreviation registry_exact st :=
  (∀ cls o, Singleton._instances st !! cls = Some o
            ↔ ∃ args, Singleton.objects st !! o = Some (cls, args)).

Lemma singleton_call_exact cls args st :
  registry_exact st → registry_exact (fst (Singleton.__call__ init cls args st)).
Proof.
  intros Hst. unfold Singleton.__call__, Singleton.type_call.
  destruct (Singleton._instances st !! cls) as [o|] eqn:Hcls; [done|].
  destruct (init cls args) as [e|]; [done|]. simpl.
  intros c o. split.
  - destruct (decide (c = cls)) as [->|Hne].
    + rewrite lookup_insert_eq. intros [= <-]. exists args.
      by rewrite lookup_app_r, Nat.sub_diag by lia.
    + rewrite lookup_insert_ne by done. intros (a & Ha)%Hst.
      exists a. rewrite lookup_app_l; [done|]. by eapply lookup_lt_Some.
  - intros (a & Ha). destruct (decide (o < length (Singleton.objects st))%nat) as [Hlt|Hge].
    + rewrite lookup_app_l in Ha by done.
      assert (Hc : Singleton._instances st !! c = Some o) by (apply Hst; by exists a).
      rewrite lookup_insert_ne; [done|]. intros <-. congruence.
    + rewrite lookup_app_r in Ha by lia.
      destruct (o - length (Singleton.objects st))%nat as [|k] eqn:Hk; [|by destruct k].
      injection Ha as <- <-. rewrite lookup_insert_eq. f_equal. lia.
Qed.

Lemma singleton_calls_exact l : ∀ st,
  registry_exact st → registry_exact (Singleton.calls init l st).
Proof.
  induction l as [|[cls args] r IH]; intros st Hst; [done|].
  simpl. apply IH. by apply singleton_call_exact.
Qed.

(** Once a call on a class has returned an instance, every later call on
    that class returns the same instance, whatever its arguments, without
    running the constructor and without changing anything. *)
Theorem singleton_same_instance cls args st st' o :
  Singleton.__call__ init cls args st = (st', inr o) →
  ∀ args', Singleton.__call__ init cls args' st' = (st', inr o).
Proof.
  intros H args'. unfold Singleton.__call__, Singleton.type_call in *.
  destruct (Singleton._instances st !! cls) as [o'|] eqn:Hcls.
  - injection H as <- <-. by rewrite Hcls.
  - destruct (init cls args) as [e|]; [discriminate H|].
    injection H as <- <-. simpl. by rewrite lookup_insert_eq.
Qed.

(** Whatever calls were made since the program started, there is at most one
    instance per class: no two constructed objects have the same class, and
    [_instances] maps a class to an object exactly when that object was
    constructed for it. *)
Theorem singleton_one_instance_per_class l :
  NoDup (fst <$> Singleton.objects (Singleton.calls init l Singleton.empty))
  ∧ ∀ cls o,
      Singleton._instances (Singleton.calls init l Singleton.empty) !! cls = Some o
      ↔ ∃ args,
          Singleton.objects (Singleton.calls init l Singleton.empty) !! o
          = Some (cls, args).
Proof.
  assert (Hex : registry_exact (Singleton.calls init l Singleton.empty)).
  { apply singleton_calls_exact. intros cls o. simpl.
    rewrite lookup_empty, lookup_nil. split; [done|]. by intros [? ?]. }
  split; [|exact Hex].
  apply NoDup_alt. intros i j c Hi Hj.
  rewrite list_lookup_fmap in Hi, Hj.
  destruct (Singleton.objects _ !! i) as [[ci ai]|] eqn:Ei; [|done].
  destruct (Singleton.objects _ !! j) as [[cj aj]|] eqn:Ej; [|done].
  simpl in Hi, Hj. injection Hi as ->. injection Hj as ->.
  assert (Singleton._instances (Singleton.calls init l Singleton.empty) !! c = Some i)
    as Hci by (apply Hex; by exists ai).
  assert (Singleton._instances (Singleton.calls init l Singleton.empty) !! c = Some j)
    as Hcj by (apply Hex; by exists aj).
  congruence.
Qed.

End SingletonFacts.

Lemma singleton_same_instance_demo :
  baseutils.Singleton.__call__ (λ _ _, None) 7 [baseutils.VInt 2]
    (baseutils.Singleton.mkState {[ 7%nat := 0%nat ]} [(7%nat, [baseutils.VInt 1])])
  = (baseutils.Singleton.mkState {[ 7%nat := 0%nat ]} [(7%nat, [baseutils.VInt 1])],
     inr 0%nat).
Proof.
  apply (singleton_same_instance (λ _ _, None) 7 [baseutils.VInt 1]
           baseutils.Singleton.empty).
  reflexivity.
Defined.
